(** * EasyCompiler: lexer, recursive-descent parser and x86 code generator

    A shallow embedding of [demo.py] (classes [Lexer], [Parser] and
    [CodeGenerator]) together with the verification of the properties its
    specification states about them.

    Conventions of the embedding
    - a Python [str] is a [string]; a character is an [ascii], read as the
      code point of the same number (the Latin-1 range of Unicode), and the
      [str] predicates [isspace], [isalpha], [isdigit], [isalnum] are
      tabulated on that range;
    - a Python exception is a value of [exn]; a computation that may raise
      returns an [outcome];
    - the [while] loops and the recursion of the parser are driven by a
      fuel argument; the entry points supply enough of it (lemma
      [tokenize_terminates], theorem [parse_program_terminates]);
    - integers are unbounded, as in Python; the recursion limit of the
      interpreter is not modelled. *)

From Stdlib Require Import Bool Arith ZArith NArith Lia List Ascii String.
From Stdlib Require Import DecimalString DecimalNat DecimalPos DecimalZ ListSet Sorted
  Permutation.
Import ListNotations.

Local Open Scope string_scope.
Local Open Scope list_scope.

(* ================================================================== *)
(** * Exceptions and outcomes *)

(** The four kinds of token, the strings ['KEYWORD'], ['IDENTIFIER'],
    ['NUMBER'] and ['SYMBOL'] of the program. *)
Inductive token_kind : Type := KEYWORD | IDENTIFIER | NUMBER | SYMBOL.

(** A token is the pair [(kind, lexeme)] the lexer appends. *)
Definition token : Type := (token_kind * string)%type.

(** The exceptions the three classes can raise.  The first five are the
    [Exception(...)] values built by the program, each determined by the
    data interpolated in its message; the last three are raised by the
    Python runtime. *)
Inductive exn : Type :=
| UnknownChar (c : ascii)
    (* Exception(f"未知字符: {self.code[self.pos]}") *)
| UnexpectedEOF
    (* Exception("意外的文件结尾") *)
| SyntaxError (token_type : token_kind) (value : option string) (actual : token)
    (* Exception(f"语法错误: 期望 {token_type}({value}), 但得到 {token[0]}({token[1]})") *)
| UnknownStatement (lexeme : string)
    (* Exception(f"未知语句: {token[1]}") *)
| UnexpectedToken (lexeme : string)
    (* Exception(f"意外的标记: {token[1]}") *)
| IndexError
    (* list index out of range *)
| TypeError
    (* 'NoneType' object is not subscriptable *)
| ValueError (literal : string).
    (* invalid literal for int() with base 10 *)

Inductive outcome (A : Type) : Type :=
| Ok (a : A)
| Raise (e : exn)
| OutOfFuel.

Arguments Ok {A} a.
Arguments Raise {A} e.
Arguments OutOfFuel {A}.

Definition token_kind_eqb (a b : token_kind) : bool :=
  match a, b with
  | KEYWORD, KEYWORD | IDENTIFIER, IDENTIFIER
  | NUMBER, NUMBER | SYMBOL, SYMBOL => true
  | _, _ => false
  end.

(** [x in xs] for strings. *)
Definition mem (x : string) (xs : list string) : bool :=
  existsb (String.eqb x) xs.

(* ================================================================== *)
(** * Characters *)

Module PyStr.

Definition code (c : ascii) : N := N_of_ascii c.

Definition between (lo hi : N) (c : ascii) : bool :=
  ((lo <=? code c) && (code c <=? hi))%N.

Definition one_of (l : list N) (c : ascii) : bool :=
  existsb (N.eqb (code c)) l.

(** [str.isspace]: U+0009..U+000D, U+001C..U+001F, U+0020, U+0085, U+00A0. *)
Definition isspace (c : ascii) : bool :=
  between 9 13 c || between 28 32 c || one_of [133; 160]%N c.

(** [str.isalpha]: the letters (general category L). *)
Definition isalpha (c : ascii) : bool :=
  between 65 90 c || between 97 122 c || one_of [170; 181; 186]%N c
  || between 192 214 c || between 216 246 c || between 248 255 c.

(** [str.isdecimal]: the decimal digits (general category Nd). *)
Definition isdecimal (c : ascii) : bool := between 48 57 c.

(** [str.isdigit]: the decimal digits and the superscripts 1, 2, 3. *)
Definition isdigit (c : ascii) : bool :=
  isdecimal c || one_of [178; 179; 185]%N c.

(** [str.isnumeric]: the digits and the vulgar fractions. *)
Definition isnumeric (c : ascii) : bool :=
  isdigit c || between 188 190 c.

(** [str.isalnum]. *)
Definition isalnum (c : ascii) : bool :=
  isalpha c || isdecimal c || isdigit c || isnumeric c.

(** [s[n:]]. *)
Fixpoint skip (n : nat) (s : string) : string :=
  match n, s with
  | O, _ => s
  | S n', String _ s' => skip n' s'
  | S _, EmptyString => EmptyString
  end.

(** The inner scanning loops
    [while self.pos < len(self.code) and p(self.code[self.pos]): self.pos += 1]
    followed by the slice [self.code[start:self.pos]]: the longest prefix
    whose characters satisfy [p], and what is left unread. *)
Fixpoint span (p : ascii -> bool) (s : string) : string * string :=
  match s with
  | EmptyString => (EmptyString, EmptyString)
  | String c s' =>
      if p c then let (run, rest) := span p s' in (String c run, rest)
      else (EmptyString, s)
  end.

(** [int(s)] for the lexeme of a NUMBER token, [None] standing for the
    [ValueError].  The lexer gives such a token a non-empty run of
    [isdigit] characters: a run of the digits 0 to 9 is read in base 10,
    and a run that holds a superscript digit, which [int] refuses, is an
    error.  Signs, underscores and blanks, which [int] accepts as well,
    never occur in a lexeme of the lexer; the interpreter's bound on the
    number of digits of a literal is not modelled. *)
Definition int (s : string) : option Z :=
  option_map Z.of_uint (NilZero.uint_of_string s).

(** [str(n)] for an [int]. *)
Definition str (z : Z) : string := NilZero.string_of_int (Z.to_int z).

Definition str_nat (n : nat) : string := NilZero.string_of_uint (Nat.to_uint n).

End PyStr.

(* ================================================================== *)
(** * Lexer *)

Module Lexer.

Definition keywords : list string := ["int"; "return"; "if"; "else"; "while"].

Definition symbols : list string :=
  ["="; ";"; "("; ")"; "{"; "}"; "+"; "-"; "*"; "/"; "<"; ">"; "=="; "!="].

(** [sorted(xs, key=len, reverse=True)]: a stable sort, longest first. *)
Fixpoint insert_by_len (x : string) (l : list string) : list string :=
  match l with
  | [] => [x]
  | y :: l' =>
      if Nat.ltb (String.length x) (String.length y) then y :: insert_by_len x l'
      else x :: l
  end.

Definition sorted_by_len (xs : list string) : list string :=
  fold_right insert_by_len [] xs.

(** The [for sym in sorted(...)] loop with its [break]: the first symbol
    of the list with which the unread input starts. *)
Fixpoint first_match (syms : list string) (rest : string) : option string :=
  match syms with
  | [] => None
  | sym :: syms' =>
      if String.prefix sym rest then Some sym else first_match syms' rest
  end.

Definition ident_char (c : ascii) : bool :=
  PyStr.isalnum c || Ascii.eqb c "_".

(** What one iteration of the [while] loop of [tokenize] does: [continue]
    with the cursor moved (and maybe a token appended), or leave the loop
    by a [raise]. *)
Inductive iteration : Type :=
| Continue (rest : string) (tokens : list token)
| Stop (e : exn).

(** One iteration, with a character [c] under the cursor.  The cursor
    [self.pos] is kept as the unread input [self.code[self.pos:]], here
    [String c rest']; [tokens] is [self.tokens]. *)
Definition tokenize_step (c : ascii) (rest' : string) (tokens : list token)
  : iteration :=
  let rest := String c rest' in
  if PyStr.isspace c then Continue rest' tokens
  else if PyStr.isalpha c then
    let (token_value, rest'') := PyStr.span ident_char rest in
    if mem token_value keywords
    then Continue rest'' (tokens ++ [(KEYWORD, token_value)])
    else Continue rest'' (tokens ++ [(IDENTIFIER, token_value)])
  else if PyStr.isdigit c then
    let (digits, rest'') := PyStr.span PyStr.isdigit rest in
    Continue rest'' (tokens ++ [(NUMBER, digits)])
  else
    match first_match (sorted_by_len symbols) rest with
    | Some sym =>
        Continue (PyStr.skip (String.length sym) rest)
                 (tokens ++ [(SYMBOL, sym)])
    | None => Stop (UnknownChar c)
    end.

(** [while self.pos < len(self.code): ...] and [return self.tokens]. *)
Fixpoint tokenize_loop (fuel : nat) (rest : string) (tokens : list token)
  : outcome (list token) :=
  match fuel with
  | O => OutOfFuel
  | S fuel' =>
      match rest with
      | EmptyString => Ok tokens
      | String c rest' =>
          match tokenize_step c rest' tokens with
          | Continue rest'' tokens' => tokenize_loop fuel' rest'' tokens'
          | Stop e => Raise e
          end
      end
  end.

(** [Lexer(code).tokenize()].  Every iteration either raises or moves the
    cursor forward, so [len(code)] iterations and the final test are
    enough (lemma [tokenize_terminates]). *)
Definition tokenize (code : string) : outcome (list token) :=
  tokenize_loop (S (String.length code)) code [].

End Lexer.


(* ================================================================== *)
(** * Abstract syntax tree

    The parser builds dictionaries tagged by their ['type'] entry; each tag
    is a constructor here and each further entry an argument of it. *)

Inductive expr : Type :=
| Number (value : Z)
| Var (name : string)   (* 'variable' *)
| BinaryOp (op : string) (left right : expr).

Unset Elimination Schemes.

Inductive stmt : Type :=
| Return (expression : expr)
| Declaration (name : string)
| Assignment (name : string) (expression : expr)
| If (condition : expr) (then_block else_block : list stmt)
| While (condition : expr) (body : list stmt).

Set Elimination Schemes.

(** Induction on statements, with the hypothesis on every statement of a
    nested block. *)
Fixpoint stmt_ind (P : stmt -> Prop)
    (HReturn : forall e, P (Return e))
    (HDeclaration : forall x, P (Declaration x))
    (HAssignment : forall x e, P (Assignment x e))
    (HIf : forall c t e, Forall P t -> Forall P e -> P (If c t e))
    (HWhile : forall c b, Forall P b -> P (While c b))
    (s : stmt) : P s :=
  let all :=
    fix all (l : list stmt) : Forall P l :=
      match l with
      | [] => Forall_nil P
      | s' :: l' =>
          Forall_cons s'
            (stmt_ind P HReturn HDeclaration HAssignment HIf HWhile s')
            (all l')
      end in
  match s with
  | Return e => HReturn e
  | Declaration x => HDeclaration x
  | Assignment x e => HAssignment x e
  | If c t e => HIf c t e (all t) (all e)
  | While c b => HWhile c b (all b)
  end.

Inductive func : Type :=
| Func (name : string) (body : list stmt).

Inductive program : Type :=
| Program (functions : list func).

(* ================================================================== *)
(** * Parser *)

Module Parser.

(** A method of [Parser] reads and moves the cursor [self.pos], and
    returns a value or raises. *)
Definition parser (A : Type) : Type := nat -> outcome (A * nat).

Definition ret {A} (a : A) : parser A := fun pos => Ok (a, pos).

Definition raise {A} (e : exn) : parser A := fun _ => Raise e.

Definition out_of_fuel {A} : parser A := fun _ => OutOfFuel.

Definition bind {A B} (m : parser A) (k : A -> parser B) : parser B :=
  fun pos =>
    match m pos with
    | Ok (a, pos') => k a pos'
    | Raise e => Raise e
    | OutOfFuel => OutOfFuel
    end.

Declare Scope parser_scope.
Delimit Scope parser_scope with parser.
Notation "x <- m ;; k" := (bind m (fun x => k))
  (at level 61, m at next level, right associativity) : parser_scope.
Notation "m ;; k" := (bind m (fun _ => k))
  (at level 61, right associativity) : parser_scope.
Local Open Scope parser_scope.

Section WithTokens.

Variable tokens : list token.

(** [current_token]: the token under the cursor, or [None] past the end. *)
Definition current_token : parser (option token) :=
  fun pos => Ok (nth_error tokens pos, pos).

(** [self.tokens[self.pos + 1]]: a plain list index. *)
Definition next_token : parser token :=
  fun pos =>
    match nth_error tokens (pos + 1) with
    | Some token => Ok (token, pos)
    | None => Raise IndexError
    end.

Definition mismatch (token : token) (token_type : token_kind)
    (value : option string) : bool :=
  negb (token_kind_eqb (fst token) token_type)
  || match value with
     | Some v => negb (String.eqb (snd token) v)
     | None => false
     end.

Definition eat (token_type : token_kind) (value : option string)
  : parser token :=
  token <- current_token ;;
  match token with
  | None => raise UnexpectedEOF
  | Some token =>
      if mismatch token token_type value
      then raise (SyntaxError token_type value token)
      else fun pos => Ok (token, pos + 1)
  end.

(** [self.current_token() and self.current_token()[1] == v]. *)
Definition at_lexeme (p : string -> bool) : parser bool :=
  token <- current_token ;;
  match token with
  | None => ret false
  | Some token => ret (p (snd token))
  end.

(** ** Expressions *)

Definition multiplication_ops : list string := ["*"; "/"].
Definition addition_ops : list string := ["+"; "-"].
Definition comparison_ops : list string :=
  ["=="; "!="; "<"; ">"; "<="; ">="].

(** The loop the three precedence tiers share:
    [[
    while self.current_token() and self.current_token()[1] in ops:
        op = self.eat('SYMBOL')[1]
        right = operand()
        left = {'type': 'binary_operation', 'op': op, 'left': left, 'right': right}
    return left
    ]] *)
Fixpoint binary_loop (ops : list string) (operand : parser expr)
    (fuel : nat) (left : expr) : parser expr :=
  match fuel with
  | O => out_of_fuel
  | S fuel' =>
      continue <- at_lexeme (fun v => mem v ops) ;;
      if continue : bool then
        op <- eat SYMBOL None ;;
        right <- operand ;;
        binary_loop ops operand fuel' (BinaryOp (snd op) left right)
      else ret left
  end.

Section Tiers.

(** The call of [parse_expression] inside the parentheses of a
    primary, and the fuel of the loops. *)
Variable parse_expression : parser expr.
Variable fuel : nat.

Definition parse_primary : parser expr :=
  token <- current_token ;;
  match token with
  | None => raise TypeError
  | Some token =>
      match fst token with
      | NUMBER =>
          eat NUMBER None ;;
          match PyStr.int (snd token) with
          | Some value => ret (Number value)
          | None => raise (ValueError (snd token))
          end
      | IDENTIFIER =>
          eat IDENTIFIER None ;;
          ret (Var (snd token))
      | _ =>
          if String.eqb (snd token) "(" then
            eat SYMBOL (Some "(") ;;
            e <- parse_expression ;;
            eat SYMBOL (Some ")") ;;
            ret e
          else raise (UnexpectedToken (snd token))
      end
  end.

Definition parse_multiplication : parser expr :=
  left <- parse_primary ;;
  binary_loop multiplication_ops parse_primary fuel left.

Definition parse_addition : parser expr :=
  left <- parse_multiplication ;;
  binary_loop addition_ops parse_multiplication fuel left.

Definition parse_comparison : parser expr :=
  left <- parse_addition ;;
  binary_loop comparison_ops parse_addition fuel left.

End Tiers.

Fixpoint parse_expression (fuel : nat) : parser expr :=
  match fuel with
  | O => out_of_fuel
  | S fuel' => parse_comparison (parse_expression fuel') fuel
  end.

(** ** Statements *)

Definition is_rbrace (v : string) : bool := String.eqb v "}".

Section Statements.

(** The calls of [parse_statement] made by the blocks of [if] and
    [while], and the fuel of the loops and of the expressions. *)
Variable parse_statement : parser stmt.
Variable fuel : nat.

(** [[
    while self.current_token() and self.current_token()[1] != '}':
        statements.append(self.parse_statement())
    ]] *)
Fixpoint parse_block (n : nat) (statements : list stmt)
  : parser (list stmt) :=
  match n with
  | O => out_of_fuel
  | S n' =>
      continue <- at_lexeme (fun v => negb (is_rbrace v)) ;;
      if continue : bool then
        s <- parse_statement ;;
        parse_block n' (statements ++ [s])
      else ret statements
  end.

Definition parse_return : parser stmt :=
  eat KEYWORD (Some "return") ;;
  e <- parse_expression fuel ;;
  eat SYMBOL (Some ";") ;;
  ret (Return e).

Definition parse_declaration : parser stmt :=
  eat KEYWORD (Some "int") ;;
  var_name <- eat IDENTIFIER None ;;
  eat SYMBOL (Some ";") ;;
  ret (Declaration (snd var_name)).

Definition parse_assignment : parser stmt :=
  var_name <- eat IDENTIFIER None ;;
  eat SYMBOL (Some "=") ;;
  e <- parse_expression fuel ;;
  eat SYMBOL (Some ";") ;;
  ret (Assignment (snd var_name) e).

Definition parse_if : parser stmt :=
  eat KEYWORD (Some "if") ;;
  eat SYMBOL (Some "(") ;;
  condition <- parse_expression fuel ;;
  eat SYMBOL (Some ")") ;;
  eat SYMBOL (Some "{") ;;
  then_block <- parse_block fuel [] ;;
  eat SYMBOL (Some "}") ;;
  has_else <- at_lexeme (fun v => String.eqb v "else") ;;
  if has_else : bool then
    eat KEYWORD (Some "else") ;;
    eat SYMBOL (Some "{") ;;
    else_block <- parse_block fuel [] ;;
    eat SYMBOL (Some "}") ;;
    ret (If condition then_block else_block)
  else ret (If condition then_block []).

Definition parse_while : parser stmt :=
  eat KEYWORD (Some "while") ;;
  eat SYMBOL (Some "(") ;;
  condition <- parse_expression fuel ;;
  eat SYMBOL (Some ")") ;;
  eat SYMBOL (Some "{") ;;
  body <- parse_block fuel [] ;;
  eat SYMBOL (Some "}") ;;
  ret (While condition body).

Definition is_keyword (token : token) (v : string) : bool :=
  token_kind_eqb (fst token) KEYWORD && String.eqb (snd token) v.

(** The third test of the dispatcher,
    [token[0] == 'IDENTIFIER' and self.tokens[self.pos + 1][1] == '=']:
    the index is evaluated only for an identifier. *)
Definition is_assignment (token : token) : parser bool :=
  if token_kind_eqb (fst token) IDENTIFIER then
    next <- next_token ;;
    ret (String.eqb (snd next) "=")
  else ret false.

Definition parse_statement_body : parser stmt :=
  token <- current_token ;;
  match token with
  | None => raise TypeError
  | Some token =>
      if is_keyword token "return" then parse_return
      else if is_keyword token "int" then parse_declaration
      else
        assignment <- is_assignment token ;;
        if assignment : bool then parse_assignment
        else if is_keyword token "if" then parse_if
        else if is_keyword token "while" then parse_while
        else raise (UnknownStatement (snd token))
  end.

End Statements.

Fixpoint parse_statement (fuel : nat) : parser stmt :=
  match fuel with
  | O => out_of_fuel
  | S fuel' => parse_statement_body (parse_statement fuel') fuel
  end.

(** ** Functions and programs *)

Definition parse_function (fuel : nat) : parser func :=
  eat KEYWORD (Some "int") ;;
  func_name <- eat IDENTIFIER None ;;
  eat SYMBOL (Some "(") ;;
  eat SYMBOL (Some ")") ;;
  eat SYMBOL (Some "{") ;;
  statements <- parse_block (parse_statement fuel) fuel [] ;;
  eat SYMBOL (Some "}") ;;
  ret (Func (snd func_name) statements).

(** [[
    while self.current_token() and self.current_token()[1] == 'int':
        functions.append(self.parse_function())
    ]] *)
Fixpoint parse_functions (fuel n : nat) (functions : list func)
  : parser (list func) :=
  match n with
  | O => out_of_fuel
  | S n' =>
      continue <- at_lexeme (fun v => String.eqb v "int") ;;
      if continue : bool then
        f <- parse_function fuel ;;
        parse_functions fuel n' (functions ++ [f])
      else ret functions
  end.

Definition parse_program (fuel : nat) : parser program :=
  functions <- parse_functions fuel fuel [] ;;
  ret (Program functions).

End WithTokens.

(** The result of a method called on a fresh [Parser(tokens)]. *)
Definition run {A} (m : parser A) : outcome A :=
  match m 0 with
  | Ok (a, _) => Ok a
  | Raise e => Raise e
  | OutOfFuel => OutOfFuel
  end.

(** Every call and every loop iteration that costs fuel comes after a
    token was consumed, so one unit per token and one more are enough
    (theorem [parse_program_terminates]). *)
Definition enough (tokens : list token) : nat := S (List.length tokens).

(** [Parser(tokens).parse()]. *)
Definition parse (tokens : list token) : outcome program :=
  run (parse_program tokens (enough tokens)).

(** [Parser(tokens).parse_expression()]. *)
Definition parse_expression_of (tokens : list token) : outcome expr :=
  run (parse_expression tokens (enough tokens)).

End Parser.

(** The lexer followed by the parser, on a whole program and on an
    expression. *)
Definition parse_source (source : string) : outcome program :=
  match Lexer.tokenize source with
  | Ok tokens => Parser.parse tokens
  | Raise e => Raise e
  | OutOfFuel => OutOfFuel
  end.

Definition parse_expression_source (source : string) : outcome expr :=
  match Lexer.tokenize source with
  | Ok tokens => Parser.parse_expression_of tokens
  | Raise e => Raise e
  | OutOfFuel => OutOfFuel
  end.


(* ================================================================== *)
(** * Code generator *)

Module CodeGenerator.

(** The fields of a [CodeGenerator] instance; [code] is the list of the
    lines emitted so far. *)
Record t : Type := mk {
  variables : list string;
  label_counter : nat;
  code : list string
}.

(** [CodeGenerator()]. *)
Definition init : t :=
  {| variables := []; label_counter := 0; code := [] |}.

(** [self.code.append(line)]. *)
Definition emit (line : string) (g : t) : t :=
  {| variables := variables g;
     label_counter := label_counter g;
     code := code g ++ [line] |}.

Definition generate_label (g : t) : string * t :=
  let g' := {| variables := variables g;
               label_counter := label_counter g + 1;
               code := code g |} in
  (("L" ++ PyStr.str_nat (label_counter g'))%string, g').

Definition get_variable_offset (var_name : string) : Z := (-4)%Z.

Definition operator_lines (op : string) : list string :=
  if String.eqb op "+" then ["add %ecx, %eax"]
  else if String.eqb op "-" then ["sub %ecx, %eax"]
  else if String.eqb op "*" then ["imul %ecx, %eax"]
  else if String.eqb op "/" then ["cdq"; "idiv %ecx"]
  else if String.eqb op "==" then
    ["cmp %ecx, %eax"; "sete %al"; "movzbl %al, %eax"]
  else if String.eqb op "!=" then
    ["cmp %ecx, %eax"; "setne %al"; "movzbl %al, %eax"]
  else if String.eqb op "<" then
    ["cmp %ecx, %eax"; "setl %al"; "movzbl %al, %eax"]
  else if String.eqb op ">" then
    ["cmp %ecx, %eax"; "setg %al"; "movzbl %al, %eax"]
  else [].

Definition emit_all (lines : list string) (g : t) : t :=
  fold_left (fun g line => emit line g) lines g.

Fixpoint generate_expression (e : expr) (g : t) : t :=
  match e with
  | Number value => emit ("mov $" ++ PyStr.str value ++ ", %eax")%string g
  | Var name =>
      let var_offset := get_variable_offset name in
      emit ("mov " ++ PyStr.str var_offset ++ "(%ebp), %eax")%string g
  | BinaryOp op lhs rhs =>
      let g := generate_expression rhs g in
      let g := emit "push %eax" g in
      let g := generate_expression lhs g in
      let g := emit "pop %ecx" g in
      emit_all (operator_lines op) g
  end.

(** [for s in stmts: self.generate_statement(s)]. *)
Definition generate_statements (generate_statement : stmt -> t -> t)
    (stmts : list stmt) (g : t) : t :=
  fold_left (fun g s => generate_statement s g) stmts g.

(** [bool(l)] for a list. *)
Definition nonempty {A} (l : list A) : bool :=
  match l with [] => false | _ :: _ => true end.

Section Control.

Variable generate_statement : stmt -> t -> t.

Definition generate_if (condition : expr) (then_block else_block : list stmt)
    (g : t) : t :=
  let (else_label, g) := generate_label g in
  let (end_label, g) := generate_label g in
  let g := generate_expression condition g in
  let g := emit "cmp $0, %eax" g in
  let g := if nonempty else_block then emit ("je " ++ else_label)%string g
           else emit ("je " ++ end_label)%string g in
  let g := generate_statements generate_statement then_block g in
  let g := if nonempty else_block then
             let g := emit ("jmp " ++ end_label)%string g in
             let g := emit (else_label ++ ":")%string g in
             generate_statements generate_statement else_block g
           else g in
  emit (end_label ++ ":")%string g.

Definition generate_while (condition : expr) (body : list stmt) (g : t) : t :=
  let (start_label, g) := generate_label g in
  let (end_label, g) := generate_label g in
  let g := emit (start_label ++ ":")%string g in
  let g := generate_expression condition g in
  let g := emit "cmp $0, %eax" g in
  let g := emit ("je " ++ end_label)%string g in
  let g := generate_statements generate_statement body g in
  let g := emit ("jmp " ++ start_label)%string g in
  emit (end_label ++ ":")%string g.

End Control.

Fixpoint generate_statement (s : stmt) (g : t) : t :=
  match s with
  | Return expression =>
      let g := generate_expression expression g in
      let g := emit "mov %eax, %ebx" g in
      let g := emit "mov $1, %eax" g in
      emit "int $0x80" g
  | Declaration _ => g
  | Assignment name expression =>
      let g := generate_expression expression g in
      let var_offset := get_variable_offset name in
      emit ("mov %eax, " ++ PyStr.str var_offset ++ "(%ebp)")%string g
  | If condition then_block else_block =>
      generate_if generate_statement condition then_block else_block g
  | While condition body =>
      generate_while generate_statement condition body g
  end.

(** The set [local_vars] built by [generate_function]: the names of the
    declarations that are statements of the body itself. *)
Definition local_vars (body : list stmt) : set string :=
  fold_left
    (fun vars s =>
       match s with
       | Declaration name => set_add string_dec name vars
       | _ => vars
       end)
    body (empty_set string).

Definition generate_function (f : func) (g : t) : t :=
  let (name, body) := f in
  let g := if String.eqb name "main" then emit "_start:" g
           else emit (name ++ ":")%string g in
  let g := emit "push %ebp" g in
  let g := emit "mov %esp, %ebp" g in
  let vars := local_vars body in
  let g := if nonempty vars
           then emit ("sub $" ++ PyStr.str_nat (4 * List.length vars) ++ ", %esp")%string g
           else g in
  let g := generate_statements generate_statement body g in
  let g := emit "mov %ebp, %esp" g in
  let g := emit "pop %ebp" g in
  let g := emit "ret" g in
  emit "" g.

(** The state of the generator when [generate] reaches its [return]. *)
Definition generate_program (ast : program) (g : t) : t :=
  let (functions) := ast in
  let g := emit ".section .text" g in
  let g := emit ".globl _start" g in
  let g := emit "" g in
  fold_left (fun g f => generate_function f g) functions g.

Definition newline : string := String (ascii_of_nat 10) EmptyString.

(** [CodeGenerator().generate(ast)]: ["\n".join(self.code)]. *)
Definition generate (ast : program) : string :=
  String.concat newline (code (generate_program ast init)).

(** The lines of that text. *)
Definition generate_lines (ast : program) : list string :=
  code (generate_program ast init).

End CodeGenerator.

(** The whole pipeline of [test_compiler], down to the emitted lines. *)
Definition compile_lines (source : string) : outcome (list string) :=
  match parse_source source with
  | Ok ast => Ok (CodeGenerator.generate_lines ast)
  | Raise e => Raise e
  | OutOfFuel => OutOfFuel
  end.

(* ================================================================== *)
(** * Notions used in the statements *)

Definition first_char_is (p : ascii -> bool) (s : string) : bool :=
  match s with
  | String c _ => p c
  | EmptyString => false
  end.

(** The shape of a token the lexer can append, kind by kind. *)
Definition lexed (t : token) : Prop :=
  match fst t with
  | KEYWORD => In (snd t) Lexer.keywords
  | IDENTIFIER => first_char_is PyStr.isalpha (snd t) = true
  | NUMBER => first_char_is PyStr.isdigit (snd t) = true
  | SYMBOL => In (snd t) Lexer.symbols
  end.

(** The comparison operators for which the code generator has a case. *)
Definition generated_comparison_ops : list string := ["=="; "!="; "<"; ">"].

(** [c] is the first character of a registered symbol. *)
Definition starts_symbol (c : ascii) : bool :=
  existsb (first_char_is (Ascii.eqb c)) Lexer.symbols.

(** A character that is neither whitespace, identifier-start, digit, nor
    the start of a registered symbol. *)
Definition unlexable (c : ascii) : bool :=
  negb (PyStr.isspace c) && negb (PyStr.isalpha c)
  && negb (PyStr.isdigit c) && negb (starts_symbol c).

(** The last character of a string has the property [p]. *)
Fixpoint last_char_is (p : ascii -> bool) (s : string) : bool :=
  match s with
  | EmptyString => false
  | String c EmptyString => p c
  | String _ s' => last_char_is p s'
  end.

Definition is_word (t : token) : bool :=
  match fst t with
  | KEYWORD | IDENTIFIER => true
  | _ => false
  end.

(** The text [pre], of which [tokens] are the tokens, ends with an
    identifier or a keyword: its last token is one of the two and no
    whitespace follows it.  A character put after [pre] then stands inside
    the scanning loop of that word, and at the start of a token
    otherwise. *)
Definition after_word (pre : string) (tokens : list token) : bool :=
  last_char_is (fun d => negb (PyStr.isspace d)) pre
  && is_word (last tokens (SYMBOL, EmptyString)).

(** The lexical-error claim as the specification words it: the error of
    [tokenize] determines the offending character and its zero-based
    offset, for the first character of the source that has no rule. *)
Definition error_reports_offset : Prop :=
  exists offset_of : exn -> nat,
    forall source p c,
      String.get p source = Some c ->
      unlexable c = true ->
      (forall q d, q < p -> String.get q source = Some d -> unlexable d = false) ->
      Lexer.tokenize source = Raise (UnknownChar c)
      /\ offset_of (UnknownChar c) = p.

(** The lines [generate_expression] appends for an expression. *)
Fixpoint expression_lines (e : expr) : list string :=
  match e with
  | Number value => [("mov $" ++ PyStr.str value ++ ", %eax")%string]
  | Var name =>
      [("mov " ++ PyStr.str (CodeGenerator.get_variable_offset name)
               ++ "(%ebp), %eax")%string]
  | BinaryOp op lhs rhs =>
      expression_lines rhs ++ ["push %eax"] ++ expression_lines lhs
      ++ ["pop %ecx"] ++ CodeGenerator.operator_lines op
  end.

(** Renaming of the variables of an expression and of a statement. *)
Fixpoint rename_expr (f : string -> string) (e : expr) : expr :=
  match e with
  | Number value => Number value
  | Var name => Var (f name)
  | BinaryOp op lhs rhs => BinaryOp op (rename_expr f lhs) (rename_expr f rhs)
  end.

Fixpoint rename_stmt (f : string -> string) (s : stmt) : stmt :=
  match s with
  | Return e => Return (rename_expr f e)
  | Declaration x => Declaration (f x)
  | Assignment x e => Assignment (f x) (rename_expr f e)
  | If c t e =>
      If (rename_expr f c) (map (rename_stmt f) t) (map (rename_stmt f) e)
  | While c b => While (rename_expr f c) (map (rename_stmt f) b)
  end.


(** The number of calls of [generate_label] made for a statement: two for
    every [if] and every [while] in it. *)
Fixpoint labels_used (s : stmt) : nat :=
  match s with
  | If _ t e => 2 + list_sum (map labels_used t) + list_sum (map labels_used e)
  | While _ b => 2 + list_sum (map labels_used b)
  | _ => 0
  end.

(** The names declared anywhere in a statement, blocks included. *)
Fixpoint declared (s : stmt) : list string :=
  match s with
  | Declaration x => [x]
  | If _ t e => flat_map declared t ++ flat_map declared e
  | While _ b => flat_map declared b
  | _ => []
  end.

(** The label line of a function and the frame reservation line that
    [generate_function] computes from the body. *)
Definition function_label (name : string) : string :=
  if String.eqb name "main" then "_start:" else (name ++ ":")%string.

Definition frame_lines (body : list stmt) : list string :=
  match CodeGenerator.local_vars body with
  | [] => []
  | vars =>
      [("sub $" ++ PyStr.str_nat (4 * List.length vars) ++ ", %esp")%string]
  end.

(** The label that the [k]-th call of [generate_label] returns, and the
    line that defines it. *)
Definition label (k : nat) : string := ("L" ++ PyStr.str_nat k)%string.

Definition label_line (k : nat) : string := (label k ++ ":")%string.

(** The lines that [generate_statement] appends for a statement when the
    label counter is [c]: the generator as a function of the tree and of
    the counter (lemma [generate_statement_lines]). *)
Section BlockLines.

Variable lines : stmt -> nat -> list string.

Fixpoint block_lines (l : list stmt) (c : nat) : list string :=
  match l with
  | [] => []
  | s :: l' => lines s c ++ block_lines l' (c + labels_used s)
  end.

End BlockLines.

Fixpoint statement_lines (s : stmt) (c : nat) : list string :=
  match s with
  | Return e =>
      expression_lines e ++ ["mov %eax, %ebx"; "mov $1, %eax"; "int $0x80"]
  | Declaration _ => []
  | Assignment x e =>
      expression_lines e
      ++ [("mov %eax, " ++ PyStr.str (CodeGenerator.get_variable_offset x)
                        ++ "(%ebp)")%string]
  | If condition t e =>
      let else_label := label (c + 1) in
      let end_label := label (c + 1 + 1) in
      expression_lines condition
      ++ ["cmp $0, %eax"]
      ++ [if CodeGenerator.nonempty e then ("je " ++ else_label)%string
          else ("je " ++ end_label)%string]
      ++ block_lines statement_lines t (c + 1 + 1)
      ++ (if CodeGenerator.nonempty e then
            [("jmp " ++ end_label)%string; (else_label ++ ":")%string]
            ++ block_lines statement_lines e
                 (c + 1 + 1 + list_sum (map labels_used t))
          else [])
      ++ [(end_label ++ ":")%string]
  | While condition b =>
      let start_label := label (c + 1) in
      let end_label := label (c + 1 + 1) in
      [(start_label ++ ":")%string]
      ++ expression_lines condition
      ++ ["cmp $0, %eax"; ("je " ++ end_label)%string]
      ++ block_lines statement_lines b (c + 1 + 1)
      ++ [("jmp " ++ start_label)%string; (end_label ++ ":")%string]
  end.

(** A line that ends with a colon defines a label; the label definitions
    among some lines. *)
Fixpoint ends_with_colon (s : string) : bool :=
  match s with
  | EmptyString => false
  | String c EmptyString => Ascii.eqb c ":"
  | String _ s' => ends_with_colon s'
  end.

Definition label_definitions (lines : list string) : list string :=
  filter ends_with_colon lines.

(** The label definitions among [lines] are those of distinct labels
    [Lk], with [k] in [P]. *)
Definition defines_labels (lines : list string) (P : nat -> Prop) : Prop :=
  exists ks,
    label_definitions lines = map label_line ks
    /\ NoDup ks
    /\ forall k, In k ks -> P k.

(** An operand made of a single token, with the expression that
    [parse_primary] builds from it. *)
Definition atom_expr (t : token) : option expr :=
  match fst t with
  | NUMBER => option_map Number (PyStr.int (snd t))
  | IDENTIFIER => Some (Var (snd t))
  | _ => None
  end.

(** One more operator of a chain [t0 op1 t1 op2 t2 ...]: the operator, the
    token of its right operand and the expression of that operand. *)
Definition link : Type := (string * token * expr)%type.

Definition link_tokens (l : link) : list token :=
  let '(op, t, _) := l in [(SYMBOL, op); t].

Definition link_ok (ops : list string) (l : link) : Prop :=
  let '(op, t, e) := l in In op ops /\ atom_expr t = Some e.

Definition chain_tokens (t0 : token) (links : list link) : list token :=
  t0 :: flat_map link_tokens links.

(** The left-leaning tree [((e0 op1 e1) op2 e2) ...] of an expression
    followed by operators and right operands. *)
Definition left_chain (e0 : expr) (links : list (string * expr)) : expr :=
  fold_left (fun acc (l : string * expr) => BinaryOp (fst l) acc (snd l))
            links e0.

Definition chain_expr (e0 : expr) (links : list link) : expr :=
  left_chain e0 (map (fun l : link => (fst (fst l), snd l)) links).

(** The three precedence tiers of the parser, each with its operators, the
    method that parses its operands and its own method. *)
Inductive tier : Type := Multiplication | Addition | Comparison.

Definition tier_ops (t : tier) : list string :=
  match t with
  | Multiplication => Parser.multiplication_ops
  | Addition => Parser.addition_ops
  | Comparison => Parser.comparison_ops
  end.

Definition tier_operand (tokens : list token) (rec : Parser.parser expr)
    (fuel : nat) (t : tier) : Parser.parser expr :=
  match t with
  | Multiplication => Parser.parse_primary tokens rec
  | Addition => Parser.parse_multiplication tokens rec fuel
  | Comparison => Parser.parse_addition tokens rec fuel
  end.

Definition tier_parser (tokens : list token) (rec : Parser.parser expr)
    (fuel : nat) (t : tier) : Parser.parser expr :=
  match t with
  | Multiplication => Parser.parse_multiplication tokens rec fuel
  | Addition => Parser.parse_addition tokens rec fuel
  | Comparison => Parser.parse_comparison tokens rec fuel
  end.

(** [operators_run tokens ops operand p links q]: from the cursor [p] on,
    the input shows for each link an operator of [ops] and an operand that
    [operand] parses to the expression of the link; at [q] the test of the
    loop fails. *)
Inductive operators_run (tokens : list token) (ops : list string)
    (operand : Parser.parser expr)
  : nat -> list (string * expr) -> nat -> Prop :=
| run_stop p :
    Parser.at_lexeme tokens (fun v => mem v ops) p = Ok (false, p) ->
    operators_run tokens ops operand p [] p
| run_step p op e p' links q :
    nth_error tokens p = Some (SYMBOL, op) ->
    mem op ops = true ->
    operand (p + 1) = Ok (e, p') ->
    operators_run tokens ops operand p' links q ->
    operators_run tokens ops operand p ((op, e) :: links) q.

(** The unread tokens are empty or start with a token that is not one of
    the operators [ops]: the loop of the tier stops there. *)
Definition stops (ops : list string) (l : list token) : Prop :=
  match l with
  | [] => True
  | t :: _ => mem (snd t) ops = false
  end.

(** A parser method that, when it returns, has moved the cursor forward
    ([advances]) or at least not backward ([monotone]); and a call that
    does not exhaust its fuel ([funded]). *)
Definition advances {A} (m : Parser.parser A) : Prop :=
  forall pos a pos', m pos = Ok (a, pos') -> pos < pos'.

Definition monotone {A} (m : Parser.parser A) : Prop :=
  forall pos a pos', m pos = Ok (a, pos') -> pos <= pos'.

Definition funded {A} (m : Parser.parser A) (pos : nat) : Prop :=
  m pos <> OutOfFuel.

(** The errors of the specification's taxonomy: [LexError], [SyntaxError],
    [UnexpectedEOF], [UnknownStatement], [UnexpectedToken]. *)
Definition in_spec_taxonomy (e : exn) : bool :=
  match e with
  | UnknownChar _ | UnexpectedEOF | SyntaxError _ _ _
  | UnknownStatement _ | UnexpectedToken _ => true
  | IndexError | TypeError | ValueError _ => false
  end.

(** [block_reaches tokens fuel p q]: the loop of a block that starts with
    the cursor at [p] parses whole statements up to the cursor [q]. *)
Inductive block_reaches (tokens : list token) (fuel : nat) : nat -> nat -> Prop :=
| reaches_here p : block_reaches tokens fuel p p
| reaches_next p p' q t s :
    nth_error tokens p = Some t ->
    Parser.is_rbrace (snd t) = false ->
    Parser.parse_statement tokens fuel p = Ok (s, p') ->
    block_reaches tokens fuel p' q ->
    block_reaches tokens fuel p q.

(* ================================================================== *)
(** * Further notions: the lexer *)

(** A string without its whitespace characters. *)
Fixpoint remove_spaces (s : string) : string :=
  match s with
  | EmptyString => EmptyString
  | String c s' =>
      if PyStr.isspace c then remove_spaces s' else String c (remove_spaces s')
  end.

(** The lexemes of a token list, one after the other. *)
Definition lexemes (tokens : list token) : string :=
  fold_right (fun (t : token) s => (snd t ++ s)%string) EmptyString tokens.

Fixpoint all_chars (p : ascii -> bool) (s : string) : bool :=
  match s with
  | EmptyString => true
  | String c s' => p c && all_chars p s'
  end.

(** What a token of each kind looks like when it comes from the lexer: a
    keyword of the set; a word that starts with a letter, is made of
    identifier characters and is no keyword; a non-empty run of digits; a
    registered symbol. *)
Definition well_formed (t : token) : Prop :=
  match fst t with
  | KEYWORD => In (snd t) Lexer.keywords
  | IDENTIFIER =>
      first_char_is PyStr.isalpha (snd t) = true
      /\ all_chars Lexer.ident_char (snd t) = true
      /\ mem (snd t) Lexer.keywords = false
  | NUMBER =>
      first_char_is PyStr.isdigit (snd t) = true
      /\ all_chars PyStr.isdigit (snd t) = true
  | SYMBOL => In (snd t) Lexer.symbols
  end.

(** The lexemes written one after the other, a blank after each. *)
Definition unlex (tokens : list token) : string :=
  fold_right (fun (t : token) s => (snd t ++ String " " s)%string)
             EmptyString tokens.

(** The tokens of one text followed by the tokens of another, or the first
    exception met. *)
Definition tokenize_both (a b : string) : outcome (list token) :=
  match Lexer.tokenize a with
  | Ok ta =>
      match Lexer.tokenize b with
      | Ok tb => Ok (ta ++ tb)
      | Raise e => Raise e
      | OutOfFuel => OutOfFuel
      end
  | Raise e => Raise e
  | OutOfFuel => OutOfFuel
  end.

(** No rule of the lexer applies to the character [c] followed by [rest]. *)
Definition no_rule_applies (c : ascii) (rest : string) : Prop :=
  PyStr.isspace c = false /\ PyStr.isalpha c = false
  /\ PyStr.isdigit c = false
  /\ forall sym, In sym Lexer.symbols ->
                 String.prefix sym (String c rest) = false.

(** [sym] is the longest registered symbol with which [rest] starts. *)
Definition longest_symbol (sym rest : string) : Prop :=
  In sym Lexer.symbols
  /\ String.prefix sym rest = true
  /\ forall sym', In sym' Lexer.symbols -> String.prefix sym' rest = true ->
                  String.length sym' <= String.length sym.

(* ================================================================== *)
(** * Further notions: printing syntax trees as tokens *)

Definition all_ops : list string :=
  Parser.multiplication_ops ++ Parser.addition_ops ++ Parser.comparison_ops.

(** The trees the parser can return: the operators are those of the three
    tiers, and a number literal is not negative (the grammar has no sign). *)
Fixpoint wf_expr (e : expr) : Prop :=
  match e with
  | Number value => (0 <= value)%Z
  | Var _ => True
  | BinaryOp op lhs rhs => mem op all_ops = true /\ wf_expr lhs /\ wf_expr rhs
  end.

(** How tightly an operator, a tier and an expression bind: 2 for [*] and
    [/], 1 for [+] and [-], 0 for the comparisons, 3 for a primary. *)
Definition op_level (op : string) : nat :=
  if mem op Parser.multiplication_ops then 2
  else if mem op Parser.addition_ops then 1
  else 0.

Definition tier_level (t : tier) : nat :=
  match t with
  | Multiplication => 2
  | Addition => 1
  | Comparison => 0
  end.

Definition op_tier (op : string) : tier :=
  if mem op Parser.multiplication_ops then Multiplication
  else if mem op Parser.addition_ops then Addition
  else Comparison.

Definition level (e : expr) : nat :=
  match e with
  | BinaryOp op _ _ => op_level op
  | _ => 3
  end.

Definition parens (ts : list token) : list token :=
  (SYMBOL, "(") :: ts ++ [(SYMBOL, ")")].

Definition wrap (b : bool) (ts : list token) : list token :=
  if b then parens ts else ts.

(** An expression written with the parentheses it needs and no more: a
    left operand is put in parentheses when it binds less tightly than the
    operator, a right operand when it does not bind more tightly. *)
Fixpoint expr_tokens (e : expr) : list token :=
  match e with
  | Number value => [(NUMBER, PyStr.str value)]
  | Var name => [(IDENTIFIER, name)]
  | BinaryOp op lhs rhs =>
      wrap (level lhs <? op_level op)%nat (expr_tokens lhs)
      ++ (SYMBOL, op)
      :: wrap (level rhs <=? op_level op)%nat (expr_tokens rhs)
  end.

Fixpoint size (e : expr) : nat :=
  match e with
  | BinaryOp _ lhs rhs => S (size lhs + size rhs)
  | _ => 1
  end.

(** The unread tokens do not start with an operator of a tier that binds
    more tightly than [k]; with an operator of any tier. *)
Definition stops_above (k : nat) (l : list token) : Prop :=
  forall t, k < tier_level t -> stops (tier_ops t) l.

Definition stops_all (l : list token) : Prop :=
  forall t, stops (tier_ops t) l.

(** A tier of the parser run on a printed expression that binds at least
    as tightly as the tier has read the expression and is back in its
    loop, with fuel left. *)
Definition parses_open (tokens : list token) (e : expr) : Prop :=
  forall t f pos post,
    tier_level t <= level e -> size e <= f ->
    skipn pos tokens = expr_tokens e ++ post ->
    stops_above (tier_level t) post ->
    exists fuel',
      S f <= fuel' + size e
      /\ tier_parser tokens (Parser.parse_expression tokens f) (S f) t pos
         = Parser.binary_loop tokens (tier_ops t)
             (tier_operand tokens (Parser.parse_expression tokens f) (S f) t)
             fuel' e (pos + List.length (expr_tokens e)).

Definition keyword (v : string) : token := (KEYWORD, v).
Definition symbol (v : string) : token := (SYMBOL, v).

(** A property of every element of a list, by recursion on the list. *)
Definition all_of {A} (P : A -> Prop) (l : list A) : Prop :=
  fold_right (fun a Q => P a /\ Q) True l.

(** A statement, a function and a program written as tokens, in the
    concrete syntax the parser reads; an [if] with an empty [else] block
    is written without [else]. *)
Fixpoint stmt_tokens (s : stmt) : list token :=
  match s with
  | Return e => keyword "return" :: expr_tokens e ++ [symbol ";"]
  | Declaration x => [keyword "int"; (IDENTIFIER, x); symbol ";"]
  | Assignment x e =>
      (IDENTIFIER, x) :: symbol "=" :: expr_tokens e ++ [symbol ";"]
  | If c t e =>
      keyword "if" :: symbol "(" :: expr_tokens c
      ++ symbol ")" :: symbol "{" :: flat_map stmt_tokens t
      ++ symbol "}"
      :: (if CodeGenerator.nonempty e
          then keyword "else" :: symbol "{" :: flat_map stmt_tokens e
               ++ [symbol "}"]
          else [])
  | While c b =>
      keyword "while" :: symbol "(" :: expr_tokens c
      ++ symbol ")" :: symbol "{" :: flat_map stmt_tokens b ++ [symbol "}"]
  end.

Definition func_tokens (f : func) : list token :=
  match f with
  | Func name body =>
      keyword "int" :: (IDENTIFIER, name) :: symbol "(" :: symbol ")"
      :: symbol "{" :: flat_map stmt_tokens body ++ [symbol "}"]
  end.

Definition program_tokens (p : program) : list token :=
  match p with
  | Program functions => flat_map func_tokens functions
  end.

(** A function of which the closing brace is missing. *)
Definition unclosed_tokens (name : string) (body : list stmt) : list token :=
  keyword "int" :: (IDENTIFIER, name) :: symbol "(" :: symbol ")"
  :: symbol "{" :: flat_map stmt_tokens body.

(** The statements the parser can return: their expressions are well
    formed, and an assigned name is neither the closing brace nor [else]
    (the loops of the blocks and the test for an [else] look at the lexeme
    only, not at the kind of the token). *)
Fixpoint wf_stmt (s : stmt) : Prop :=
  match s with
  | Return e => wf_expr e
  | Declaration _ => True
  | Assignment x e => mem x ["}"; "else"] = false /\ wf_expr e
  | If c t e => wf_expr c /\ all_of wf_stmt t /\ all_of wf_stmt e
  | While c b => wf_expr c /\ all_of wf_stmt b
  end.

Definition wf_func (f : func) : Prop :=
  match f with
  | Func _ body => all_of wf_stmt body
  end.

Definition wf_program (p : program) : Prop :=
  match p with
  | Program functions => all_of wf_func functions
  end.

(** [rec] reads the statement [s] wherever it is printed in [tokens]. *)
Definition reads (tokens : list token) (rec : Parser.parser stmt) (s : stmt)
  : Prop :=
  forall pos rest,
    skipn pos tokens = stmt_tokens s ++ rest ->
    stops ["else"] rest ->
    rec pos = Ok (s, pos + List.length (stmt_tokens s)).

(** The unread tokens are empty or start with a closing brace: the loop
    of a block stops there. *)
Definition closes (l : list token) : Prop :=
  match l with
  | [] => True
  | t :: _ => Parser.is_rbrace (snd t) = true
  end.

(* ================================================================== *)
(** * Further notions: the trees of source programs *)

(** The operators for which the code generator has a case. *)
Definition generated_ops : list string :=
  ["+"; "-"; "*"; "/"; "=="; "!="; "<"; ">"].

(** The trees that come from source text: a number literal is not
    negative, an operator is one of those the generator knows, a name is
    an identifier of the lexer. *)
Fixpoint source_expr (e : expr) : Prop :=
  match e with
  | Number value => (0 <= value)%Z
  | Var name => well_formed (IDENTIFIER, name)
  | BinaryOp op lhs rhs =>
      In op generated_ops /\ source_expr lhs /\ source_expr rhs
  end.

Fixpoint source_stmt (s : stmt) : Prop :=
  match s with
  | Return e => source_expr e
  | Declaration x => well_formed (IDENTIFIER, x)
  | Assignment x e => well_formed (IDENTIFIER, x) /\ source_expr e
  | If c t e => source_expr c /\ all_of source_stmt t /\ all_of source_stmt e
  | While c b => source_expr c /\ all_of source_stmt b
  end.

Definition source_func (f : func) : Prop :=
  match f with
  | Func name body => well_formed (IDENTIFIER, name) /\ all_of source_stmt body
  end.

Definition source_program (p : program) : Prop :=
  match p with
  | Program functions => all_of source_func functions
  end.

(** Every value that a parser method returns has the property [P]. *)
Definition yields {A} (P : A -> Prop) (m : Parser.parser A) : Prop :=
  forall pos a pos', m pos = Ok (a, pos') -> P a.

(* ================================================================== *)
(** * Further notions: the generated assembly *)

(** The lines [generate_function] appends for a function when the label
    counter is [c], and the number of labels it takes. *)
Definition function_lines (f : func) (c : nat) : list string :=
  match f with
  | Func name body =>
      [function_label name; "push %ebp"; "mov %esp, %ebp"]
      ++ frame_lines body
      ++ block_lines statement_lines body c
      ++ ["mov %ebp, %esp"; "pop %ebp"; "ret"; ""]
  end.

Definition function_labels_used (f : func) : nat :=
  match f with
  | Func _ body => list_sum (map labels_used body)
  end.

Fixpoint functions_lines (fs : list func) (c : nat) : list string :=
  match fs with
  | [] => []
  | f :: fs' => function_lines f c ++ functions_lines fs' (c + function_labels_used f)
  end.

(** The lines [generate] appends for a program when the label counter is
    [c]. *)
Definition program_lines (p : program) (c : nat) : list string :=
  match p with
  | Program functions =>
      [".section .text"; ".globl _start"; ""] ++ functions_lines functions c
  end.

Definition program_labels_used (p : program) : nat :=
  match p with
  | Program functions => list_sum (map function_labels_used functions)
  end.

(** The names declared by the statements of a body itself, in order, with
    their repetitions. *)
Definition top_declared (body : list stmt) : list string :=
  flat_map (fun s => match s with Declaration x => [x] | _ => [] end) body.

(** The frame reservation for [k] variables. *)
Definition reserve (k : nat) : list string :=
  match k with
  | O => []
  | S _ => [("sub $" ++ PyStr.str_nat (4 * k) ++ ", %esp")%string]
  end.

(** The depth of the stack after the lines of an assembly text, read from
    top to bottom, when it was [depth] before: a line that ends with a
    colon is a label, a [push] adds a word, a [pop] takes one and has none
    to take when the depth is zero. *)
Fixpoint stack_after (lines : list string) (depth : nat) : option nat :=
  match lines with
  | [] => Some depth
  | line :: rest =>
      if ends_with_colon line then stack_after rest depth
      else if String.prefix "push " line then stack_after rest (S depth)
      else if String.prefix "pop " line then
        match depth with
        | O => None
        | S depth' => stack_after rest depth'
        end
      else stack_after rest depth
  end.

(** The label a line jumps to, if the line is a jump. *)
Definition jump_target (line : string) : option string :=
  if ends_with_colon line then None
  else if String.prefix "je " line then Some (PyStr.skip 3 line)
  else if String.prefix "jmp " line then Some (PyStr.skip 4 line)
  else None.

(** Every jump among [lines] goes to a label that [whole] defines. *)
Definition targets_in (lines whole : list string) : Prop :=
  forall line target,
    In line lines -> jump_target line = Some target ->
    In (target ++ ":")%string whole.

Definition func_name (f : func) : string :=
  match f with
  | Func name _ => name
  end.

(* ================================================================== *)
(** * The scenarios of the specification, run on the model *)

Example scenario_A :
  Lexer.tokenize "int main() { int a; a = 10 + 5; return a; }" =
  Ok [(KEYWORD, "int"); (IDENTIFIER, "main"); (SYMBOL, "("); (SYMBOL, ")");
      (SYMBOL, "{"); (KEYWORD, "int"); (IDENTIFIER, "a"); (SYMBOL, ";");
      (IDENTIFIER, "a"); (SYMBOL, "="); (NUMBER, "10"); (SYMBOL, "+");
      (NUMBER, "5"); (SYMBOL, ";"); (KEYWORD, "return"); (IDENTIFIER, "a");
      (SYMBOL, ";"); (SYMBOL, "}")].
Proof. vm_compute. reflexivity. Qed.

Example sorted_symbols_value :
  Lexer.sorted_by_len Lexer.symbols =
  ["=="; "!="; "="; ";"; "("; ")"; "{"; "}"; "+"; "-"; "*"; "/"; "<"; ">"].
Proof. reflexivity. Qed.

Example scenario_B :
  parse_source "int main() { int a; a = 10 + 5; return a; }" =
  Ok (Program [Func "main"
        [Declaration "a";
         Assignment "a" (BinaryOp "+" (Number 10) (Number 5));
         Return (Var "a")]]).
Proof. vm_compute. reflexivity. Qed.

Example scenario_C :
  compile_lines
    "int main() { int a; a = 10 + 5; if (a == 15) { a = 20; } else { a = 30; } return a; }"
  = Ok [".section .text"; ".globl _start"; "";
        "_start:"; "push %ebp"; "mov %esp, %ebp"; "sub $4, %esp";
        "mov $5, %eax"; "push %eax"; "mov $10, %eax"; "pop %ecx";
        "add %ecx, %eax"; "mov %eax, -4(%ebp)";
        "mov $15, %eax"; "push %eax"; "mov -4(%ebp), %eax"; "pop %ecx";
        "cmp %ecx, %eax"; "sete %al"; "movzbl %al, %eax";
        "cmp $0, %eax"; "je L1";
        "mov $20, %eax"; "mov %eax, -4(%ebp)";
        "jmp L2"; "L1:";
        "mov $30, %eax"; "mov %eax, -4(%ebp)";
        "L2:";
        "mov -4(%ebp), %eax"; "mov %eax, %ebx"; "mov $1, %eax"; "int $0x80";
        "mov %ebp, %esp"; "pop %ebp"; "ret"; ""].
Proof. vm_compute. reflexivity. Qed.

(* ================================================================== *)
(** * The lexer: termination and the shape of the tokens *)

Lemma token_kind_eqb_eq a b : token_kind_eqb a b = true <-> a = b.
Proof. destruct a, b; simpl; split; congruence. Qed.

Lemma mem_In x xs : mem x xs = true <-> In x xs.
Proof.
  unfold mem. rewrite existsb_exists. split.
  - intros (y & Hy & E). apply String.eqb_eq in E. now subst.
  - intros H. exists x. split; [assumption | apply String.eqb_refl].
Qed.

Lemma span_length p s :
  String.length (fst (PyStr.span p s)) + String.length (snd (PyStr.span p s))
  = String.length s.
Proof.
  induction s as [|c s IH]; simpl; [reflexivity|].
  destruct (p c); simpl; [|reflexivity].
  destruct (PyStr.span p s); simpl in *. lia.
Qed.

Lemma span_head p c s :
  p c = true ->
  exists run, fst (PyStr.span p (String c s)) = String c run.
Proof.
  intros H. simpl. rewrite H. destruct (PyStr.span p s) as [run rest].
  now exists run.
Qed.

Lemma skip_length n s :
  String.length (PyStr.skip n s) = String.length s - n.
Proof.
  revert s; induction n as [|n IH]; intros [|c s]; simpl; auto.
Qed.

Lemma first_match_Some syms rest sym :
  Lexer.first_match syms rest = Some sym ->
  In sym syms /\ String.prefix sym rest = true.
Proof.
  induction syms as [|y syms IH]; simpl; [discriminate|].
  destruct (String.prefix y rest) eqn:E.
  - intros [= <-]. auto.
  - intros H. destruct (IH H). auto.
Qed.

Lemma sorted_symbols_In sym :
  In sym (Lexer.sorted_by_len Lexer.symbols) <-> In sym Lexer.symbols.
Proof. vm_compute. tauto. Qed.

Lemma isalpha_ident_char c : PyStr.isalpha c = true -> Lexer.ident_char c = true.
Proof.
  intros H. unfold Lexer.ident_char, PyStr.isalnum. now rewrite H.
Qed.

(** ** The iteration order of the symbol set

    [self.symbols] is a [set]: the order in which [sorted] meets symbols
    of equal length is not fixed by the program.  The symbol found at the
    cursor does not depend on it: any list of the same symbols, longest
    first, gives the same match as the list of the model. *)

Lemma prefix_same_length a b s :
  String.prefix a s = true -> String.prefix b s = true ->
  String.length a = String.length b -> a = b.
Proof.
  intros Ha Hb L. apply prefix_correct in Ha, Hb. rewrite L in Ha. congruence.
Qed.

Lemma first_match_None syms rest :
  Lexer.first_match syms rest = None ->
  forall sym, In sym syms -> String.prefix sym rest = false.
Proof.
  induction syms as [|y syms IH]; simpl; [intros _ sym []|].
  destruct (String.prefix y rest) eqn:E; [discriminate|].
  intros H sym [<-|Hin]; auto.
Qed.

Lemma first_match_longest syms rest sym :
  StronglySorted (fun a b => String.length b <= String.length a) syms ->
  Lexer.first_match syms rest = Some sym ->
  forall sym', In sym' syms -> String.prefix sym' rest = true ->
               String.length sym' <= String.length sym.
Proof.
  induction 1 as [|y syms S IH F]; simpl; [discriminate|].
  destruct (String.prefix y rest) eqn:E.
  - intros [= <-] sym' [<-|Hin] _; [lia|].
    rewrite Forall_forall in F. now apply F.
  - intros H sym' [<-|Hin] P; [congruence|]. now apply IH.
Qed.

Lemma first_match_order_irrelevant l l' rest :
  (forall sym, In sym l <-> In sym l') ->
  StronglySorted (fun a b => String.length b <= String.length a) l ->
  StronglySorted (fun a b => String.length b <= String.length a) l' ->
  Lexer.first_match l rest = Lexer.first_match l' rest.
Proof.
  intros Same S S'.
  destruct (Lexer.first_match l rest) as [m|] eqn:M;
    destruct (Lexer.first_match l' rest) as [m'|] eqn:M'; [| | |reflexivity].
  - destruct (first_match_Some _ _ _ M) as [I P].
    destruct (first_match_Some _ _ _ M') as [I' P'].
    f_equal. apply (prefix_same_length m m' rest P P').
    apply Nat.le_antisymm.
    + apply (first_match_longest l' rest m' S' M' m); [now apply Same | exact P].
    + apply (first_match_longest l rest m S M m'); [now apply Same | exact P'].
  - destruct (first_match_Some _ _ _ M) as [I P].
    apply Same in I. rewrite (first_match_None _ _ M' _ I) in P. discriminate P.
  - destruct (first_match_Some _ _ _ M') as [I' P'].
    apply Same in I'. rewrite (first_match_None _ _ M _ I') in P'. discriminate P'.
Qed.

Lemma sorted_symbols_sorted :
  StronglySorted (fun a b => String.length b <= String.length a)
                 (Lexer.sorted_by_len Lexer.symbols).
Proof.
  change (Lexer.sorted_by_len Lexer.symbols)
    with ["=="; "!="; "="; ";"; "("; ")"; "{"; "}"; "+"; "-"; "*"; "/"; "<"; ">"].
  repeat (constructor; [|repeat constructor; simpl; lia]). constructor.
Qed.

(** Whatever order the set is iterated in, [sorted(..., key=len,
    reverse=True)] yields a list [l] of the registered symbols, longest
    first; the symbol matched at the cursor is the one of the model. *)
Lemma symbol_match_independent_of_set_order l rest :
  (forall sym, In sym l <-> In sym Lexer.symbols) ->
  StronglySorted (fun a b => String.length b <= String.length a) l ->
  Lexer.first_match l rest
  = Lexer.first_match (Lexer.sorted_by_len Lexer.symbols) rest.
Proof.
  intros Same S. apply first_match_order_irrelevant;
    [|exact S|exact sorted_symbols_sorted].
  intros sym. rewrite Same. symmetry. apply sorted_symbols_In.
Qed.

(** Every iteration that continues has moved the cursor forward. *)
Lemma tokenize_step_progress c rest tokens rest' tokens' :
  Lexer.tokenize_step c rest tokens = Lexer.Continue rest' tokens' ->
  String.length rest' <= String.length rest.
Proof.
  unfold Lexer.tokenize_step.
  destruct (PyStr.isspace c); [intros [= <- _]; lia|].
  destruct (PyStr.isalpha c) eqn:Ha.
  { pose proof (span_length Lexer.ident_char (String c rest)) as L.
    destruct (span_head Lexer.ident_char c rest (isalpha_ident_char c Ha)) as [run R].
    destruct (PyStr.span Lexer.ident_char (String c rest)) as [w r].
    simpl in L, R. subst w. simpl in L.
    destruct (mem _ _); intros [= <- _]; lia. }
  destruct (PyStr.isdigit c) eqn:Hd.
  { pose proof (span_length PyStr.isdigit (String c rest)) as L.
    destruct (span_head PyStr.isdigit c rest Hd) as [run R].
    destruct (PyStr.span PyStr.isdigit (String c rest)) as [w r].
    simpl in L, R. subst w. simpl in L.
    intros [= <- _]; lia. }
  destruct (Lexer.first_match _ _) as [sym|] eqn:Hm; [|discriminate].
  intros [= <- _]. rewrite skip_length.
  apply first_match_Some in Hm. destruct Hm as [Hin _].
  apply sorted_symbols_In in Hin.
  assert (1 <= String.length sym).
  { unfold Lexer.symbols in Hin. simpl in Hin.
    repeat (destruct Hin as [<-|Hin]; [simpl; lia|]). contradiction. }
  change (String.length (String c rest)) with (S (String.length rest)). lia.
Qed.

Lemma tokenize_loop_fuel fuel rest tokens :
  String.length rest < fuel ->
  Lexer.tokenize_loop fuel rest tokens <> OutOfFuel.
Proof.
  revert rest tokens. induction fuel as [|fuel IH]; intros rest tokens H; [lia|].
  destruct rest as [|c rest]; simpl; [discriminate|].
  destruct (Lexer.tokenize_step c rest tokens) as [r t|e] eqn:E; [|discriminate].
  apply IH. apply tokenize_step_progress in E. simpl in H. lia.
Qed.

(** [tokenize] always returns or raises: the loop never exhausts the
    iterations it is given. *)
Lemma tokenize_terminates code : Lexer.tokenize code <> OutOfFuel.
Proof. apply tokenize_loop_fuel. lia. Qed.

(** More fuel does not change a result. *)
Lemma tokenize_loop_more fuel fuel' rest tokens :
  fuel <= fuel' ->
  Lexer.tokenize_loop fuel rest tokens <> OutOfFuel ->
  Lexer.tokenize_loop fuel' rest tokens = Lexer.tokenize_loop fuel rest tokens.
Proof.
  revert fuel' rest tokens.
  induction fuel as [|fuel IH]; intros fuel' rest tokens Hle H; [now elim H|].
  destruct fuel' as [|fuel']; [lia|].
  destruct rest as [|c rest]; simpl in *; [reflexivity|].
  destruct (Lexer.tokenize_step c rest tokens) as [r t|e]; [|reflexivity].
  apply IH; [lia | assumption].
Qed.

Lemma tokenize_step_lexed c rest tokens rest' tokens' :
  Forall lexed tokens ->
  Lexer.tokenize_step c rest tokens = Lexer.Continue rest' tokens' ->
  Forall lexed tokens'.
Proof.
  intros Htok. unfold Lexer.tokenize_step.
  destruct (PyStr.isspace c); [now intros [= _ <-]|].
  destruct (PyStr.isalpha c) eqn:Ha.
  { destruct (span_head Lexer.ident_char c rest (isalpha_ident_char c Ha)) as [run R].
    destruct (PyStr.span Lexer.ident_char (String c rest)) as [w r].
    simpl in R. subst w.
    destruct (mem _ _) eqn:Hk; intros [= _ <-]; apply Forall_app; split; auto;
      constructor; auto; unfold lexed; cbn [fst snd];
      solve [now apply mem_In | exact Ha]. }
  destruct (PyStr.isdigit c) eqn:Hd.
  { destruct (span_head PyStr.isdigit c rest Hd) as [run R].
    destruct (PyStr.span PyStr.isdigit (String c rest)) as [w r].
    simpl in R. subst w.
    intros [= _ <-]; apply Forall_app; split; auto. }
  destruct (Lexer.first_match _ _) as [sym|] eqn:Hm; [|discriminate].
  intros [= _ <-]. apply Forall_app; split; auto. constructor; auto.
  apply first_match_Some in Hm. destruct Hm as [Hin _].
  now apply sorted_symbols_In in Hin.
Qed.

Lemma tokenize_loop_lexed fuel rest tokens result :
  Forall lexed tokens ->
  Lexer.tokenize_loop fuel rest tokens = Ok result ->
  Forall lexed result.
Proof.
  revert rest tokens. induction fuel as [|fuel IH]; intros rest tokens Htok; [discriminate|].
  destruct rest as [|c rest]; simpl; [now intros [= <-]|].
  destruct (Lexer.tokenize_step c rest tokens) as [r t|e] eqn:E; [|discriminate].
  apply IH. eapply tokenize_step_lexed; eauto.
Qed.

Lemma tokenize_lexed source tokens :
  Lexer.tokenize source = Ok tokens -> Forall lexed tokens.
Proof. apply tokenize_loop_lexed. constructor. Qed.

(** No token of the lexer spells [<=] or [>=], whatever its kind. *)
Lemma lexed_not_le_ge t :
  lexed t -> String.eqb (snd t) "<=" = false /\ String.eqb (snd t) ">=" = false.
Proof.
  destruct t as [k v]. unfold lexed. simpl.
  assert (D : forall w, v <> w -> String.eqb v w = false)
    by (intros w; apply String.eqb_neq).
  destruct k; intros H; split; apply D; intros ->;
    solve [ discriminate H
          | simpl in H; repeat (destruct H as [H|H]; [discriminate H|]); exact H ].
Qed.

(** C4.  Every SYMBOL token that [tokenize] returns carries a lexeme of the
    registered symbol set; no token at all spells [<=] or [>=]; hence on a
    token sequence that comes from the lexer the loop test of
    [parse_comparison] never holds because of its [<=] and [>=]
    alternatives: at every cursor position it has the value of the test
    restricted to [==], [!=], [<], [>]. *)
Theorem C4_symbol_lexemes_registered :
  forall source tokens,
    Lexer.tokenize source = Ok tokens ->
    (forall lexeme, In (SYMBOL, lexeme) tokens -> In lexeme Lexer.symbols)
    /\ (forall kind, ~ In (kind, "<=") tokens /\ ~ In (kind, ">=") tokens)
    /\ (forall pos,
          Parser.at_lexeme tokens (fun v => mem v Parser.comparison_ops) pos
          = Parser.at_lexeme tokens (fun v => mem v generated_comparison_ops) pos).
Proof.
  intros source tokens H. apply tokenize_lexed in H.
  rewrite Forall_forall in H. repeat split.
  - intros lexeme Hin. exact (H _ Hin).
  - intros Hin. apply H, lexed_not_le_ge in Hin. simpl in Hin.
    destruct Hin as [Hin _]. discriminate Hin.
  - intros Hin. apply H, lexed_not_le_ge in Hin. simpl in Hin.
    destruct Hin as [_ Hin]. discriminate Hin.
  - intros pos. unfold Parser.at_lexeme, Parser.bind, Parser.current_token.
    destruct (nth_error tokens pos) as [t|] eqn:E; [|reflexivity].
    apply nth_error_In, H, lexed_not_le_ge in E. destruct E as [E1 E2].
    unfold Parser.ret, mem, Parser.comparison_ops, generated_comparison_ops.
    simpl. rewrite E1, E2. reflexivity.
Qed.

Lemma C4_witness :
  Lexer.tokenize "a <= b" =
    Ok [(IDENTIFIER, "a"); (SYMBOL, "<"); (SYMBOL, "="); (IDENTIFIER, "b")]
  /\ forall lexeme,
       In (SYMBOL, lexeme)
          [(IDENTIFIER, "a"); (SYMBOL, "<"); (SYMBOL, "="); (IDENTIFIER, "b")] ->
       In lexeme Lexer.symbols.
Proof.
  split; [vm_compute; reflexivity|].
  apply (C4_symbol_lexemes_registered "a <= b"). vm_compute. reflexivity.
Defined.

(* ================================================================== *)
(** * The lexer: the unknown-character error *)

(** The character classes on which the lexer branches exclude each other
    as the branches assume. *)
Lemma char_classes c :
  (PyStr.isspace c
   && (Lexer.ident_char c || PyStr.isdigit c || PyStr.isalpha c
       || Ascii.eqb c "=")) = false
  /\ (PyStr.isdigit c && PyStr.isalpha c) = false
  /\ (PyStr.isalpha c && negb (Lexer.ident_char c)) = false
  /\ (PyStr.isdigit c && negb (Lexer.ident_char c)) = false.
Proof.
  destruct c as [[] [] [] [] [] [] [] []]; vm_compute; repeat split.
Qed.

Lemma space_not_ident c : PyStr.isspace c = true -> Lexer.ident_char c = false.
Proof.
  intros H. destruct (char_classes c) as [C _]. rewrite H in C.
  destruct (Lexer.ident_char c); [discriminate C | reflexivity].
Qed.

Lemma space_not_digit c : PyStr.isspace c = true -> PyStr.isdigit c = false.
Proof.
  intros H. destruct (char_classes c) as [C _]. rewrite H in C.
  destruct (PyStr.isdigit c); [|reflexivity].
  rewrite orb_true_r in C. discriminate C.
Qed.

Lemma space_not_eq c : PyStr.isspace c = true -> "="%char <> c.
Proof. intros H <-. vm_compute in H. discriminate H. Qed.

Lemma ident_not_space c : Lexer.ident_char c = true -> PyStr.isspace c = false.
Proof.
  intros H. destruct (char_classes c) as [C _]. rewrite H in C.
  destruct (PyStr.isspace c); [discriminate C | reflexivity].
Qed.

Lemma digit_ident c : PyStr.isdigit c = true -> Lexer.ident_char c = true.
Proof.
  intros H. destruct (char_classes c) as (_ & _ & _ & C). rewrite H in C.
  destruct (Lexer.ident_char c); [reflexivity | discriminate C].
Qed.

Lemma digit_not_alpha c : PyStr.isdigit c = true -> PyStr.isalpha c = false.
Proof.
  intros H. destruct (char_classes c) as (_ & C & _). rewrite H in C.
  destruct (PyStr.isalpha c); [discriminate C | reflexivity].
Qed.

Lemma span_spec p s :
  s = (fst (PyStr.span p s) ++ snd (PyStr.span p s))%string
  /\ all_chars p (fst (PyStr.span p s)) = true.
Proof.
  induction s as [|c s [IH1 IH2]]; simpl; [auto|].
  destruct (p c) eqn:E; [|auto].
  destruct (PyStr.span p s) as [run rest]. cbn [fst snd] in *.
  cbn [all_chars append]. rewrite E, IH2. split; [now f_equal | reflexivity].
Qed.

Lemma span_all p w d rest :
  all_chars p w = true -> p d = false ->
  PyStr.span p (w ++ String d rest)%string = (w, String d rest).
Proof.
  intros A D. induction w as [|c w IH]; simpl in *.
  - now rewrite D.
  - apply andb_prop in A. destruct A as [-> A]. now rewrite (IH A).
Qed.

Lemma prefix_skip sym s :
  String.prefix sym s = true -> s = (sym ++ PyStr.skip (String.length sym) s)%string.
Proof.
  revert s. induction sym as [|x sym IH]; intros s H; [reflexivity|].
  destruct s as [|d s]; simpl in *; [discriminate|].
  destruct (ascii_dec x d) as [->|]; [|discriminate].
  f_equal. now apply IH.
Qed.

Lemma tokenize_step_consumes c rest tokens rest' tokens' :
  Lexer.tokenize_step c rest tokens = Lexer.Continue rest' tokens' ->
  exists consumed, String c rest = (consumed ++ rest')%string.
Proof.
  unfold Lexer.tokenize_step.
  destruct (PyStr.isspace c).
  { intros [= <- <-]. now exists (String c EmptyString). }
  destruct (PyStr.isalpha c).
  { destruct (span_spec Lexer.ident_char (String c rest)) as [E _].
    destruct (PyStr.span Lexer.ident_char (String c rest)) as [w r].
    cbn [fst snd] in E.
    destruct (mem w Lexer.keywords); intros [= <- <-]; now exists w. }
  destruct (PyStr.isdigit c).
  { destruct (span_spec PyStr.isdigit (String c rest)) as [E _].
    destruct (PyStr.span PyStr.isdigit (String c rest)) as [w r].
    cbn [fst snd] in E. intros [= <- <-]. now exists w. }
  destruct (Lexer.first_match _ _) as [sym|] eqn:M; [|discriminate].
  intros [= <- <-]. apply first_match_Some in M. destruct M as [_ P].
  exists sym. now apply prefix_skip.
Qed.

Lemma span_app p s c rest :
  p c = false ->
  PyStr.span p (s ++ String c rest)%string
  = (fst (PyStr.span p s), (snd (PyStr.span p s) ++ String c rest)%string).
Proof.
  intros Hc. induction s as [|d s IH]; simpl.
  - now rewrite Hc.
  - destruct (p d); [|reflexivity].
    rewrite IH. now destruct (PyStr.span p s).
Qed.

Lemma skip_app sym s t :
  String.prefix sym s = true ->
  PyStr.skip (String.length sym) (s ++ t)%string
  = (PyStr.skip (String.length sym) s ++ t)%string.
Proof.
  revert s. induction sym as [|x sym IH]; intros s H; [reflexivity|].
  destruct s as [|d s]; simpl in *; [discriminate|].
  destruct (ascii_dec x d); [now apply IH | discriminate].
Qed.

Lemma unlexable_not_symbol_start c sym :
  unlexable c = true -> In sym Lexer.symbols ->
  String.prefix sym (String c EmptyString) = false
  /\ forall rest, String.prefix sym (String c rest) = false.
Proof.
  intros U Hin.
  assert (S : starts_symbol c = false).
  { unfold unlexable in U. destruct (starts_symbol c); [|reflexivity].
    rewrite !andb_false_r in U. discriminate U. }
  assert (F : first_char_is (Ascii.eqb c) sym = false).
  { unfold starts_symbol in S.
    destruct (first_char_is (Ascii.eqb c) sym) eqn:E; [|reflexivity].
    assert (X : existsb (first_char_is (Ascii.eqb c)) Lexer.symbols = true)
      by (apply existsb_exists; eauto).
    congruence. }
  assert (N : sym <> EmptyString).
  { intros ->. simpl in Hin.
    repeat (destruct Hin as [Hin|Hin]; [discriminate Hin|]). exact Hin. }
  destruct sym as [|x sym]; [now elim N|]. simpl in F.
  assert (x <> c) by (intros ->; now rewrite Ascii.eqb_refl in F).
  split; [|intros rest]; simpl; destruct (ascii_dec x c); congruence.
Qed.

Lemma first_match_unlexable c rest :
  unlexable c = true ->
  Lexer.first_match (Lexer.sorted_by_len Lexer.symbols) (String c rest) = None.
Proof.
  intros U.
  assert (G : forall syms, (forall sym, In sym syms -> In sym Lexer.symbols) ->
                           Lexer.first_match syms (String c rest) = None).
  { induction syms as [|sym syms IH]; intros Hs; [reflexivity|].
    cbn [Lexer.first_match].
    destruct (unlexable_not_symbol_start c sym U (Hs sym (or_introl eq_refl)))
      as [_ E].
    rewrite E. apply IH. intros s' Hin. apply Hs. now right. }
  apply G. intros sym. apply sorted_symbols_In.
Qed.

(** A character that starts no symbol does not complete one either: the
    choice of the symbol at the cursor is the same with that character
    appended to the input. *)
Lemma first_match_app d pre c rest :
  unlexable c = true ->
  Lexer.first_match (Lexer.sorted_by_len Lexer.symbols)
                    (String d pre ++ String c rest)%string
  = Lexer.first_match (Lexer.sorted_by_len Lexer.symbols) (String d pre).
Proof.
  intros U.
  assert (E : "="%char <> c).
  { intros <-. vm_compute in U. discriminate U. }
  change (Lexer.sorted_by_len Lexer.symbols)
    with ["=="; "!="; "="; ";"; "("; ")"; "{"; "}"; "+"; "-"; "*"; "/"; "<"; ">"].
  assert (P : forall s, String.prefix "" s = true) by now intros [|? ?].
  destruct pre as [|e pre]; cbn -[ascii_dec]; rewrite ?P;
    repeat match goal with
           | |- context [ascii_dec ?a ?b] => destruct (ascii_dec a b)
           end; congruence.
Qed.

Lemma tokenize_step_app d pre tokens c rest r t :
  unlexable c = true -> Lexer.ident_char c = false ->
  Lexer.tokenize_step d pre tokens = Lexer.Continue r t ->
  Lexer.tokenize_step d (pre ++ String c rest)%string tokens
  = Lexer.Continue (r ++ String c rest)%string t.
Proof.
  intros U I. unfold Lexer.tokenize_step.
  assert (D : PyStr.isdigit c = false).
  { unfold unlexable in U. destruct (PyStr.isdigit c); [|reflexivity].
    rewrite !andb_false_r in U. discriminate U. }
  destruct (PyStr.isspace d); [now intros [= <- <-]|].
  change (String d (pre ++ String c rest)%string)
    with (String d pre ++ String c rest)%string.
  destruct (PyStr.isalpha d).
  { rewrite (span_app _ _ _ _ I).
    destruct (PyStr.span Lexer.ident_char (String d pre)) as [w r']. cbn [fst snd].
    destruct (mem w Lexer.keywords); now intros [= <- <-]. }
  destruct (PyStr.isdigit d).
  { rewrite (span_app _ _ _ _ D).
    destruct (PyStr.span PyStr.isdigit (String d pre)) as [w r']. cbn [fst snd].
    now intros [= <- <-]. }
  rewrite (first_match_app _ _ _ _ U).
  destruct (Lexer.first_match _ (String d pre)) as [sym|] eqn:M; [|discriminate].
  intros [= <- <-]. apply first_match_Some in M. destruct M as [_ M].
  now rewrite (skip_app _ _ _ M).
Qed.

Lemma tokenize_loop_app fuel pre tokens result c rest :
  unlexable c = true -> Lexer.ident_char c = false ->
  Lexer.tokenize_loop fuel pre tokens = Ok result ->
  Lexer.tokenize_loop fuel (pre ++ String c rest)%string tokens
  = Raise (UnknownChar c).
Proof.
  intros U I. revert pre tokens.
  induction fuel as [|fuel IH]; intros pre tokens H; [discriminate H|].
  destruct pre as [|d pre]; cbn [Lexer.tokenize_loop append] in *.
  - unfold Lexer.tokenize_step.
    rewrite (first_match_unlexable c rest U).
    unfold unlexable in U.
    destruct (PyStr.isspace c); [discriminate U|].
    destruct (PyStr.isalpha c); [discriminate U|].
    destruct (PyStr.isdigit c); [discriminate U|].
    reflexivity.
  - destruct (Lexer.tokenize_step d pre tokens) as [r t|e] eqn:E; [|discriminate H].
    rewrite (tokenize_step_app _ _ _ _ rest _ _ U I E). now apply IH.
Qed.

Lemma length_app s t :
  String.length (s ++ t)%string = String.length s + String.length t.
Proof. induction s as [|c s IH]; simpl; congruence. Qed.

Lemma append_assoc_string (a b c : string) :
  ((a ++ b) ++ c)%string = (a ++ (b ++ c))%string.
Proof. induction a; simpl; congruence. Qed.

Lemma append_nil_r (s : string) : (s ++ "")%string = s.
Proof. induction s as [|c s IH]; simpl; [reflexivity | now rewrite IH]. Qed.

Lemma span_app_more p s w e r x :
  PyStr.span p s = (w, String e r) ->
  PyStr.span p (s ++ x)%string = (w, (String e r ++ x)%string).
Proof.
  revert w. induction s as [|d s IH]; intros w; simpl; [discriminate|].
  destruct (p d) eqn:D.
  - destruct (PyStr.span p s) as [w' r'] eqn:E. intros [= <- ->].
    now rewrite (IH w' eq_refl).
  - intros H. injection H as H1 H2 H3. subst. reflexivity.
Qed.

Lemma last_char_is_app p a b :
  b <> EmptyString -> last_char_is p (a ++ b)%string = last_char_is p b.
Proof.
  intros N. induction a as [|c a IH]; [reflexivity|].
  cbn [append last_char_is]. rewrite IH.
  destruct (a ++ b)%string eqn:E; [|reflexivity].
  destruct a; [now elim N | discriminate E].
Qed.

Lemma last_char_is_all p q s :
  (forall c, p c = true -> q c = true) ->
  all_chars p s = true -> s <> EmptyString -> last_char_is q s = true.
Proof.
  intros I. induction s as [|c s IH]; intros A N; [now elim N|].
  cbn [all_chars] in A. apply andb_prop in A. destruct A as [Hc A].
  destruct s as [|d s]; [now apply I|].
  change (last_char_is q (String c (String d s)))
    with (last_char_is q (String d s)).
  apply IH; [exact A | discriminate].
Qed.

(** One iteration of the lexer is the same when a character that has no
    rule is put after the text, unless the iteration scans a word up to
    the end of the text and the character continues that word. *)
Lemma tokenize_step_before d pre tokens c rest r t :
  unlexable c = true ->
  Lexer.tokenize_step d pre tokens = Lexer.Continue r t ->
  (Lexer.ident_char c = true -> r = EmptyString ->
   after_word (String d pre) t = false) ->
  Lexer.tokenize_step d (pre ++ String c rest)%string tokens
  = Lexer.Continue (r ++ String c rest)%string t.
Proof.
  intros U E W.
  destruct (Lexer.ident_char c) eqn:I;
    [|now apply (tokenize_step_app _ _ _ _ rest _ _ U I)].
  revert E W. unfold Lexer.tokenize_step.
  assert (D : PyStr.isdigit c = false).
  { unfold unlexable in U. destruct (PyStr.isdigit c); [|reflexivity].
    rewrite !andb_false_r in U. discriminate U. }
  destruct (PyStr.isspace d); [now intros [= <- <-]|].
  change (String d (pre ++ String c rest)%string)
    with (String d pre ++ String c rest)%string.
  destruct (PyStr.isalpha d).
  { destruct (span_spec Lexer.ident_char (String d pre)) as [S A].
    destruct (PyStr.span Lexer.ident_char (String d pre)) as [w r'] eqn:Sp.
    cbn [fst snd] in S, A.
    assert (Word : forall k, r' = EmptyString ->
                             after_word (String d pre) (tokens ++ [(k, w)])
                             = is_word (k, w)).
    { intros k ->. unfold after_word. rewrite last_last.
      rewrite append_nil_r in S. rewrite S in *.
      rewrite (last_char_is_all Lexer.ident_char _ w); [reflexivity| |exact A|].
      - intros x Hx. now rewrite (ident_not_space x Hx).
      - rewrite <- S. discriminate. }
    destruct r' as [|e r'].
    - destruct (mem w Lexer.keywords); intros [= <- <-] W;
        specialize (W eq_refl eq_refl); rewrite (Word _ eq_refl) in W;
        discriminate W.
    - rewrite (span_app_more _ _ _ _ _ (String c rest) Sp).
      destruct (mem w Lexer.keywords); now intros [= <- <-]. }
  destruct (PyStr.isdigit d).
  { rewrite (span_app _ _ _ _ D).
    destruct (PyStr.span PyStr.isdigit (String d pre)) as [w r']. cbn [fst snd].
    now intros [= <- <-]. }
  rewrite (first_match_app _ _ _ _ U).
  destruct (Lexer.first_match _ (String d pre)) as [sym|] eqn:M; [|discriminate].
  intros [= <- <-] _. apply first_match_Some in M. destruct M as [_ M].
  now rewrite (skip_app _ _ _ M).
Qed.

Lemma tokenize_loop_before fuel pre tokens result c rest :
  unlexable c = true ->
  Lexer.tokenize_loop fuel pre tokens = Ok result ->
  (Lexer.ident_char c = true -> after_word pre result = false) ->
  Lexer.tokenize_loop fuel (pre ++ String c rest)%string tokens
  = Raise (UnknownChar c).
Proof.
  intros U. revert pre tokens.
  induction fuel as [|fuel IH]; intros pre tokens H W; [discriminate H|].
  destruct pre as [|d pre]; cbn [Lexer.tokenize_loop append] in *.
  - unfold Lexer.tokenize_step.
    rewrite (first_match_unlexable c rest U).
    unfold unlexable in U.
    destruct (PyStr.isspace c); [discriminate U|].
    destruct (PyStr.isalpha c); [discriminate U|].
    destruct (PyStr.isdigit c); [discriminate U|].
    reflexivity.
  - destruct (Lexer.tokenize_step d pre tokens) as [r t|e] eqn:E; [|discriminate H].
    rewrite (tokenize_step_before _ _ _ _ rest _ _ U E).
    + apply (IH _ _ H). intros I. specialize (W I).
      destruct r as [|x r]; [reflexivity|].
      destruct (tokenize_step_consumes _ _ _ _ _ E) as [consumed C].
      unfold after_word in *. rewrite C in W.
      now rewrite last_char_is_app in W by discriminate.
    + intros I ->. destruct fuel as [|fuel]; [discriminate H|].
      cbn [Lexer.tokenize_loop] in H. injection H as <-. now apply W.
Qed.

(** C2 (amended).  When the lexer has tokenized the input before a
    character [c], [c] is neither whitespace, a letter, a digit nor the
    start of a registered symbol, and [c] does not continue a word that
    ends right before it (either [c] is no alphanumeric character and no
    underscore, or the text before it does not end with an identifier or a
    keyword), [tokenize] raises the unknown-character exception, whose
    message names [c] and nothing else: the exception is the same whatever
    precedes and follows [c], so it carries no offset.  The underscore at
    the start of a token and after a number is such a character. *)
Theorem C2_unknown_character_error :
  forall pre c rest tokens,
    Lexer.tokenize pre = Ok tokens ->
    unlexable c = true ->
    (Lexer.ident_char c = true -> after_word pre tokens = false) ->
    Lexer.tokenize (pre ++ String c rest)%string = Raise (UnknownChar c).
Proof.
  intros pre c rest tokens H U W. unfold Lexer.tokenize in *.
  pose proof (tokenize_loop_before _ _ _ _ c rest U H W) as R.
  rewrite <- R. apply tokenize_loop_more.
  - rewrite length_app. lia.
  - rewrite R. discriminate.
Qed.

Lemma C2_witness :
  (Lexer.tokenize "int x = " = Ok [(KEYWORD, "int"); (IDENTIFIER, "x"); (SYMBOL, "=")]
   /\ Lexer.tokenize ("int x = " ++ String "@" "1;")%string = Raise (UnknownChar "@"))
  /\ (Lexer.tokenize "x = " = Ok [(IDENTIFIER, "x"); (SYMBOL, "=")]
      /\ Lexer.tokenize ("x = " ++ String "_" "y;")%string = Raise (UnknownChar "_"))
  /\ (Lexer.tokenize "1" = Ok [(NUMBER, "1")]
      /\ Lexer.tokenize ("1" ++ String "_" "")%string = Raise (UnknownChar "_"))
  /\ (Lexer.tokenize "a" = Ok [(IDENTIFIER, "a")]
      /\ Lexer.tokenize ("a" ++ String "@" "")%string = Raise (UnknownChar "@")).
Proof.
  split; [split; [vm_compute; reflexivity|]|
          split; [split; [vm_compute; reflexivity|]|
                  split; (split; [vm_compute; reflexivity|])]].
  - apply (C2_unknown_character_error "int x = " "@" "1;"
             [(KEYWORD, "int"); (IDENTIFIER, "x"); (SYMBOL, "=")]);
      vm_compute; congruence.
  - apply (C2_unknown_character_error "x = " "_" "y;"
             [(IDENTIFIER, "x"); (SYMBOL, "=")]);
      vm_compute; congruence.
  - apply (C2_unknown_character_error "1" "_" "" [(NUMBER, "1")]);
      vm_compute; congruence.
  - apply (C2_unknown_character_error "a" "@" "" [(IDENTIFIER, "a")]);
      vm_compute; congruence.
Defined.

(** C2 as stated fails.  The exception raised for [@] at offset 0 and the
    one raised for [@] at offset 1 are the same value, so no offset can be
    read from it; and an underscore, which is neither whitespace, letter,
    digit nor symbol start, is accepted inside an identifier. *)
Lemma C2_counterexample :
  Lexer.tokenize "@" = Raise (UnknownChar "@")
  /\ Lexer.tokenize " @" = Raise (UnknownChar "@")
  /\ (unlexable "_" = true /\ Lexer.tokenize "a_" = Ok [(IDENTIFIER, "a_")])
  /\ ~ error_reports_offset.
Proof.
  repeat split; try (vm_compute; reflexivity).
  intros [offset_of H].
  destruct (H "@" 0 "@"%char) as [_ H0];
    [reflexivity | vm_compute; reflexivity | intros q d Hq; lia |].
  destruct (H " @" 1 "@"%char) as [_ H1];
    [reflexivity | vm_compute; reflexivity | |].
  - intros q d Hq. assert (q = 0) by lia. subst q.
    simpl. intros [= <-]. vm_compute. reflexivity.
  - congruence.
Qed.

(* ================================================================== *)
(** * The code generator *)

Import CodeGenerator.

Lemma code_emit line g : code (emit line g) = code g ++ [line].
Proof. reflexivity. Qed.

Lemma label_counter_emit line g : label_counter (emit line g) = label_counter g.
Proof. reflexivity. Qed.

Lemma emit_all_app l1 l2 g : emit_all (l1 ++ l2) g = emit_all l2 (emit_all l1 g).
Proof. unfold emit_all. apply fold_left_app. Qed.

Lemma emit_all_cons line l g : emit_all (line :: l) g = emit_all l (emit line g).
Proof. reflexivity. Qed.

Lemma code_emit_all lines g : code (emit_all lines g) = code g ++ lines.
Proof.
  revert g. induction lines as [|line lines IH]; intros g.
  - simpl. now rewrite app_nil_r.
  - rewrite emit_all_cons, IH, code_emit, <- app_assoc. reflexivity.
Qed.

Lemma label_counter_emit_all lines g :
  label_counter (emit_all lines g) = label_counter g.
Proof.
  revert g. induction lines as [|line lines IH]; intros g; [reflexivity|].
  rewrite emit_all_cons, IH. reflexivity.
Qed.

(** [generate_expression] only appends lines, and the lines depend on the
    expression alone. *)
Lemma generate_expression_lines e g :
  generate_expression e g = emit_all (expression_lines e) g.
Proof.
  revert g. induction e as [v|x|op lhs IHl rhs IHr]; intros g; try reflexivity.
  cbn [generate_expression expression_lines].
  rewrite IHr, IHl. rewrite !emit_all_app. reflexivity.
Qed.

Lemma code_generate_expression e g :
  code (generate_expression e g) = code g ++ expression_lines e.
Proof. now rewrite generate_expression_lines, code_emit_all. Qed.

Lemma label_counter_generate_expression e g :
  label_counter (generate_expression e g) = label_counter g.
Proof. now rewrite generate_expression_lines, label_counter_emit_all. Qed.

Lemma operator_lines_cases op :
  In (operator_lines op)
     [ ["add %ecx, %eax"]; ["sub %ecx, %eax"]; ["imul %ecx, %eax"];
       ["cdq"; "idiv %ecx"];
       ["cmp %ecx, %eax"; "sete %al"; "movzbl %al, %eax"];
       ["cmp %ecx, %eax"; "setne %al"; "movzbl %al, %eax"];
       ["cmp %ecx, %eax"; "setl %al"; "movzbl %al, %eax"];
       ["cmp %ecx, %eax"; "setg %al"; "movzbl %al, %eax"];
       [] ].
Proof.
  unfold operator_lines.
  repeat match goal with
         | |- context [String.eqb ?a ?b] => destruct (String.eqb a b)
         end; simpl; tauto.
Qed.

Lemma operator_lines_no_ret op : ~ In "ret" (operator_lines op).
Proof.
  intros H. pose proof (operator_lines_cases op) as C. simpl in C.
  repeat (destruct C as [C|C];
          [rewrite <- C in H; simpl in H;
           repeat (destruct H as [H|H]; [discriminate H|]); exact H|]).
  exact C.
Qed.

(** No line of an expression's code is the [ret] instruction. *)
Lemma expression_lines_no_ret e : ~ In "ret" (expression_lines e).
Proof.
  induction e as [v|x|op lhs IHl rhs IHr]; cbn [expression_lines].
  - intros [H|[]]. discriminate H.
  - intros [H|[]]. discriminate H.
  - rewrite !in_app_iff. cbn [In].
    pose proof (operator_lines_no_ret op).
    intros H'. decompose [or] H'; try discriminate; auto.
Qed.

(** C8.  For every statement [Return e] the generator appends the code of
    the expression [e] and then exactly the three lines
    [mov %eax, %ebx], [mov $1, %eax], [int $0x80], in that order, and
    nothing else: the exit system call, with no [ret] among the lines and
    no label consumed. *)
Theorem C8_return_is_exit_syscall :
  forall e g,
    code (generate_statement (Return e) g)
    = code (generate_expression e g)
      ++ ["mov %eax, %ebx"; "mov $1, %eax"; "int $0x80"]
    /\ code (generate_expression e g) = code g ++ expression_lines e
    /\ ~ In "ret" (expression_lines e
                   ++ ["mov %eax, %ebx"; "mov $1, %eax"; "int $0x80"])
    /\ label_counter (generate_statement (Return e) g) = label_counter g.
Proof.
  intros e g. repeat split.
  - cbn [generate_statement]. rewrite !code_emit, <- !app_assoc. reflexivity.
  - apply code_generate_expression.
  - rewrite in_app_iff. intros [H|H].
    + now apply expression_lines_no_ret in H.
    + simpl in H. repeat (destruct H as [H|H]; [discriminate H|]). exact H.
  - cbn [generate_statement]. rewrite !label_counter_emit.
    apply label_counter_generate_expression.
Qed.

(** ** Variables: one stack slot *)

Lemma rename_expr_lines f e : expression_lines (rename_expr f e) = expression_lines e.
Proof.
  induction e as [v|x|op lhs IHl rhs IHr]; cbn [rename_expr expression_lines];
    [reflexivity | reflexivity | congruence].
Qed.

Lemma generate_statements_map (gs : stmt -> t -> t) (r : stmt -> stmt) l :
  Forall (fun s => forall g, gs (r s) g = gs s g) l ->
  forall g, generate_statements gs (map r l) g = generate_statements gs l g.
Proof.
  unfold generate_statements.
  induction 1 as [|s l Hs _ IH]; intros g; [reflexivity|].
  cbn [map fold_left]. rewrite Hs. apply IH.
Qed.

Lemma nonempty_map {A B} (f : A -> B) l : nonempty (map f l) = nonempty l.
Proof. now destruct l. Qed.

(** The code of a statement does not depend on the names of its
    variables. *)
Lemma generate_statement_rename f s :
  forall g, generate_statement (rename_stmt f s) g = generate_statement s g.
Proof.
  induction s as [e|x|x e|c th el IHt IHe|c b IHb] using stmt_ind; intros g;
    cbn [rename_stmt generate_statement].
  - now rewrite !generate_expression_lines, rename_expr_lines.
  - reflexivity.
  - now rewrite !generate_expression_lines, rename_expr_lines.
  - unfold generate_if.
    destruct (generate_label g) as [else_label g1].
    destruct (generate_label g1) as [end_label g2].
    rewrite !nonempty_map, !generate_expression_lines, rename_expr_lines.
    rewrite (generate_statements_map _ _ _ IHt).
    destruct (nonempty el); [|reflexivity].
    now rewrite (generate_statements_map _ _ _ IHe).
  - unfold generate_while.
    destruct (generate_label g) as [start_label g1].
    destruct (generate_label g1) as [end_label g2].
    rewrite !generate_expression_lines, rename_expr_lines.
    now rewrite (generate_statements_map _ _ _ IHb).
Qed.

Lemma local_vars_two a b rest :
  a <> b ->
  (forall s, In s rest -> forall x, s <> Declaration x) ->
  local_vars (Declaration a :: Declaration b :: rest) = [a; b].
Proof.
  intros Hab Hrest. unfold local_vars. cbn [fold_left set_add empty_set].
  destruct (string_dec b a) as [E|_]; [now elim Hab|].
  induction rest as [|s rest IH]; [reflexivity|].
  cbn [fold_left].
  destruct s as [e|x|x e|c th el|c bd];
    try (apply IH; intros s' Hs'; apply Hrest; now right).
  now elim (Hrest (Declaration x) (or_introl eq_refl) x).
Qed.

(** C1.  [get_variable_offset] returns -4 for every name; so every load
    of a variable reads [-4(%ebp)] and every store of an assignment writes
    [-4(%ebp)]; the code of a statement is the same under any renaming of
    its variables; and in a function that declares two distinct variables
    (for which 8 bytes are reserved) the assignment to the second one is
    stored by the same line, to the same address, as the assignment to the
    first one. *)
Theorem C1_single_stack_slot :
  (forall var_name, get_variable_offset var_name = (-4)%Z)
  /\ (forall name g,
        code (generate_expression (Var name) g)
        = code g ++ ["mov -4(%ebp), %eax"])
  /\ (forall name e g,
        code (generate_statement (Assignment name e) g)
        = code g ++ expression_lines e ++ ["mov %eax, -4(%ebp)"])
  /\ (forall rename s g,
        generate_statement (rename_stmt rename s) g = generate_statement s g)
  /\ (forall fname a b ea eb,
        a <> b ->
        generate_lines
          (Program [Func fname [Declaration a; Declaration b;
                                Assignment a ea; Assignment b eb]])
        = [".section .text"; ".globl _start"; "";
           function_label fname; "push %ebp"; "mov %esp, %ebp"; "sub $8, %esp"]
          ++ expression_lines ea ++ ["mov %eax, -4(%ebp)"]
          ++ expression_lines eb ++ ["mov %eax, -4(%ebp)"]
          ++ ["mov %ebp, %esp"; "pop %ebp"; "ret"; ""]).
Proof.
  repeat split.
  - intros name e g. cbn [generate_statement].
    rewrite code_emit, code_generate_expression, <- app_assoc. reflexivity.
  - intros rename s g. apply generate_statement_rename.
  - intros fname a b ea eb Hab.
    unfold generate_lines, generate_program. cbn [fold_left].
    unfold generate_function.
    rewrite (local_vars_two a b _ Hab).
    2:{ intros s [<-|[<-|[]]] x; discriminate. }
    cbn [nonempty List.length generate_statements fold_left generate_statement].
    rewrite !generate_expression_lines.
    change (PyStr.str_nat (4 * 2)) with "8".
    change (PyStr.str (get_variable_offset b)) with "-4".
    change (PyStr.str (get_variable_offset a)) with "-4".
    unfold function_label.
    destruct (String.eqb fname "main");
      repeat first [rewrite code_emit | rewrite code_emit_all];
      cbn [code init]; rewrite <- ?app_assoc; reflexivity.
Qed.

Lemma C1_witness :
  "a" <> "b"
  /\ generate_lines
       (Program [Func "main" [Declaration "a"; Declaration "b";
                              Assignment "a" (Number 1); Assignment "b" (Number 2)]])
     = [".section .text"; ".globl _start"; "";
        "_start:"; "push %ebp"; "mov %esp, %ebp"; "sub $8, %esp";
        "mov $1, %eax"; "mov %eax, -4(%ebp)";
        "mov $2, %eax"; "mov %eax, -4(%ebp)";
        "mov %ebp, %esp"; "pop %ebp"; "ret"; ""].
Proof.
  assert (N : "a" <> "b") by discriminate.
  split; [exact N|].
  exact (proj2 (proj2 (proj2 (proj2 C1_single_stack_slot)))
           "main" "a" "b" (Number 1) (Number 2) N).
Defined.

(** ** Labels *)

Lemma to_uint_nonnil n : Nat.to_uint n <> Decimal.Nil.
Proof.
  rewrite <- (DecimalNat.Unsigned.of_to n) at 1.
  rewrite DecimalNat.Unsigned.to_of. unfold Decimal.unorm.
  destruct (Decimal.nzhead (Nat.to_uint n)); discriminate.
Qed.

Lemma str_nat_inj n m : PyStr.str_nat n = PyStr.str_nat m -> n = m.
Proof.
  unfold PyStr.str_nat. intros H.
  apply (f_equal NilZero.uint_of_string) in H.
  rewrite !NilZero.usu in H by apply to_uint_nonnil.
  injection H as H. now apply DecimalNat.Unsigned.to_uint_inj.
Qed.









(** ** The generator as a function of the tree and of the counter *)

Lemma emit_all_eq lines g :
  emit_all lines g = mk (variables g) (label_counter g) (code g ++ lines).
Proof.
  revert g. induction lines as [|line lines IH]; intros g.
  - destruct g. cbn. now rewrite app_nil_r.
  - rewrite emit_all_cons, IH. cbn [emit variables label_counter code].
    now rewrite <- app_assoc.
Qed.

Lemma generate_statements_lines l :
  Forall (fun s => forall g,
              generate_statement s g
              = mk (variables g) (label_counter g + labels_used s)
                   (code g ++ statement_lines s (label_counter g))) l ->
  forall g,
    generate_statements generate_statement l g
    = mk (variables g) (label_counter g + list_sum (map labels_used l))
         (code g ++ block_lines statement_lines l (label_counter g)).
Proof.
  unfold generate_statements.
  induction 1 as [|s l Hs _ IH]; intros g; cbn [fold_left].
  - destruct g. cbn. now rewrite Nat.add_0_r, app_nil_r.
  - rewrite Hs, IH. cbn [variables label_counter code map list_sum fold_right
                         block_lines].
    f_equal; [|now rewrite <- app_assoc].
    fold (list_sum (map labels_used l)). lia.
Qed.

(** [generate_statement] leaves [variables] alone, moves the counter by
    the labels the statement takes, and appends [statement_lines]. *)
Lemma generate_statement_lines s :
  forall g,
    generate_statement s g
    = mk (variables g) (label_counter g + labels_used s)
         (code g ++ statement_lines s (label_counter g)).
Proof.
  induction s as [e|x|x e|c th el IHt IHe|c b IHb] using stmt_ind; intros g;
    cbn [generate_statement statement_lines labels_used].
  - rewrite generate_expression_lines, emit_all_eq.
    unfold emit; cbn [variables label_counter code].
    rewrite Nat.add_0_r, <- !app_assoc. reflexivity.
  - destruct g. cbn. now rewrite Nat.add_0_r, app_nil_r.
  - rewrite generate_expression_lines, emit_all_eq.
    unfold emit; cbn [variables label_counter code].
    rewrite Nat.add_0_r, <- !app_assoc. reflexivity.
  - unfold generate_if, generate_label.
    rewrite generate_expression_lines, emit_all_eq.
    destruct (nonempty el) eqn:N.
    + rewrite (generate_statements_lines _ IHt).
      rewrite (generate_statements_lines _ IHe).
      unfold emit; cbn [variables label_counter code]. unfold label.
      f_equal; [lia|]. rewrite <- !app_assoc. reflexivity.
    + destruct el; [|discriminate N].
      rewrite (generate_statements_lines _ IHt).
      unfold emit; cbn [variables label_counter code map list_sum fold_right].
      unfold label.
      f_equal; [lia|]. rewrite <- !app_assoc. reflexivity.
  - unfold generate_while, generate_label.
    rewrite generate_expression_lines, emit_all_eq.
    rewrite (generate_statements_lines _ IHb).
    unfold emit; cbn [variables label_counter code]. unfold label.
    f_equal; [lia|]. rewrite <- !app_assoc. reflexivity.
Qed.

(** ** The label definitions in the emitted code *)

Lemma ends_with_colon_app a b :
  b <> EmptyString ->
  ends_with_colon (a ++ b)%string = ends_with_colon b.
Proof.
  intros Hb. induction a as [|x a IH]; [reflexivity|].
  cbn [append ends_with_colon]. rewrite IH.
  destruct (a ++ b)%string eqn:E; [|reflexivity].
  destruct a; [now elim Hb | discriminate E].
Qed.

Lemma digits_no_colon d :
  d <> Decimal.Nil -> ends_with_colon (NilEmpty.string_of_uint d) = false.
Proof.
  induction d as [|d IH|d IH|d IH|d IH|d IH|d IH|d IH|d IH|d IH|d IH];
    intros N; [now elim N| ..];
    cbn [NilEmpty.string_of_uint ends_with_colon];
    (destruct d; [reflexivity| ..]; apply IH; discriminate).
Qed.

Lemma str_nat_no_colon k :
  ends_with_colon (PyStr.str_nat k) = false /\ PyStr.str_nat k <> EmptyString.
Proof.
  unfold PyStr.str_nat, NilZero.string_of_uint.
  pose proof (to_uint_nonnil k) as N.
  destruct (Nat.to_uint k) eqn:E; [now elim N| ..];
    (split; [rewrite <- E in *; rewrite E; apply digits_no_colon; discriminate
            | discriminate]).
Qed.

Lemma jump_no_colon (mnemonic : string) k :
  ends_with_colon (mnemonic ++ label k)%string = false.
Proof.
  destruct (str_nat_no_colon k) as [C N]. unfold label.
  rewrite ends_with_colon_app by discriminate.
  change ("L" ++ PyStr.str_nat k)%string with (String "L" (PyStr.str_nat k)).
  cbn [ends_with_colon]. destruct (PyStr.str_nat k); [now elim N | exact C].
Qed.

Lemma label_line_colon k : ends_with_colon (label_line k) = true.
Proof.
  unfold label_line. now rewrite ends_with_colon_app by discriminate.
Qed.

Lemma label_line_inj k k' : label_line k = label_line k' -> k = k'.
Proof.
  unfold label_line, label. cbn [append]. intros [= H].
  apply str_nat_inj.
  revert H. generalize (PyStr.str_nat k') as b. generalize (PyStr.str_nat k) as a.
  induction a as [|x a IH]; intros [|y b]; cbn [append]; intros H;
    try reflexivity.
  - injection H as _ H. destruct b; discriminate H.
  - injection H as _ H. destruct a; discriminate H.
  - injection H as -> H. f_equal. now apply IH.
Qed.

Lemma append_nonempty (a b : string) :
  b <> EmptyString -> (a ++ b)%string <> EmptyString.
Proof. destruct a; [trivial | discriminate]. Qed.

Lemma expression_lines_no_label e :
  label_definitions (expression_lines e) = [].
Proof.
  unfold label_definitions.
  induction e as [v|x|op lhs IHl rhs IHr]; cbn [expression_lines].
  - cbn [filter].
    now rewrite !ends_with_colon_app
      by (try apply append_nonempty; discriminate).
  - reflexivity.
  - rewrite !filter_app, IHl, IHr. cbn [filter ends_with_colon app].
    pose proof (operator_lines_cases op) as C. simpl in C.
    repeat (destruct C as [C|C]; [now rewrite <- C|]). contradiction.
Qed.

Lemma defines_nothing lines (P : nat -> Prop) :
  label_definitions lines = [] -> defines_labels lines P.
Proof.
  intros H. exists []. rewrite H. repeat split; [constructor | intros k []].
Qed.

Lemma defines_one k (P : nat -> Prop) : P k -> defines_labels [label_line k] P.
Proof.
  intros H. exists [k]. unfold label_definitions. cbn [filter map].
  rewrite label_line_colon. repeat split.
  - constructor; [intros [] | constructor].
  - intros k' [<-|[]]. exact H.
Qed.

Lemma defines_app a b (P Q R : nat -> Prop) :
  defines_labels a P -> defines_labels b Q ->
  (forall k, P k -> Q k -> False) ->
  (forall k, P k -> R k) -> (forall k, Q k -> R k) ->
  defines_labels (a ++ b) R.
Proof.
  intros (ka & Ea & Na & Pa) (kb & Eb & Nb & Pb) D PR QR.
  exists (ka ++ kb). unfold label_definitions in *.
  rewrite filter_app, Ea, Eb, map_app. repeat split.
  - apply NoDup_app; auto. intros k Ha Hb. eauto.
  - intros k H. apply in_app_or in H. destruct H; auto.
Qed.

Lemma defines_skip a b (P : nat -> Prop) :
  label_definitions a = [] -> defines_labels b P -> defines_labels (a ++ b) P.
Proof.
  intros Ha (kb & Eb & Nb & Pb). exists kb. unfold label_definitions in *.
  now rewrite filter_app, Ha, Eb.
Qed.

Lemma block_lines_labels l :
  Forall (fun s => forall c,
              defines_labels (statement_lines s c)
                (fun k => c < k <= c + labels_used s)) l ->
  forall c,
    defines_labels (block_lines statement_lines l c)
      (fun k => c < k <= c + list_sum (map labels_used l)).
Proof.
  induction 1 as [|s l Hs _ IH]; intros c;
    cbn [block_lines map list_sum fold_right].
  - now apply defines_nothing.
  - fold (list_sum (map labels_used l)).
    apply (defines_app _ _ _ _ _ (Hs c) (IH (c + labels_used s)));
      intros k; lia.
Qed.

(** Among the lines of a statement generated at counter [c], the label
    definitions are those of distinct labels, all numbered after [c] and
    up to the value the counter has after the statement. *)
Lemma statement_lines_labels s :
  forall c,
    defines_labels (statement_lines s c) (fun k => c < k <= c + labels_used s).
Proof.
  induction s as [e|x|x e|cond th el IHt IHe|cond b IHb] using stmt_ind;
    intros c; cbn [statement_lines labels_used].
  - apply defines_nothing. unfold label_definitions.
    rewrite filter_app. fold (label_definitions (expression_lines e)).
    now rewrite expression_lines_no_label.
  - now apply defines_nothing.
  - apply defines_nothing. unfold label_definitions.
    rewrite filter_app. fold (label_definitions (expression_lines e)).
    now rewrite expression_lines_no_label.
  - pose proof (block_lines_labels _ IHt (c + 1 + 1)) as Dt.
    pose proof (block_lines_labels _ IHe
                  (c + 1 + 1 + list_sum (map labels_used th))) as De.
    apply defines_skip; [apply expression_lines_no_label|].
    apply (defines_skip ["cmp $0, %eax"]); [reflexivity|].
    apply (defines_skip [_]).
    { unfold label_definitions. cbn [filter].
      destruct (nonempty el); now rewrite jump_no_colon. }
    apply (defines_app _ _ _
             (fun k => k = c + 1 \/ k = c + 1 + 1
                       \/ c + 1 + 1 + list_sum (map labels_used th) < k
                          <= c + 1 + 1 + list_sum (map labels_used th)
                             + list_sum (map labels_used el))
             _ Dt); try (intros k; lia).
    apply (defines_app _ _
             (fun k => k = c + 1
                       \/ c + 1 + 1 + list_sum (map labels_used th) < k
                          <= c + 1 + 1 + list_sum (map labels_used th)
                             + list_sum (map labels_used el))
             (fun k => k = c + 1 + 1));
      try (intros k; lia); [|apply (defines_one (c + 1 + 1)); reflexivity].
    destruct (nonempty el); [|now apply defines_nothing].
    apply (defines_skip [_]).
    { unfold label_definitions. cbn [filter]. now rewrite jump_no_colon. }
    apply (defines_app [_] _ (fun k => k = c + 1) _ _
             (defines_one (c + 1) _ eq_refl) De); intros k; lia.
  - pose proof (block_lines_labels _ IHb (c + 1 + 1)) as Db.
    apply (defines_app [_] _ (fun k => k = c + 1)
             (fun k => k = c + 1 + 1
                       \/ c + 1 + 1 < k
                          <= c + 1 + 1 + list_sum (map labels_used b)) _
             (defines_one (c + 1) _ eq_refl)); try (intros k; lia).
    apply defines_skip; [apply expression_lines_no_label|].
    apply (defines_skip [_; _]).
    { unfold label_definitions. cbn [filter]. now rewrite jump_no_colon. }
    apply (defines_app _ _ _ (fun k => k = c + 1 + 1) _ Db);
      try (intros k; lia).
    apply (defines_skip [_]).
    { unfold label_definitions. cbn [filter]. now rewrite jump_no_colon. }
    apply (defines_one (c + 1 + 1)). reflexivity.
Qed.

Lemma defines_labels_distinct lines (P : nat -> Prop) :
  defines_labels lines P ->
  NoDup (label_definitions lines)
  /\ forall line, In line (label_definitions lines) ->
                  exists k, line = label_line k /\ P k.
Proof.
  intros (ks & E & N & H). rewrite E. split.
  - clear E H. induction N as [|k ks Hk _ IH]; cbn [map]; constructor; auto.
    rewrite in_map_iff. intros (k' & E & Hin).
    apply label_line_inj in E. now subst.
  - intros line Hin. apply in_map_iff in Hin. destruct Hin as (k & <- & Hin).
    exists k. auto.
Qed.

(** ** Function prologue and frame *)

Lemma local_vars_fold body vars0 :
  NoDup vars0 ->
  let vars :=
    fold_left
      (fun vars s =>
         match s with
         | Declaration name => set_add string_dec name vars
         | _ => vars
         end)
      body vars0 in
  NoDup vars
  /\ forall x, In x vars <-> In x vars0 \/ In (Declaration x) body.
Proof.
  revert vars0. induction body as [|s body IH]; intros vars0 N; cbn [fold_left].
  - split; [exact N|]. intros x. simpl. tauto.
  - destruct s as [e|y|y e|c th el|c b];
      try (destruct (IH vars0 N) as [N' I']; split; [exact N'|];
           intros x; rewrite I'; simpl;
           split; [intros [H|H]; auto | intros [H|[H|H]]; auto; discriminate H]).
    destruct (IH (set_add string_dec y vars0)) as [N' I'];
      [now apply set_add_nodup|].
    split; [exact N'|]. intros x. rewrite I', set_add_iff. simpl.
    split.
    + intros [[->|H]|H]; auto.
    + intros [H|[[= ->]|H]]; auto.
Qed.

(** [local_vars] holds, once each, the names declared by the statements of
    the body itself; the blocks of [if] and [while] are not visited. *)
Lemma local_vars_spec body :
  NoDup (local_vars body)
  /\ forall x, In x (local_vars body) <-> In (Declaration x) body.
Proof.
  destruct (local_vars_fold body (empty_set string) (NoDup_nil _)) as [N I].
  split; [exact N|]. intros x. unfold local_vars. rewrite I. simpl. tauto.
Qed.

(** What [generate_function] emits: the label, the two prologue lines, the
    frame reservation computed from [local_vars], the code of the
    statements, the epilogue. *)
Lemma generate_function_layout name body g :
  code (generate_function (Func name body) g)
  = code g
    ++ [function_label name; "push %ebp"; "mov %esp, %ebp"]
    ++ frame_lines body
    ++ block_lines statement_lines body (label_counter g)
    ++ ["mov %ebp, %esp"; "pop %ebp"; "ret"; ""].
Proof.
  unfold generate_function.
  rewrite (generate_statements_lines body)
    by (apply Forall_forall; intros s _; apply generate_statement_lines).
  unfold frame_lines, function_label.
  destruct (local_vars body) as [|v vars]; cbn [nonempty];
    destruct (String.eqb name "main"); unfold emit;
    cbn [variables label_counter code]; rewrite <- !app_assoc; reflexivity.
Qed.

(** C6 on the code.  The function of the source below declares one local
    variable, [b], inside the block of an [if].  [generate_function] looks
    for declarations among the statements of the body only, finds none and
    emits no [sub $4, %esp]: the store to [b] goes to a slot that was not
    reserved. *)
Theorem C6_nested_declaration_no_frame :
  let body := [If (Number 1) [Declaration "b"; Assignment "b" (Number 2)] [];
               Return (Var "b")] in
  parse_source "int main() { if (1) { int b; b = 2; } return b; }"
  = Ok (Program [Func "main" body])
  /\ flat_map declared body = ["b"]
  /\ local_vars body = []
  /\ generate_lines (Program [Func "main" body])
     = [".section .text"; ".globl _start"; "";
        "_start:"; "push %ebp"; "mov %esp, %ebp";
        "mov $1, %eax"; "cmp $0, %eax"; "je L2";
        "mov $2, %eax"; "mov %eax, -4(%ebp)";
        "L2:";
        "mov -4(%ebp), %eax"; "mov %eax, %ebx"; "mov $1, %eax"; "int $0x80";
        "mov %ebp, %esp"; "pop %ebp"; "ret"; ""].
Proof. vm_compute. repeat split. Qed.

(* ================================================================== *)
(** * The parser: expressions *)

Section ParserSteps.

Variable tokens : list token.

Lemma bind_ok {A B} (m : Parser.parser A) (k : A -> Parser.parser B) pos a pos' :
  m pos = Ok (a, pos') -> Parser.bind m k pos = k a pos'.
Proof. unfold Parser.bind. now intros ->. Qed.

Lemma bind_raise {A B} (m : Parser.parser A) (k : A -> Parser.parser B) pos e :
  m pos = Raise e -> Parser.bind m k pos = Raise e.
Proof. unfold Parser.bind. now intros ->. Qed.

Lemma eat_ok pos t token_type value :
  nth_error tokens pos = Some t ->
  Parser.mismatch t token_type value = false ->
  Parser.eat tokens token_type value pos = Ok (t, pos + 1).
Proof.
  intros H M. unfold Parser.eat, Parser.bind, Parser.current_token.
  now rewrite H, M.
Qed.

Lemma eat_eof pos token_type value :
  nth_error tokens pos = None ->
  Parser.eat tokens token_type value pos = Raise UnexpectedEOF.
Proof.
  intros H. unfold Parser.eat, Parser.bind, Parser.current_token.
  now rewrite H.
Qed.

Lemma at_lexeme_some p pos t :
  nth_error tokens pos = Some t ->
  Parser.at_lexeme tokens p pos = Ok (p (snd t), pos).
Proof.
  intros H. unfold Parser.at_lexeme, Parser.bind, Parser.current_token.
  now rewrite H.
Qed.

Lemma at_lexeme_none p pos :
  nth_error tokens pos = None ->
  Parser.at_lexeme tokens p pos = Ok (false, pos).
Proof.
  intros H. unfold Parser.at_lexeme, Parser.bind, Parser.current_token.
  now rewrite H.
Qed.

Lemma skipn_cons_nth pos (t : token) l :
  skipn pos tokens = t :: l ->
  nth_error tokens pos = Some t /\ skipn (pos + 1) tokens = l.
Proof.
  intros H. split.
  - now rewrite <- hd_error_skipn, H.
  - replace (pos + 1) with (1 + pos) by lia.
    now rewrite <- skipn_skipn, H.
Qed.

Lemma skipn_nil_nth pos :
  skipn pos tokens = [] -> nth_error tokens pos = None.
Proof. intros H. now rewrite <- hd_error_skipn, H. Qed.

Lemma binary_loop_stops ops operand fuel left pos :
  stops ops (skipn pos tokens) ->
  Parser.binary_loop tokens ops operand (S fuel) left pos = Ok (left, pos).
Proof.
  intros H. cbn [Parser.binary_loop].
  destruct (skipn pos tokens) as [|t l] eqn:E.
  - now rewrite (bind_ok _ _ _ _ _ (at_lexeme_none _ _ (skipn_nil_nth _ E))).
  - destruct (skipn_cons_nth _ _ _ E) as [N _]. simpl in H.
    now rewrite (bind_ok _ _ _ _ _ (at_lexeme_some _ _ _ N)), H.
Qed.

Lemma parse_primary_atom rec pos t e :
  nth_error tokens pos = Some t ->
  atom_expr t = Some e ->
  Parser.parse_primary tokens rec pos = Ok (e, pos + 1).
Proof.
  intros N A. unfold Parser.parse_primary.
  unfold Parser.bind at 1. unfold Parser.current_token. rewrite N.
  unfold atom_expr in A. destruct t as [k v]. cbn [fst snd] in *.
  destruct k; try discriminate A.
  - injection A as <-.
    now rewrite (bind_ok _ _ _ _ _ (eat_ok pos (IDENTIFIER, v) IDENTIFIER None N eq_refl)).
  - rewrite (bind_ok _ _ _ _ _ (eat_ok pos (NUMBER, v) NUMBER None N eq_refl)).
    destruct (PyStr.int v); [|discriminate A]. now injection A as <-.
Qed.

Lemma parse_multiplication_atom rec fuel pos t l e :
  skipn pos tokens = t :: l ->
  atom_expr t = Some e ->
  stops Parser.multiplication_ops l ->
  Parser.parse_multiplication tokens rec (S fuel) pos = Ok (e, pos + 1).
Proof.
  intros E A S1. destruct (skipn_cons_nth _ _ _ E) as [N E'].
  unfold Parser.parse_multiplication.
  rewrite (bind_ok _ _ _ _ _ (parse_primary_atom rec _ _ _ N A)).
  apply binary_loop_stops. now rewrite E'.
Qed.

Lemma parse_addition_atom rec fuel pos t l e :
  skipn pos tokens = t :: l ->
  atom_expr t = Some e ->
  stops Parser.multiplication_ops l ->
  stops Parser.addition_ops l ->
  Parser.parse_addition tokens rec (S fuel) pos = Ok (e, pos + 1).
Proof.
  intros E A S1 S2. destruct (skipn_cons_nth _ _ _ E) as [N E'].
  unfold Parser.parse_addition.
  rewrite (bind_ok _ _ _ _ _ (parse_multiplication_atom rec fuel _ _ _ _ E A S1)).
  apply binary_loop_stops. now rewrite E'.
Qed.

(** The loop of a tier on a chain of its operators: when the operand
    parser reads one atom each time, the loop folds the chain to the left
    and consumes it whole. *)
Lemma binary_loop_chain ops operand :
  (forall pos t l e,
      skipn pos tokens = t :: l -> atom_expr t = Some e ->
      match l with
      | [] => True
      | t' :: _ => exists op, t' = (SYMBOL, op) /\ In op ops
      end ->
      operand pos = Ok (e, pos + 1)) ->
  forall links pos left fuel,
    skipn pos tokens = flat_map link_tokens links ->
    Forall (link_ok ops) links ->
    List.length links < fuel ->
    Parser.binary_loop tokens ops operand fuel left pos
    = Ok (chain_expr left links, pos + 2 * List.length links).
Proof.
  intros Hoperand links.
  induction links as [|[[op t] e] links IH]; intros pos left fuel E F L.
  - destruct fuel as [|fuel]; [simpl in L; lia|].
    rewrite binary_loop_stops by (now rewrite E).
    simpl. now rewrite Nat.add_0_r.
  - destruct fuel as [|fuel]; [simpl in L; lia|].
    inversion F as [|? ? Hlink F']; subst. destruct Hlink as [Hop Hatom].
    cbn [flat_map link_tokens app] in E.
    destruct (skipn_cons_nth _ _ _ E) as [N E1].
    destruct (skipn_cons_nth _ _ _ E1) as [N1 E2].
    cbn [Parser.binary_loop].
    rewrite (bind_ok _ _ _ _ _ (at_lexeme_some _ _ _ N)). cbn [snd].
    apply mem_In in Hop. rewrite Hop.
    rewrite (bind_ok _ _ _ _ _ (eat_ok pos (SYMBOL, op) SYMBOL None N eq_refl)).
    assert (O : operand (pos + 1) = Ok (e, pos + 1 + 1)).
    { apply (Hoperand _ _ _ _ E1 Hatom).
      destruct links as [|[[op' t'] e'] links']; [exact I|].
      cbn [flat_map link_tokens app]. exists op'. split; [reflexivity|].
      inversion F' as [|? ? Hlink' _]. exact (proj1 Hlink'). }
    rewrite (bind_ok _ _ _ _ _ O). cbn [snd].
    rewrite (IH (pos + 1 + 1) (BinaryOp op left e) fuel E2 F')
      by (simpl in L; lia).
    cbn [chain_expr fold_left List.length]. f_equal. f_equal. lia.
Qed.

End ParserSteps.

Lemma length_link_tokens links :
  List.length (flat_map link_tokens links) = 2 * List.length links.
Proof.
  induction links as [|[[op t] e] links IH]; [reflexivity|].
  cbn [flat_map link_tokens app List.length]. rewrite IH. lia.
Qed.

Lemma chain_stops ops ops' links :
  Forall (link_ok ops) links ->
  (forall op, In op ops -> mem op ops' = false) ->
  stops ops' (flat_map link_tokens links).
Proof.
  intros F D. destruct links as [|[[op t] e] links]; [exact I|].
  inversion F as [|? ? Hlink _]. simpl. apply D, Hlink.
Qed.

Lemma addition_not_multiplication op :
  In op Parser.addition_ops -> mem op Parser.multiplication_ops = false.
Proof. intros [<-|[<-|[]]]; reflexivity. Qed.

Lemma comparison_not_multiplication op :
  In op Parser.comparison_ops -> mem op Parser.multiplication_ops = false.
Proof. intros [<-|[<-|[<-|[<-|[<-|[<-|[]]]]]]]; reflexivity. Qed.

Lemma comparison_not_addition op :
  In op Parser.comparison_ops -> mem op Parser.addition_ops = false.
Proof. intros [<-|[<-|[<-|[<-|[<-|[<-|[]]]]]]]; reflexivity. Qed.

Lemma stops_after ops ops' (l : list token) :
  (forall op, In op ops -> mem op ops' = false) ->
  match l with
  | [] => True
  | t' :: _ => exists op, t' = (SYMBOL, op) /\ In op ops
  end ->
  stops ops' l.
Proof.
  intros D H. destruct l as [|t' l]; [exact I|].
  destruct H as (op & -> & Hin). simpl. now apply D.
Qed.

(** A chain of operators of one tier between single-token operands parses,
    as a whole expression, to the left-leaning tree of the chain. *)
Lemma parse_expression_chain ops t0 e0 links :
  In ops [Parser.multiplication_ops; Parser.addition_ops; Parser.comparison_ops] ->
  atom_expr t0 = Some e0 ->
  Forall (link_ok ops) links ->
  Parser.parse_expression_of (chain_tokens t0 links) = Ok (chain_expr e0 links).
Proof.
  intros Hops A F.
  set (tokens := chain_tokens t0 links).
  assert (E0 : skipn 0 tokens = t0 :: flat_map link_tokens links) by reflexivity.
  assert (E1 : skipn (0 + 1) tokens = flat_map link_tokens links) by reflexivity.
  assert (Len : List.length tokens = 1 + 2 * List.length links)
    by (unfold tokens, chain_tokens; cbn [List.length];
        now rewrite length_link_tokens).
  assert (End : skipn (0 + 1 + 2 * List.length links) tokens = [])
    by (apply skipn_all2; lia).
  unfold Parser.parse_expression_of, Parser.run, Parser.enough.
  fold tokens. cbn [Parser.parse_expression].
  set (rec := Parser.parse_expression tokens (List.length tokens)).
  assert (Fuel : List.length links < S (List.length tokens)) by lia.
  destruct Hops as [<-|[<-|[<-|[]]]].
  - (* a chain of [*] and [/] *)
    unfold Parser.parse_comparison, Parser.parse_addition,
      Parser.parse_multiplication, Parser.bind.
    rewrite (parse_primary_atom tokens rec 0 t0 e0 eq_refl A).
    rewrite (binary_loop_chain tokens Parser.multiplication_ops
               (Parser.parse_primary tokens rec)
               ltac:(intros pos t l e Hs Ha _;
                     apply (parse_primary_atom tokens rec pos t e);
                     [apply (skipn_cons_nth tokens pos t l Hs) | exact Ha])
               links (0 + 1) e0 _ E1 F Fuel).
    rewrite (binary_loop_stops tokens Parser.addition_ops _ (List.length tokens))
      by (now rewrite End).
    rewrite (binary_loop_stops tokens Parser.comparison_ops _ (List.length tokens))
      by (now rewrite End).
    reflexivity.
  - (* a chain of [+] and [-] *)
    unfold Parser.parse_comparison, Parser.parse_addition, Parser.bind.
    rewrite (parse_multiplication_atom tokens rec (List.length tokens) 0 t0 _ e0
               E0 A (chain_stops _ _ _ F addition_not_multiplication)).
    rewrite (binary_loop_chain tokens Parser.addition_ops
               (Parser.parse_multiplication tokens rec (S (List.length tokens)))
               ltac:(intros pos t l e Hs Ha Hn;
                     apply (parse_multiplication_atom tokens rec _ pos t l e Hs Ha);
                     apply (stops_after Parser.addition_ops);
                     auto using addition_not_multiplication)
               links (0 + 1) e0 _ E1 F Fuel).
    rewrite (binary_loop_stops tokens Parser.comparison_ops _ (List.length tokens))
      by (now rewrite End).
    reflexivity.
  - (* a chain of comparisons *)
    unfold Parser.parse_comparison, Parser.bind.
    rewrite (parse_addition_atom tokens rec (List.length tokens) 0 t0 _ e0
               E0 A (chain_stops _ _ _ F comparison_not_multiplication)
               (chain_stops _ _ _ F comparison_not_addition)).
    rewrite (binary_loop_chain tokens Parser.comparison_ops
               (Parser.parse_addition tokens rec (S (List.length tokens)))
               ltac:(intros pos t l e Hs Ha Hn;
                     apply (parse_addition_atom tokens rec _ pos t l e Hs Ha);
                     [apply (stops_after Parser.comparison_ops);
                      auto using comparison_not_multiplication
                     |apply (stops_after Parser.comparison_ops);
                      auto using comparison_not_addition])
               links (0 + 1) e0 _ E1 F Fuel).
    reflexivity.
Qed.

(** The loop of a tier folds to the left whatever its operands are. *)
Lemma binary_loop_run (tokens : list token) ops operand p links q :
  operators_run tokens ops operand p links q ->
  forall fuel left,
    List.length links < fuel ->
    Parser.binary_loop tokens ops operand fuel left p
    = Ok (left_chain left links, q).
Proof.
  induction 1 as [p Hstop|p op e p' links q N M O R IH]; intros fuel left L;
    (destruct fuel as [|fuel]; [simpl in L; lia|]); cbn [Parser.binary_loop].
  - now rewrite (bind_ok _ _ _ _ _ Hstop).
  - rewrite (bind_ok _ _ _ _ _ (at_lexeme_some tokens _ _ _ N)). cbn [snd].
    rewrite M.
    rewrite (bind_ok _ _ _ _ _ (eat_ok tokens p (SYMBOL, op) SYMBOL None N eq_refl)).
    rewrite (bind_ok _ _ _ _ _ O). cbn [snd].
    rewrite IH by (simpl in L; lia). reflexivity.
Qed.

Lemma tier_folds_left (tokens : list token) rec fuel t p0 e0 p1 links q :
  tier_operand tokens rec fuel t p0 = Ok (e0, p1) ->
  operators_run tokens (tier_ops t) (tier_operand tokens rec fuel t) p1 links q ->
  List.length links < fuel ->
  tier_parser tokens rec fuel t p0 = Ok (left_chain e0 links, q).
Proof.
  intros O R L.
  assert (E : tier_parser tokens rec fuel t
              = Parser.bind (tier_operand tokens rec fuel t)
                  (Parser.binary_loop tokens (tier_ops t)
                     (tier_operand tokens rec fuel t) fuel))
    by now destruct t.
  rewrite E, (bind_ok _ _ _ _ _ O).
  now apply binary_loop_run.
Qed.

(** C9.  Each precedence tier folds a chain of its operators into a
    left-leaning tree.  Whatever the operands are, the method of a tier
    returns [((e0 op1 e1) op2 e2) ...] when its operand method returns
    [e0], [e1], [e2], ... around the operators [op1], [op2], ... of the
    tier; in particular a whole expression [t0 op1 t1 op2 t2 ...] over
    single-token operands and operators of one tier parses to that tree;
    and the source [1-2-3] parses to [BinaryOp "-" (BinaryOp "-" 1 2) 3]. *)
Theorem C9_left_associative :
  (forall (tokens : list token) rec fuel t p0 e0 p1 links q,
      tier_operand tokens rec fuel t p0 = Ok (e0, p1) ->
      operators_run tokens (tier_ops t) (tier_operand tokens rec fuel t)
                    p1 links q ->
      List.length links < fuel ->
      tier_parser tokens rec fuel t p0 = Ok (left_chain e0 links, q))
  /\ (forall t t0 e0 links,
        atom_expr t0 = Some e0 ->
        Forall (link_ok (tier_ops t)) links ->
        Parser.parse_expression_of (chain_tokens t0 links)
        = Ok (chain_expr e0 links))
  /\ parse_expression_source "1-2-3"
     = Ok (BinaryOp "-" (BinaryOp "-" (Number 1) (Number 2)) (Number 3)).
Proof.
  split; [exact tier_folds_left|]. split.
  - intros t t0 e0 links. apply parse_expression_chain.
    destruct t; simpl; auto.
  - vm_compute. reflexivity.
Qed.

Lemma C9_witness :
  (Lexer.tokenize "a-b+c-d"
   = Ok (chain_tokens (IDENTIFIER, "a")
           [("-", (IDENTIFIER, "b"), Var "b");
            ("+", (IDENTIFIER, "c"), Var "c");
            ("-", (IDENTIFIER, "d"), Var "d")])
   /\ Parser.parse_expression_of
        (chain_tokens (IDENTIFIER, "a")
           [("-", (IDENTIFIER, "b"), Var "b");
            ("+", (IDENTIFIER, "c"), Var "c");
            ("-", (IDENTIFIER, "d"), Var "d")])
      = Ok (BinaryOp "-"
              (BinaryOp "+" (BinaryOp "-" (Var "a") (Var "b")) (Var "c"))
              (Var "d")))
  /\ (let tokens := [(NUMBER, "8"); (SYMBOL, "/"); (NUMBER, "4");
                     (SYMBOL, "-"); (NUMBER, "2"); (SYMBOL, "*"); (NUMBER, "3");
                     (SYMBOL, "-"); (NUMBER, "1")] in
      Parser.parse_addition tokens (Parser.parse_expression tokens 9) 10 0
      = Ok (BinaryOp "-"
              (BinaryOp "-" (BinaryOp "/" (Number 8) (Number 4))
                            (BinaryOp "*" (Number 2) (Number 3)))
              (Number 1), 9)).
Proof.
  split; [split; [vm_compute; reflexivity|]|].
  - apply (proj1 (proj2 C9_left_associative) Addition (IDENTIFIER, "a") (Var "a")).
    + reflexivity.
    + repeat (constructor; [split; [simpl; auto | reflexivity]|]). constructor.
  - intros tokens.
    apply (proj1 C9_left_associative tokens (Parser.parse_expression tokens 9) 10
             Addition 0 (BinaryOp "/" (Number 8) (Number 4)) 3
             [("-", BinaryOp "*" (Number 2) (Number 3)); ("-", Number 1)] 9).
    + vm_compute. reflexivity.
    + eapply run_step with (p' := 7);
        [reflexivity | reflexivity | vm_compute; reflexivity|].
      eapply run_step with (p' := 9);
        [reflexivity | reflexivity | vm_compute; reflexivity|].
      apply run_stop. reflexivity.
    + simpl. lia.
Defined.

(* ================================================================== *)
(** * The parser: progress and termination *)

Section Progress.

Variable tokens : list token.

Lemma advances_monotone {A} (m : Parser.parser A) : advances m -> monotone m.
Proof. intros H pos a pos' E. apply H in E. lia. Qed.

Lemma monotone_ret {A} (a : A) : monotone (Parser.ret a).
Proof. intros pos b pos' [= _ <-]. lia. Qed.

Lemma advances_raise {A} e : advances (@Parser.raise A e).
Proof. intros pos a pos' E. discriminate E. Qed.

Lemma advances_out_of_fuel {A} : advances (@Parser.out_of_fuel A).
Proof. intros pos a pos' E. discriminate E. Qed.

Lemma monotone_bind {A B} (m : Parser.parser A) (k : A -> Parser.parser B) :
  monotone m -> (forall a, monotone (k a)) -> monotone (Parser.bind m k).
Proof.
  intros Hm Hk pos b pos'. unfold Parser.bind.
  destruct (m pos) as [[a p]|e|] eqn:E; try discriminate.
  intros E'. apply Hm in E. apply Hk in E'. lia.
Qed.

Lemma advances_bind {A B} (m : Parser.parser A) (k : A -> Parser.parser B) :
  advances m -> (forall a, monotone (k a)) -> advances (Parser.bind m k).
Proof.
  intros Hm Hk pos b pos'. unfold Parser.bind.
  destruct (m pos) as [[a p]|e|] eqn:E; try discriminate.
  intros E'. apply Hm in E. apply Hk in E'. lia.
Qed.

Lemma advances_bind_r {A B} (m : Parser.parser A) (k : A -> Parser.parser B) :
  monotone m -> (forall a, advances (k a)) -> advances (Parser.bind m k).
Proof.
  intros Hm Hk pos b pos'. unfold Parser.bind.
  destruct (m pos) as [[a p]|e|] eqn:E; try discriminate.
  intros E'. apply Hm in E. apply Hk in E'. lia.
Qed.

Lemma monotone_current_token : monotone (Parser.current_token tokens).
Proof. intros pos a pos' [= _ <-]. lia. Qed.

Lemma monotone_next_token : monotone (Parser.next_token tokens).
Proof.
  intros pos a pos'. unfold Parser.next_token.
  destruct (nth_error tokens (pos + 1)); [|discriminate].
  intros [= _ <-]. lia.
Qed.

Lemma monotone_at_lexeme p : monotone (Parser.at_lexeme tokens p).
Proof.
  intros pos a pos'. unfold Parser.at_lexeme, Parser.bind, Parser.current_token.
  destruct (nth_error tokens pos); intros [= _ <-]; lia.
Qed.

Lemma advances_eat token_type value : advances (Parser.eat tokens token_type value).
Proof.
  intros pos a pos'. unfold Parser.eat, Parser.bind, Parser.current_token.
  destruct (nth_error tokens pos) as [t|]; [|discriminate].
  destruct (Parser.mismatch t token_type value); [discriminate|].
  intros [= _ <-]. lia.
Qed.

(** A successful [eat] found a token under the cursor. *)
Lemma eat_in_range token_type value pos a pos' :
  Parser.eat tokens token_type value pos = Ok (a, pos') ->
  pos < List.length tokens /\ pos' = pos + 1.
Proof.
  unfold Parser.eat, Parser.bind, Parser.current_token.
  destruct (nth_error tokens pos) as [t|] eqn:E; [|discriminate].
  destruct (Parser.mismatch t token_type value); [discriminate|].
  intros [= _ <-]. split; [|reflexivity].
  apply nth_error_Some. congruence.
Qed.

Lemma monotone_binary_loop ops operand fuel :
  monotone operand ->
  forall left, monotone (Parser.binary_loop tokens ops operand fuel left).
Proof.
  intros Ho. induction fuel as [|fuel IH]; intros left; cbn [Parser.binary_loop].
  - apply advances_monotone, advances_out_of_fuel.
  - apply monotone_bind; [apply monotone_at_lexeme|]. intros [|].
    + apply monotone_bind; [apply advances_monotone, advances_eat|]. intros op.
      apply monotone_bind; [exact Ho|]. intros right. apply IH.
    + apply monotone_ret.
Qed.

Section Tiers.

Variable rec : Parser.parser expr.
Variable fuel : nat.
Hypothesis rec_monotone : monotone rec.

Lemma advances_parse_primary : advances (Parser.parse_primary tokens rec).
Proof.
  unfold Parser.parse_primary.
  apply advances_bind_r; [apply monotone_current_token|]. intros [[k v]|].
  - cbn [fst snd].
    assert (P : advances
                  (if String.eqb v "(" then
                     Parser.bind (Parser.eat tokens SYMBOL (Some "("))
                       (fun _ => Parser.bind rec (fun e =>
                          Parser.bind (Parser.eat tokens SYMBOL (Some ")"))
                            (fun _ => Parser.ret e)))
                   else Parser.raise (UnexpectedToken v))).
    { destruct (String.eqb v "("); [|apply advances_raise].
      apply advances_bind; [apply advances_eat|]. intros _.
      apply monotone_bind; [exact rec_monotone|]. intros e.
      apply monotone_bind; [apply advances_monotone, advances_eat|]. intros _.
      apply monotone_ret. }
    destruct k; try exact P.
    + apply advances_bind; [apply advances_eat|]. intros _. apply monotone_ret.
    + apply advances_bind; [apply advances_eat|]. intros _.
      destruct (PyStr.int v);
        [apply monotone_ret | apply advances_monotone, advances_raise].
  - apply advances_raise.
Qed.

Lemma advances_parse_multiplication :
  advances (Parser.parse_multiplication tokens rec fuel).
Proof.
  apply advances_bind; [apply advances_parse_primary|]. intros left.
  apply monotone_binary_loop, advances_monotone, advances_parse_primary.
Qed.

Lemma advances_parse_addition : advances (Parser.parse_addition tokens rec fuel).
Proof.
  apply advances_bind; [apply advances_parse_multiplication|]. intros left.
  apply monotone_binary_loop, advances_monotone, advances_parse_multiplication.
Qed.

Lemma advances_parse_comparison : advances (Parser.parse_comparison tokens rec fuel).
Proof.
  apply advances_bind; [apply advances_parse_addition|]. intros left.
  apply monotone_binary_loop, advances_monotone, advances_parse_addition.
Qed.

End Tiers.

Lemma advances_parse_expression fuel : advances (Parser.parse_expression tokens fuel).
Proof.
  induction fuel as [|fuel IH]; cbn [Parser.parse_expression].
  - apply advances_out_of_fuel.
  - apply advances_parse_comparison, advances_monotone, IH.
Qed.

End Progress.

Ltac parser_progress :=
  repeat match goal with
    | |- forall _, _ => intro
    | H : monotone ?m |- monotone ?m => exact H
    | H : advances ?m |- advances ?m => exact H
    | H : advances ?m |- monotone ?m => apply advances_monotone, H
    | |- advances (Parser.bind (Parser.eat _ _ _) _) =>
        apply advances_bind; [apply advances_eat|]
    | |- advances (Parser.bind _ _) => apply advances_bind_r
    | |- monotone (Parser.bind _ _) => apply monotone_bind
    | |- monotone (Parser.ret _) => apply monotone_ret
    | |- advances (Parser.raise _) => apply advances_raise
    | |- monotone (Parser.raise _) => apply advances_monotone, advances_raise
    | |- advances Parser.out_of_fuel => apply advances_out_of_fuel
    | |- monotone Parser.out_of_fuel => apply advances_monotone, advances_out_of_fuel
    | |- monotone (Parser.eat _ _ _) => apply advances_monotone, advances_eat
    | |- monotone (Parser.current_token _) => apply monotone_current_token
    | |- monotone (Parser.next_token _) => apply monotone_next_token
    | |- monotone (Parser.at_lexeme _ _) => apply monotone_at_lexeme
    | |- advances (Parser.parse_expression _ _) => apply advances_parse_expression
    | |- monotone (Parser.parse_expression _ _) =>
        apply advances_monotone, advances_parse_expression
    | |- advances (if ?b then _ else _) => destruct b
    | |- monotone (if ?b then _ else _) => destruct b
    | |- advances (match ?x with Some _ => _ | None => _ end) => destruct x
    | |- monotone (match ?x with Some _ => _ | None => _ end) => destruct x
    end.

Section StatementProgress.

Variable tokens : list token.

Lemma monotone_parse_block rec n :
  monotone rec ->
  forall statements, monotone (Parser.parse_block tokens rec n statements).
Proof.
  intros Hrec. induction n as [|n IH]; intros statements;
    cbn [Parser.parse_block]; parser_progress. apply IH.
Qed.

Lemma advances_parse_statement_body rec fuel :
  monotone rec -> advances (Parser.parse_statement_body tokens rec fuel).
Proof.
  intros Hrec.
  pose proof (monotone_parse_block rec fuel Hrec) as Hblock.
  unfold Parser.parse_statement_body, Parser.parse_return,
    Parser.parse_declaration, Parser.parse_assignment, Parser.parse_if,
    Parser.parse_while, Parser.is_assignment.
  parser_progress; apply Hblock.
Qed.

Lemma advances_parse_statement fuel : advances (Parser.parse_statement tokens fuel).
Proof.
  induction fuel as [|fuel IH]; cbn [Parser.parse_statement].
  - apply advances_out_of_fuel.
  - apply advances_parse_statement_body, advances_monotone, IH.
Qed.

Lemma advances_parse_function fuel : advances (Parser.parse_function tokens fuel).
Proof.
  pose proof (monotone_parse_block (Parser.parse_statement tokens fuel) fuel
                (advances_monotone _ (advances_parse_statement fuel))) as Hblock.
  unfold Parser.parse_function. parser_progress. apply Hblock.
Qed.

End StatementProgress.

Section Funding.

Variable tokens : list token.

Lemma funded_bind {A B} (m : Parser.parser A) (k : A -> Parser.parser B) pos :
  funded m pos ->
  (forall a pos', m pos = Ok (a, pos') -> funded (k a) pos') ->
  funded (Parser.bind m k) pos.
Proof.
  unfold funded, Parser.bind. intros Hm Hk.
  destruct (m pos) as [[a p]|e|]; [now apply Hk | discriminate | now elim Hm].
Qed.

Lemma funded_ret {A} (a : A) pos : funded (Parser.ret a) pos.
Proof. discriminate. Qed.

Lemma funded_raise {A} e pos : funded (@Parser.raise A e) pos.
Proof. discriminate. Qed.

Lemma funded_current_token pos : funded (Parser.current_token tokens) pos.
Proof. discriminate. Qed.

Lemma funded_next_token pos : funded (Parser.next_token tokens) pos.
Proof.
  unfold funded, Parser.next_token.
  destruct (nth_error tokens (pos + 1)); discriminate.
Qed.

Lemma funded_at_lexeme p pos : funded (Parser.at_lexeme tokens p) pos.
Proof.
  unfold funded, Parser.at_lexeme, Parser.bind, Parser.current_token.
  destruct (nth_error tokens pos); discriminate.
Qed.

Lemma funded_eat token_type value pos : funded (Parser.eat tokens token_type value) pos.
Proof.
  unfold funded, Parser.eat, Parser.bind, Parser.current_token.
  destruct (nth_error tokens pos) as [t|]; [|discriminate].
  destruct (Parser.mismatch t token_type value); discriminate.
Qed.

Lemma current_token_same pos a pos' :
  Parser.current_token tokens pos = Ok (a, pos') -> pos' = pos.
Proof. now intros [= _ <-]. Qed.

Lemma next_token_same pos a pos' :
  Parser.next_token tokens pos = Ok (a, pos') -> pos' = pos.
Proof.
  unfold Parser.next_token. destruct (nth_error tokens (pos + 1)); [|discriminate].
  now intros [= _ <-].
Qed.

(** The test of a loop leaves the cursor where it is, and holds only with
    a token under the cursor. *)
Lemma at_lexeme_same p pos b pos' :
  Parser.at_lexeme tokens p pos = Ok (b, pos') ->
  pos' = pos /\ (b = true -> pos < List.length tokens).
Proof.
  unfold Parser.at_lexeme, Parser.bind, Parser.current_token.
  destruct (nth_error tokens pos) as [t|] eqn:E; intros [= <- <-].
  - split; [reflexivity|]. intros _. apply nth_error_Some. congruence.
  - split; [reflexivity | discriminate].
Qed.

Lemma funded_binary_loop ops operand :
  advances operand ->
  forall fuel left pos,
    (forall q, pos <= q -> funded operand q) ->
    List.length tokens - pos < fuel ->
    funded (Parser.binary_loop tokens ops operand fuel left) pos.
Proof.
  intros Ha. induction fuel as [|fuel IH]; intros left pos Ho L; [lia|].
  cbn [Parser.binary_loop].
  apply funded_bind; [apply funded_at_lexeme|]. intros b p E.
  apply at_lexeme_same in E. destruct E as [-> T].
  destruct b; [|apply funded_ret]. specialize (T eq_refl).
  apply funded_bind; [apply funded_eat|]. intros op p1 E1.
  apply eat_in_range in E1. destruct E1 as [_ ->].
  apply funded_bind; [apply Ho; lia|]. intros right p2 E2.
  apply Ha in E2. apply IH; [|lia].
  intros q Hq. apply Ho. lia.
Qed.

Section Tiers.

Variable rec : Parser.parser expr.
Variable fuel : nat.
Hypothesis rec_monotone : monotone rec.
Hypothesis rec_funded : forall p, List.length tokens - p < fuel -> funded rec p.

Lemma funded_parse_primary pos :
  List.length tokens - pos < S fuel ->
  funded (Parser.parse_primary tokens rec) pos.
Proof.
  intros L. unfold Parser.parse_primary.
  apply funded_bind; [apply funded_current_token|]. intros [[k v]|] p E;
    [|apply funded_raise].
  apply current_token_same in E. subst p. cbn [fst snd].
  assert (P : funded
                (if String.eqb v "(" then
                   Parser.bind (Parser.eat tokens SYMBOL (Some "("))
                     (fun _ => Parser.bind rec (fun e =>
                        Parser.bind (Parser.eat tokens SYMBOL (Some ")"))
                          (fun _ => Parser.ret e)))
                 else Parser.raise (UnexpectedToken v)) pos).
  { destruct (String.eqb v "("); [|apply funded_raise].
    apply funded_bind; [apply funded_eat|]. intros t p E.
    apply eat_in_range in E. destruct E as [T ->].
    apply funded_bind; [apply rec_funded; lia|]. intros e p _.
    apply funded_bind; [apply funded_eat|]. intros _ p' _. apply funded_ret. }
  destruct k; try exact P.
  - apply funded_bind; [apply funded_eat|]. intros _ p _. apply funded_ret.
  - apply funded_bind; [apply funded_eat|]. intros _ p _.
    destruct (PyStr.int v); [apply funded_ret | apply funded_raise].
Qed.

Lemma funded_parse_multiplication pos :
  List.length tokens - pos < S fuel ->
  funded (Parser.parse_multiplication tokens rec (S fuel)) pos.
Proof.
  intros L. unfold Parser.parse_multiplication.
  apply funded_bind; [now apply funded_parse_primary|]. intros left p E.
  apply (advances_parse_primary tokens rec rec_monotone) in E.
  apply funded_binary_loop; [now apply advances_parse_primary| |lia].
  intros q Hq. apply funded_parse_primary. lia.
Qed.

Lemma funded_parse_addition pos :
  List.length tokens - pos < S fuel ->
  funded (Parser.parse_addition tokens rec (S fuel)) pos.
Proof.
  intros L. unfold Parser.parse_addition.
  apply funded_bind; [now apply funded_parse_multiplication|]. intros left p E.
  apply (advances_parse_multiplication tokens rec _ rec_monotone) in E.
  apply funded_binary_loop; [now apply advances_parse_multiplication| |lia].
  intros q Hq. apply funded_parse_multiplication. lia.
Qed.

Lemma funded_parse_comparison pos :
  List.length tokens - pos < S fuel ->
  funded (Parser.parse_comparison tokens rec (S fuel)) pos.
Proof.
  intros L. unfold Parser.parse_comparison.
  apply funded_bind; [now apply funded_parse_addition|]. intros left p E.
  apply (advances_parse_addition tokens rec _ rec_monotone) in E.
  apply funded_binary_loop; [now apply advances_parse_addition| |lia].
  intros q Hq. apply funded_parse_addition. lia.
Qed.

End Tiers.

(** [parse_expression] never exhausts a fuel larger than the number of
    tokens left. *)
Lemma funded_parse_expression fuel :
  forall pos,
    List.length tokens - pos < fuel ->
    funded (Parser.parse_expression tokens fuel) pos.
Proof.
  induction fuel as [|fuel IH]; intros pos L; [lia|].
  cbn [Parser.parse_expression].
  apply funded_parse_comparison; [|exact IH|exact L].
  apply advances_monotone, advances_parse_expression.
Qed.

End Funding.

Section StatementFunding.

Variable tokens : list token.

Lemma funded_parse_block rec :
  advances rec ->
  forall n statements pos,
    (forall q, pos <= q -> q < List.length tokens -> funded rec q) ->
    List.length tokens - pos < n ->
    funded (Parser.parse_block tokens rec n statements) pos.
Proof.
  intros Ha. induction n as [|n IH]; intros statements pos Hr L; [lia|].
  cbn [Parser.parse_block].
  apply funded_bind; [apply funded_at_lexeme|]. intros b p E.
  apply at_lexeme_same in E. destruct E as [-> T].
  destruct b; [|apply funded_ret]. specialize (T eq_refl).
  apply funded_bind; [apply Hr; lia|]. intros s p E.
  apply Ha in E. apply IH; [|lia].
  intros q Hq Hq'. apply Hr; lia.
Qed.

Ltac funded_step rec_advances rec_funded :=
  match goal with
  | |- funded (Parser.ret _) _ => apply funded_ret
  | |- funded (Parser.raise _) _ => apply funded_raise
  | |- funded (if ?b then _ else _) _ => destruct b
  | |- funded (Parser.bind (Parser.eat _ _ _) _) _ =>
      apply funded_bind; [apply funded_eat|];
      let E := fresh "E" in
      intros ? ? E; apply eat_in_range in E; destruct E as [? ->]
  | |- funded (Parser.bind (Parser.parse_expression _ _) _) _ =>
      apply funded_bind; [apply funded_parse_expression; lia|];
      let E := fresh "E" in
      intros ? ? E; apply advances_parse_expression in E
  | |- funded (Parser.bind (Parser.at_lexeme _ _) _) _ =>
      apply funded_bind; [apply funded_at_lexeme|];
      let E := fresh "E" in
      intros ? ? E; apply at_lexeme_same in E; destruct E as [-> ?]
  | |- funded (Parser.bind (Parser.next_token _) _) _ =>
      apply funded_bind; [apply funded_next_token|];
      let E := fresh "E" in
      intros ? ? E; apply next_token_same in E; subst
  | |- funded (Parser.bind (Parser.parse_block _ _ _ _) _) _ =>
      apply funded_bind;
      [apply funded_parse_block;
       [exact rec_advances | intros; apply rec_funded; lia | lia]|];
      let E := fresh "E" in
      intros ? ? E;
      apply (monotone_parse_block _ _ _ (advances_monotone _ rec_advances)) in E
  end.

Section Body.

Variable rec : Parser.parser stmt.
Variable fuel : nat.
Hypothesis rec_advances : advances rec.
Hypothesis rec_funded : forall p, List.length tokens - p < fuel -> funded rec p.

Lemma funded_parse_statement_body pos :
  List.length tokens - pos < S fuel ->
  funded (Parser.parse_statement_body tokens rec (S fuel)) pos.
Proof.
  intros L. unfold Parser.parse_statement_body.
  apply funded_bind; [apply funded_current_token|]. intros [token|] p E;
    [|apply funded_raise].
  apply current_token_same in E. subst p.
  unfold Parser.parse_return, Parser.parse_declaration, Parser.parse_assignment,
    Parser.parse_if, Parser.parse_while, Parser.is_assignment.
  destruct (Parser.is_keyword token "return");
    [repeat funded_step rec_advances rec_funded|].
  destruct (Parser.is_keyword token "int");
    [repeat funded_step rec_advances rec_funded|].
  apply funded_bind.
  { destruct (token_kind_eqb (fst token) IDENTIFIER);
      repeat funded_step rec_advances rec_funded. }
  intros assignment p E.
  assert (p = pos).
  { destruct (token_kind_eqb (fst token) IDENTIFIER).
    - unfold Parser.bind in E.
      destruct (Parser.next_token tokens pos) as [[t q]|e|] eqn:N; try discriminate E.
      apply next_token_same in N. subst q. now injection E as _ <-.
    - now injection E as _ <-. }
  subst p.
  repeat funded_step rec_advances rec_funded.
Qed.

End Body.

(** [parse_statement] never exhausts a fuel larger than the number of
    tokens left. *)
Lemma funded_parse_statement fuel :
  forall pos,
    List.length tokens - pos < fuel ->
    funded (Parser.parse_statement tokens fuel) pos.
Proof.
  induction fuel as [|fuel IH]; intros pos L; [lia|].
  cbn [Parser.parse_statement].
  apply funded_parse_statement_body; [apply advances_parse_statement|exact IH|exact L].
Qed.

Lemma funded_parse_function fuel pos :
  List.length tokens - pos < fuel ->
  funded (Parser.parse_function tokens fuel) pos.
Proof.
  intros L. unfold Parser.parse_function.
  pose proof (advances_parse_statement tokens fuel) as A.
  pose proof (funded_parse_statement fuel) as F.
  repeat funded_step A F.
Qed.

Lemma funded_parse_functions fuel :
  forall n functions pos,
    List.length tokens - pos < fuel ->
    List.length tokens - pos < n ->
    funded (Parser.parse_functions tokens fuel n functions) pos.
Proof.
  induction n as [|n IH]; intros functions pos L Ln; [lia|].
  cbn [Parser.parse_functions].
  apply funded_bind; [apply funded_at_lexeme|]. intros b p E.
  apply at_lexeme_same in E. destruct E as [-> T].
  destruct b; [|apply funded_ret]. specialize (T eq_refl).
  apply funded_bind; [now apply funded_parse_function|]. intros f p E.
  apply advances_parse_function in E. apply IH; lia.
Qed.

(** The parser always returns or raises: with the fuel that [parse] and
    [parse_expression_of] supply, no loop and no recursion of the model is
    cut short. *)
Theorem parse_program_terminates :
  Parser.parse tokens <> OutOfFuel
  /\ Parser.parse_expression_of tokens <> OutOfFuel.
Proof.
  unfold Parser.parse, Parser.parse_expression_of, Parser.run, Parser.enough.
  split.
  - assert (F : funded (Parser.parse_program tokens (S (List.length tokens))) 0).
    { unfold Parser.parse_program.
      apply funded_bind; [apply funded_parse_functions; lia|].
      intros fs p _. apply funded_ret. }
    unfold funded in F.
    destruct (Parser.parse_program tokens (S (List.length tokens)) 0)
      as [[a p]|e|]; [discriminate | discriminate | now elim F].
  - assert (F : funded (Parser.parse_expression tokens (S (List.length tokens))) 0)
      by (apply funded_parse_expression; lia).
    unfold funded in F.
    destruct (Parser.parse_expression tokens (S (List.length tokens)) 0)
      as [[a p]|e|]; [discriminate | discriminate | now elim F].
Qed.

End StatementFunding.

(* ================================================================== *)
(** * The parser: the claims *)

(** Precedence in general: in [a op1 b op2 c] with [op1] of the addition
    tier, [op2] of the multiplication tier and single-token operands, the
    product is parsed first and becomes the right operand of the sum. *)
Lemma parse_sum_of_product a b c ea eb ec op1 op2 :
  atom_expr a = Some ea -> atom_expr b = Some eb -> atom_expr c = Some ec ->
  In op1 Parser.addition_ops -> In op2 Parser.multiplication_ops ->
  Parser.parse_expression_of [a; (SYMBOL, op1); b; (SYMBOL, op2); c]
  = Ok (BinaryOp op1 ea (BinaryOp op2 eb ec)).
Proof.
  intros Ha Hb Hc H1 H2.
  set (tokens := [a; (SYMBOL, op1); b; (SYMBOL, op2); c] : list token).
  unfold Parser.parse_expression_of, Parser.run, Parser.enough. fold tokens.
  change (List.length tokens) with 5. cbn [Parser.parse_expression].
  set (rec := Parser.parse_expression tokens 5).
  assert (M1 : mem op1 Parser.multiplication_ops = false)
    by now apply addition_not_multiplication.
  assert (M1' : mem op1 Parser.addition_ops = true) by now apply mem_In.
  assert (M2 : mem op2 Parser.multiplication_ops = true) by now apply mem_In.
  assert (P : Parser.parse_multiplication tokens rec 6 2
              = Ok (BinaryOp op2 eb ec, 5)).
  { apply (tier_folds_left tokens rec 6 Multiplication 2 eb 3 [(op2, ec)] 5).
    - exact (parse_primary_atom tokens rec 2 b eb eq_refl Hb).
    - apply run_step with (p' := 5); [reflexivity | exact M2 | |].
      + exact (parse_primary_atom tokens rec 4 c ec eq_refl Hc).
      + apply run_stop. reflexivity.
    - simpl. lia. }
  assert (A : Parser.parse_addition tokens rec 6 0
              = Ok (BinaryOp op1 ea (BinaryOp op2 eb ec), 5)).
  { apply (tier_folds_left tokens rec 6 Addition 0 ea 1
             [(op1, BinaryOp op2 eb ec)] 5).
    - apply (parse_multiplication_atom tokens rec 5 0 a
               [(SYMBOL, op1); b; (SYMBOL, op2); c] ea eq_refl Ha).
      exact M1.
    - apply run_step with (p' := 5); [reflexivity | exact M1' | exact P |].
      apply run_stop. reflexivity.
    - simpl. lia. }
  unfold Parser.parse_comparison.
  rewrite (bind_ok _ _ _ _ _ A).
  now rewrite (binary_loop_stops tokens Parser.comparison_ops _ 5).
Qed.

(** C7.  The source [1+2*3] parses to
    [BinaryOp "+" 1 (BinaryOp "*" 2 3)]: the product is the right operand
    of the sum.  The result is the same for every fuel from 2 on; the
    tiers decide alone, [1*2+3] has the product on the left; and the same
    holds of every [a op1 b op2 c] with [op1] among [+], [-], [op2] among
    [*], [/] and single-token operands. *)
Theorem C7_multiplication_binds_tighter :
  Lexer.tokenize "1+2*3"
  = Ok [(NUMBER, "1"); (SYMBOL, "+"); (NUMBER, "2"); (SYMBOL, "*"); (NUMBER, "3")]
  /\ parse_expression_source "1+2*3"
     = Ok (BinaryOp "+" (Number 1) (BinaryOp "*" (Number 2) (Number 3)))
  /\ (forall fuel,
        Parser.run
          (Parser.parse_expression
             [(NUMBER, "1"); (SYMBOL, "+"); (NUMBER, "2"); (SYMBOL, "*");
              (NUMBER, "3")] (2 + fuel))
        = Ok (BinaryOp "+" (Number 1) (BinaryOp "*" (Number 2) (Number 3))))
  /\ parse_expression_source "1*2+3"
     = Ok (BinaryOp "+" (BinaryOp "*" (Number 1) (Number 2)) (Number 3))
  /\ (forall a b c ea eb ec op1 op2,
        atom_expr a = Some ea -> atom_expr b = Some eb -> atom_expr c = Some ec ->
        In op1 Parser.addition_ops -> In op2 Parser.multiplication_ops ->
        Parser.parse_expression_of [a; (SYMBOL, op1); b; (SYMBOL, op2); c]
        = Ok (BinaryOp op1 ea (BinaryOp op2 eb ec))).
Proof.
  split; [vm_compute; reflexivity|].
  split; [vm_compute; reflexivity|].
  split; [intros fuel; vm_compute; reflexivity|].
  split; [vm_compute; reflexivity|].
  exact parse_sum_of_product.
Qed.

Lemma C7_witness :
  Parser.parse_expression_of
    [(IDENTIFIER, "x"); (SYMBOL, "-"); (NUMBER, "6"); (SYMBOL, "/");
     (IDENTIFIER, "y")]
  = Ok (BinaryOp "-" (Var "x") (BinaryOp "/" (Number 6) (Var "y"))).
Proof.
  apply (proj2 (proj2 (proj2 (proj2 C7_multiplication_binds_tighter)))
           (IDENTIFIER, "x") (NUMBER, "6") (IDENTIFIER, "y")
           (Var "x") (Number 6) (Var "y") "-" "/");
    try reflexivity; simpl; auto.
Defined.

Lemma parse_statement_identifier_last (tokens : list token) pos name fuel :
  nth_error tokens pos = Some (IDENTIFIER, name) ->
  List.length tokens = pos + 1 ->
  Parser.parse_statement tokens (S fuel) pos = Raise IndexError.
Proof.
  intros N L. cbn [Parser.parse_statement].
  unfold Parser.parse_statement_body.
  unfold Parser.bind at 1. unfold Parser.current_token. rewrite N.
  cbn [Parser.is_keyword fst snd token_kind_eqb andb].
  unfold Parser.is_assignment. cbn [fst token_kind_eqb].
  assert (O : Parser.next_token tokens pos = Raise IndexError).
  { unfold Parser.next_token.
    assert (E : nth_error tokens (pos + 1) = None) by (apply nth_error_None; lia).
    now rewrite E. }
  now rewrite (bind_raise _ _ _ _ (bind_raise _ _ _ _ O)).
Qed.

(** An exception of a statement leaves the loop of its block: when the
    loop has parsed whole statements up to a cursor where
    [parse_statement] raises, the loop raises the same exception. *)
Lemma parse_block_raises (tokens : list token) fuel p q :
  block_reaches tokens fuel p q ->
  forall n statements t e,
    nth_error tokens q = Some t ->
    Parser.is_rbrace (snd t) = false ->
    Parser.parse_statement tokens fuel q = Raise e ->
    List.length tokens - p < n ->
    Parser.parse_block tokens (Parser.parse_statement tokens fuel) n statements p
    = Raise e.
Proof.
  induction 1 as [p|p p' q t0 s N0 B0 E0 R IH]; intros n statements t e N B E L.
  - destruct n as [|n]; [lia|]. cbn [Parser.parse_block].
    rewrite (bind_ok _ _ _ _ _ (at_lexeme_some tokens _ _ _ N)), B. cbn [negb].
    now apply bind_raise.
  - destruct n as [|n]; [lia|]. cbn [Parser.parse_block].
    rewrite (bind_ok _ _ _ _ _ (at_lexeme_some tokens _ _ _ N0)), B0. cbn [negb].
    rewrite (bind_ok _ _ _ _ _ E0).
    apply (IH n _ t e N B E).
    pose proof (advances_parse_statement tokens fuel _ _ _ E0).
    assert (p < List.length tokens) by (apply nth_error_Some; congruence).
    lia.
Qed.

(** C10.  With an IDENTIFIER as the last token under the cursor, the
    statement dispatcher indexes the token list at [pos + 1], past its end:
    [parse_statement] raises [IndexError].  The exception leaves the loop
    of the enclosing block, and, for a function body whose statements lead
    to that token, [parse] as a whole; [IndexError] is none of the errors
    of the specification's taxonomy. *)
Theorem C10_identifier_last_index_error :
  (forall (tokens : list token) pos name fuel,
      nth_error tokens pos = Some (IDENTIFIER, name) ->
      List.length tokens = pos + 1 ->
      Parser.parse_statement tokens (S fuel) pos = Raise IndexError)
  /\ (forall (tokens : list token) fuel p q name n statements,
        block_reaches tokens (S fuel) p q ->
        nth_error tokens q = Some (IDENTIFIER, name) ->
        Parser.is_rbrace name = false ->
        List.length tokens = q + 1 ->
        List.length tokens - p < n ->
        Parser.parse_block tokens (Parser.parse_statement tokens (S fuel))
          n statements p
        = Raise IndexError)
  /\ (forall fname body q name,
        let tokens : list token :=
          [(KEYWORD, "int"); (IDENTIFIER, fname); (SYMBOL, "(");
           (SYMBOL, ")"); (SYMBOL, "{")] ++ body in
        block_reaches tokens (Parser.enough tokens) 5 q ->
        nth_error tokens q = Some (IDENTIFIER, name) ->
        Parser.is_rbrace name = false ->
        List.length tokens = q + 1 ->
        Parser.parse tokens = Raise IndexError)
  /\ in_spec_taxonomy IndexError = false.
Proof.
  assert (B : forall (tokens : list token) fuel p q name n statements,
             block_reaches tokens (S fuel) p q ->
             nth_error tokens q = Some (IDENTIFIER, name) ->
             Parser.is_rbrace name = false ->
             List.length tokens = q + 1 ->
             List.length tokens - p < n ->
             Parser.parse_block tokens (Parser.parse_statement tokens (S fuel))
               n statements p
             = Raise IndexError).
  { intros tokens fuel p q name n statements R N Hn L Ln.
    apply (parse_block_raises tokens (S fuel) p q R n statements
                              (IDENTIFIER, name) IndexError N Hn); [|exact Ln].
    now apply (parse_statement_identifier_last tokens q name). }
  split; [exact parse_statement_identifier_last|].
  split; [exact B|].
  split; [|reflexivity].
  intros fname body q name tokens R N Hn L.
  unfold Parser.parse, Parser.run, Parser.parse_program.
  unfold Parser.enough in *. cbn [Parser.parse_functions].
  assert (T0 : nth_error tokens 0 = Some (KEYWORD, "int")) by reflexivity.
  unfold Parser.bind at 1.
  rewrite (bind_ok _ _ _ _ _ (at_lexeme_some tokens _ _ _ T0)).
  cbn [snd String.eqb Ascii.eqb Bool.eqb].
  unfold Parser.bind at 1. unfold Parser.parse_function.
  rewrite (bind_ok _ _ _ _ _
             (eat_ok tokens 0 (KEYWORD, "int") KEYWORD (Some "int") eq_refl eq_refl)).
  rewrite (bind_ok _ _ _ _ _
             (eat_ok tokens (0 + 1) (IDENTIFIER, fname) IDENTIFIER None eq_refl eq_refl)).
  rewrite (bind_ok _ _ _ _ _
             (eat_ok tokens (0 + 1 + 1) (SYMBOL, "(") SYMBOL (Some "(") eq_refl eq_refl)).
  rewrite (bind_ok _ _ _ _ _
             (eat_ok tokens (0 + 1 + 1 + 1) (SYMBOL, ")") SYMBOL (Some ")") eq_refl eq_refl)).
  rewrite (bind_ok _ _ _ _ _
             (eat_ok tokens (0 + 1 + 1 + 1 + 1) (SYMBOL, "{") SYMBOL (Some "{") eq_refl eq_refl)).
  change (0 + 1 + 1 + 1 + 1 + 1) with 5.
  rewrite (bind_raise _ _ _ _
             (B tokens (List.length tokens) 5 q name (S (List.length tokens)) []
                R N Hn L ltac:(lia))).
  reflexivity.
Qed.

Lemma C10_witness :
  Lexer.tokenize "int main() { int a; a"
  = Ok ([(KEYWORD, "int"); (IDENTIFIER, "main"); (SYMBOL, "(");
         (SYMBOL, ")"); (SYMBOL, "{")]
        ++ [(KEYWORD, "int"); (IDENTIFIER, "a"); (SYMBOL, ";"); (IDENTIFIER, "a")])
  /\ Parser.parse
       ([(KEYWORD, "int"); (IDENTIFIER, "main"); (SYMBOL, "(");
         (SYMBOL, ")"); (SYMBOL, "{")]
        ++ [(KEYWORD, "int"); (IDENTIFIER, "a"); (SYMBOL, ";"); (IDENTIFIER, "a")])
     = Raise IndexError.
Proof.
  split; [vm_compute; reflexivity|].
  apply (proj1 (proj2 (proj2 C10_identifier_last_index_error))
           "main"
           [(KEYWORD, "int"); (IDENTIFIER, "a"); (SYMBOL, ";"); (IDENTIFIER, "a")]
           8 "a").
  - eapply reaches_next with (p' := 8);
      [reflexivity | reflexivity | vm_compute; reflexivity | apply reaches_here].
  - reflexivity.
  - reflexivity.
  - reflexivity.
Defined.

(** The loop of a block returns at the cursor where its test fails. *)
Lemma parse_block_returns (tokens : list token) fuel p q :
  block_reaches tokens fuel p q ->
  forall n statements,
    Parser.at_lexeme tokens (fun v => negb (Parser.is_rbrace v)) q = Ok (false, q) ->
    List.length tokens - p < n ->
    exists statements',
      Parser.parse_block tokens (Parser.parse_statement tokens fuel) n statements p
      = Ok (statements', q).
Proof.
  induction 1 as [p|p p' q t0 s N0 B0 E0 R IH]; intros n statements T L.
  - destruct n as [|n]; [lia|]. cbn [Parser.parse_block].
    rewrite (bind_ok _ _ _ _ _ T). now exists statements.
  - destruct n as [|n]; [lia|]. cbn [Parser.parse_block].
    rewrite (bind_ok _ _ _ _ _ (at_lexeme_some tokens _ _ _ N0)), B0. cbn [negb].
    rewrite (bind_ok _ _ _ _ _ E0).
    apply IH; [exact T|].
    pose proof (advances_parse_statement tokens fuel _ _ _ E0).
    assert (p < List.length tokens) by (apply nth_error_Some; congruence).
    lia.
Qed.

(** The part of scenario E that the code honours: when the statements of
    the function body are whole and the input ends where the closing brace
    is due, [parse] raises the end-of-file exception. *)
Lemma missing_brace_after_whole_statements fname body :
  let tokens : list token :=
    [(KEYWORD, "int"); (IDENTIFIER, fname); (SYMBOL, "(");
     (SYMBOL, ")"); (SYMBOL, "{")] ++ body in
  block_reaches tokens (Parser.enough tokens) 5 (List.length tokens) ->
  Parser.parse tokens = Raise UnexpectedEOF.
Proof.
  intros tokens R.
  assert (End : nth_error tokens (List.length tokens) = None)
    by (apply nth_error_None; lia).
  destruct (parse_block_returns tokens _ 5 _ R (S (List.length tokens)) []
              (at_lexeme_none tokens _ _ End) ltac:(lia)) as [statements B].
  unfold Parser.parse, Parser.run, Parser.parse_program.
  unfold Parser.enough in *. cbn [Parser.parse_functions].
  assert (T0 : nth_error tokens 0 = Some (KEYWORD, "int")) by reflexivity.
  unfold Parser.bind at 1.
  rewrite (bind_ok _ _ _ _ _ (at_lexeme_some tokens _ _ _ T0)).
  cbn [snd String.eqb Ascii.eqb Bool.eqb].
  unfold Parser.bind at 1. unfold Parser.parse_function.
  rewrite (bind_ok _ _ _ _ _
             (eat_ok tokens 0 (KEYWORD, "int") KEYWORD (Some "int") eq_refl eq_refl)).
  rewrite (bind_ok _ _ _ _ _
             (eat_ok tokens (0 + 1) (IDENTIFIER, fname) IDENTIFIER None eq_refl eq_refl)).
  rewrite (bind_ok _ _ _ _ _
             (eat_ok tokens (0 + 1 + 1) (SYMBOL, "(") SYMBOL (Some "(") eq_refl eq_refl)).
  rewrite (bind_ok _ _ _ _ _
             (eat_ok tokens (0 + 1 + 1 + 1) (SYMBOL, ")") SYMBOL (Some ")") eq_refl eq_refl)).
  rewrite (bind_ok _ _ _ _ _
             (eat_ok tokens (0 + 1 + 1 + 1 + 1) (SYMBOL, "{") SYMBOL (Some "{") eq_refl eq_refl)).
  change (0 + 1 + 1 + 1 + 1 + 1) with 5.
  rewrite (bind_ok _ _ _ _ _ B).
  rewrite (bind_raise _ _ _ _ (eat_eof tokens _ SYMBOL (Some "}") End)).
  reflexivity.
Qed.

(** C3 on the code.  Where the end of input is met by [eat], the parser
    raises the end-of-file exception; where it is met by the look-ahead of
    the statement dispatcher or by [parse_primary], which use the token
    without the test, a source without its closing brace ends in an
    [IndexError] or a [TypeError] instead. *)
Theorem C3_missing_brace_outcomes :
  parse_source "int main() { int a; a = 1;" = Raise UnexpectedEOF
  /\ parse_source "int main() { return 1" = Raise UnexpectedEOF
  /\ parse_source "int main() { int a; a" = Raise IndexError
  /\ parse_source "int main() { return" = Raise TypeError
  /\ in_spec_taxonomy IndexError = false
  /\ in_spec_taxonomy TypeError = false.
Proof. vm_compute. repeat split. Qed.

(* ================================================================== *)
(** * More on the lexer *)

Lemma remove_spaces_app_run (p : ascii -> bool) w s :
  (forall c, p c = true -> PyStr.isspace c = false) ->
  all_chars p w = true ->
  remove_spaces (w ++ s)%string = (w ++ remove_spaces s)%string.
Proof.
  intros Hp. induction w as [|c w IH]; simpl; [reflexivity|].
  intros A. apply andb_prop in A. destruct A as [Hc A].
  rewrite (Hp c Hc), (IH A). reflexivity.
Qed.

Lemma symbol_chars sym :
  In sym Lexer.symbols ->
  all_chars (fun c => negb (PyStr.isspace c)) sym = true /\ sym <> EmptyString.
Proof.
  intros H. simpl in H.
  repeat (destruct H as [<-|H]; [split; [reflexivity | discriminate]|]).
  contradiction.
Qed.

Lemma lexemes_snoc tokens t :
  lexemes (tokens ++ [t]) = (lexemes tokens ++ snd t)%string.
Proof.
  induction tokens as [|t0 tokens IH]; simpl.
  - now rewrite append_nil_r.
  - rewrite IH. now rewrite append_assoc_string.
Qed.

Lemma tokenize_step_lexemes c rest tokens rest' tokens' :
  Lexer.tokenize_step c rest tokens = Lexer.Continue rest' tokens' ->
  (lexemes tokens' ++ remove_spaces rest')%string
  = (lexemes tokens ++ remove_spaces (String c rest))%string.
Proof.
  unfold Lexer.tokenize_step.
  destruct (PyStr.isspace c) eqn:Hs.
  { intros [= <- <-]. simpl. now rewrite Hs. }
  destruct (PyStr.isalpha c).
  { destruct (span_spec Lexer.ident_char (String c rest)) as [E A].
    destruct (PyStr.span Lexer.ident_char (String c rest)) as [w r].
    cbn [fst snd] in E, A. rewrite E.
    rewrite (remove_spaces_app_run _ w r ident_not_space A).
    destruct (mem w Lexer.keywords); intros [= <- <-];
      rewrite lexemes_snoc; apply append_assoc_string. }
  destruct (PyStr.isdigit c).
  { destruct (span_spec PyStr.isdigit (String c rest)) as [E A].
    destruct (PyStr.span PyStr.isdigit (String c rest)) as [w r].
    cbn [fst snd] in E, A. rewrite E.
    rewrite (remove_spaces_app_run _ w r
               (fun d H => ident_not_space d (digit_ident d H)) A).
    intros [= <- <-]. rewrite lexemes_snoc. apply append_assoc_string. }
  destruct (Lexer.first_match _ _) as [sym|] eqn:M; [|discriminate].
  intros [= <- <-]. apply first_match_Some in M. destruct M as [I P].
  apply sorted_symbols_In in I.
  rewrite (prefix_skip _ _ P) at 2.
  rewrite (remove_spaces_app_run (fun c => negb (PyStr.isspace c)) sym).
  - rewrite lexemes_snoc. apply append_assoc_string.
  - intros d Hd. now destruct (PyStr.isspace d).
  - now apply symbol_chars.
Qed.

Lemma tokenize_loop_lexemes fuel rest tokens result :
  Lexer.tokenize_loop fuel rest tokens = Ok result ->
  lexemes result = (lexemes tokens ++ remove_spaces rest)%string.
Proof.
  revert rest tokens. induction fuel as [|fuel IH]; intros rest tokens; [discriminate|].
  destruct rest as [|c rest]; cbn [Lexer.tokenize_loop].
  - intros [= <-]. simpl. now rewrite append_nil_r.
  - destruct (Lexer.tokenize_step c rest tokens) as [r t|e] eqn:E; [|discriminate].
    intros H. rewrite (IH _ _ H). now apply tokenize_step_lexemes.
Qed.

(** X1.  The lexemes of the tokens that [tokenize] returns, written one
    after the other, are the source text with its whitespace removed:
    nothing but whitespace is dropped, nothing is added, nothing is
    reordered. *)
Theorem X1_lexemes_are_the_source :
  forall code tokens,
    Lexer.tokenize code = Ok tokens ->
    lexemes tokens = remove_spaces code.
Proof.
  intros code tokens H. apply tokenize_loop_lexemes in H. exact H.
Qed.

Lemma X1_witness :
  Lexer.tokenize "a1=b ==2;" =
    Ok [(IDENTIFIER, "a1"); (SYMBOL, "="); (IDENTIFIER, "b"); (SYMBOL, "==");
        (NUMBER, "2"); (SYMBOL, ";")]
  /\ lexemes [(IDENTIFIER, "a1"); (SYMBOL, "="); (IDENTIFIER, "b");
              (SYMBOL, "=="); (NUMBER, "2"); (SYMBOL, ";")]
     = remove_spaces "a1=b ==2;".
Proof.
  split; [vm_compute; reflexivity|].
  apply (X1_lexemes_are_the_source "a1=b ==2;"). vm_compute. reflexivity.
Defined.

Lemma isalpha_first_ident c rest :
  PyStr.isalpha c = true ->
  first_char_is PyStr.isalpha (fst (PyStr.span Lexer.ident_char (String c rest)))
  = true.
Proof.
  intros Ha. destruct (span_head Lexer.ident_char c rest (isalpha_ident_char c Ha))
    as [run R]. rewrite R. exact Ha.
Qed.

Lemma tokenize_step_well_formed c rest tokens rest' tokens' :
  Forall well_formed tokens ->
  Lexer.tokenize_step c rest tokens = Lexer.Continue rest' tokens' ->
  Forall well_formed tokens'.
Proof.
  intros Htok. unfold Lexer.tokenize_step.
  destruct (PyStr.isspace c); [now intros [= _ <-]|].
  destruct (PyStr.isalpha c) eqn:Ha.
  { pose proof (isalpha_first_ident c rest Ha) as F.
    destruct (span_spec Lexer.ident_char (String c rest)) as [_ A].
    destruct (PyStr.span Lexer.ident_char (String c rest)) as [w r].
    cbn [fst snd] in F, A.
    destruct (mem w Lexer.keywords) eqn:Hk; intros [= _ <-];
      apply Forall_app; (split; [assumption|]); constructor; auto;
      unfold well_formed; cbn [fst snd]; [now apply mem_In | auto]. }
  destruct (PyStr.isdigit c) eqn:Hd.
  { destruct (span_head PyStr.isdigit c rest Hd) as [run R].
    destruct (span_spec PyStr.isdigit (String c rest)) as [_ A].
    destruct (PyStr.span PyStr.isdigit (String c rest)) as [w r].
    cbn [fst snd] in R, A. intros [= _ <-].
    apply Forall_app; (split; [assumption|]); constructor; auto.
    unfold well_formed; cbn [fst snd]. split; [|exact A]. now rewrite R. }
  destruct (Lexer.first_match _ _) as [sym|] eqn:Hm; [|discriminate].
  intros [= _ <-]. apply Forall_app; (split; [assumption|]). constructor; auto.
  apply first_match_Some in Hm. destruct Hm as [Hin _].
  now apply sorted_symbols_In in Hin.
Qed.

Lemma tokenize_loop_well_formed fuel rest tokens result :
  Forall well_formed tokens ->
  Lexer.tokenize_loop fuel rest tokens = Ok result ->
  Forall well_formed result.
Proof.
  revert rest tokens. induction fuel as [|fuel IH]; intros rest tokens Htok; [discriminate|].
  destruct rest as [|c rest]; cbn [Lexer.tokenize_loop]; [now intros [= <-]|].
  destruct (Lexer.tokenize_step c rest tokens) as [r t|e] eqn:E; [|discriminate].
  apply IH. now apply (tokenize_step_well_formed c rest tokens r t).
Qed.

(** X2.  Every token that [tokenize] returns is well formed for its kind:
    a KEYWORD is one of the five keywords; an IDENTIFIER starts with a
    letter, consists of alphanumeric characters and underscores only, and
    is not a keyword; a NUMBER is a non-empty run of [isdigit] characters;
    a SYMBOL is one of the registered symbols. *)
Theorem X2_tokens_well_formed :
  forall code tokens,
    Lexer.tokenize code = Ok tokens -> Forall well_formed tokens.
Proof.
  intros code tokens H.
  apply (tokenize_loop_well_formed _ _ [] tokens (Forall_nil _) H).
Qed.

Lemma X2_witness :
  Forall well_formed
         [(KEYWORD, "int"); (IDENTIFIER, "x_1"); (SYMBOL, "=");
          (NUMBER, "42"); (SYMBOL, ";")].
Proof.
  apply (X2_tokens_well_formed "int x_1 = 42;"). vm_compute. reflexivity.
Defined.

(** ** The lexical error *)

Lemma tokenize_step_stop c rest tokens e :
  Lexer.tokenize_step c rest tokens = Lexer.Stop e ->
  e = UnknownChar c /\ no_rule_applies c rest.
Proof.
  unfold Lexer.tokenize_step, no_rule_applies.
  destruct (PyStr.isspace c); [discriminate|].
  destruct (PyStr.isalpha c); [|].
  { destruct (PyStr.span Lexer.ident_char (String c rest)) as [w r].
    destruct (mem w Lexer.keywords); discriminate. }
  destruct (PyStr.isdigit c).
  { destruct (PyStr.span PyStr.isdigit (String c rest)) as [w r]. discriminate. }
  destruct (Lexer.first_match _ _) as [sym|] eqn:M; [discriminate|].
  intros [= <-]. repeat (split; [reflexivity|]).
  intros sym I. apply (first_match_None _ _ M). now apply sorted_symbols_In.
Qed.

Lemma tokenize_loop_raises fuel rest tokens e :
  Lexer.tokenize_loop fuel rest tokens = Raise e ->
  exists pre c rest',
    rest = (pre ++ String c rest')%string
    /\ e = UnknownChar c /\ no_rule_applies c rest'.
Proof.
  revert rest tokens. induction fuel as [|fuel IH]; intros rest tokens; [discriminate|].
  destruct rest as [|c rest]; cbn [Lexer.tokenize_loop]; [discriminate|].
  destruct (Lexer.tokenize_step c rest tokens) as [r t|e'] eqn:E.
  - intros H. destruct (IH _ _ H) as (pre & d & rest' & -> & He & N).
    destruct (tokenize_step_consumes _ _ _ _ _ E) as [consumed C].
    exists (consumed ++ pre)%string, d, rest'.
    rewrite C, append_assoc_string. auto.
  - intros [= <-]. destruct (tokenize_step_stop _ _ _ _ E) as [-> N].
    exists EmptyString, c, rest. auto.
Qed.

(** X3.  [tokenize] never fails in any other way than with the
    unknown-character exception, and that exception names a character that
    occurs in the source at a place where no rule applies: it is no
    whitespace, no letter, no digit, and no registered symbol starts
    there.  On every other input [tokenize] returns its token list. *)
Theorem X3_only_unknown_character_errors :
  forall code,
    (exists tokens, Lexer.tokenize code = Ok tokens)
    \/ (exists pre c rest,
          code = (pre ++ String c rest)%string
          /\ Lexer.tokenize code = Raise (UnknownChar c)
          /\ no_rule_applies c rest).
Proof.
  intros code. destruct (Lexer.tokenize code) as [tokens|e|] eqn:T.
  - left. now exists tokens.
  - right. destruct (tokenize_loop_raises _ _ _ _ T) as (pre & c & rest & E & -> & N).
    exists pre, c, rest. auto.
  - now elim (tokenize_terminates code).
Qed.

(** ** Whitespace separates *)

Lemma first_match_sep d pre c rest :
  "="%char <> c ->
  Lexer.first_match (Lexer.sorted_by_len Lexer.symbols)
                    (String d pre ++ String c rest)%string
  = Lexer.first_match (Lexer.sorted_by_len Lexer.symbols) (String d pre).
Proof.
  intros E.
  change (Lexer.sorted_by_len Lexer.symbols)
    with ["=="; "!="; "="; ";"; "("; ")"; "{"; "}"; "+"; "-"; "*"; "/"; "<"; ">"].
  assert (P : forall s, String.prefix "" s = true) by now intros [|? ?].
  destruct pre as [|e pre]; cbn -[ascii_dec]; rewrite ?P;
    repeat match goal with
           | |- context [ascii_dec ?a ?b] => destruct (ascii_dec a b)
           end; congruence.
Qed.

Lemma tokenize_step_sep d pre tokens c rest :
  PyStr.isspace c = true ->
  Lexer.tokenize_step d (pre ++ String c rest)%string tokens
  = match Lexer.tokenize_step d pre tokens with
    | Lexer.Continue r t => Lexer.Continue (r ++ String c rest)%string t
    | Lexer.Stop e => Lexer.Stop e
    end.
Proof.
  intros S. unfold Lexer.tokenize_step.
  destruct (PyStr.isspace d); [reflexivity|].
  change (String d (pre ++ String c rest)%string)
    with (String d pre ++ String c rest)%string.
  destruct (PyStr.isalpha d).
  { rewrite (span_app _ _ _ _ (space_not_ident c S)).
    destruct (PyStr.span Lexer.ident_char (String d pre)) as [w r']. cbn [fst snd].
    now destruct (mem w Lexer.keywords). }
  destruct (PyStr.isdigit d).
  { rewrite (span_app _ _ _ _ (space_not_digit c S)).
    now destruct (PyStr.span PyStr.isdigit (String d pre)) as [w r']. }
  rewrite (first_match_sep _ _ _ _ (space_not_eq c S)).
  destruct (Lexer.first_match _ (String d pre)) as [sym|] eqn:M; [|reflexivity].
  apply first_match_Some in M. destruct M as [_ M].
  now rewrite (skip_app _ _ _ M).
Qed.

Lemma tokenize_loop_then fuel pre tokens result c rest fuel2 r :
  PyStr.isspace c = true ->
  Lexer.tokenize_loop fuel pre tokens = Ok result ->
  Lexer.tokenize_loop fuel2 (String c rest) result = r -> r <> OutOfFuel ->
  Lexer.tokenize_loop (fuel + fuel2) (pre ++ String c rest)%string tokens = r.
Proof.
  intros S. revert pre tokens.
  induction fuel as [|fuel IH]; intros pre tokens; [discriminate|].
  destruct pre as [|d pre].
  - intros [= <-] R N. rewrite <- R. apply tokenize_loop_more; [lia|].
    now rewrite R.
  - cbn [Lexer.tokenize_loop append Nat.add].
    rewrite (tokenize_step_sep _ _ _ _ _ S).
    destruct (Lexer.tokenize_step d pre tokens) as [r' t|e]; [|discriminate].
    apply IH.
Qed.

Lemma tokenize_loop_raise_sep fuel pre tokens e c rest :
  PyStr.isspace c = true ->
  Lexer.tokenize_loop fuel pre tokens = Raise e ->
  Lexer.tokenize_loop fuel (pre ++ String c rest)%string tokens = Raise e.
Proof.
  intros S. revert pre tokens.
  induction fuel as [|fuel IH]; intros pre tokens; [discriminate|].
  destruct pre as [|d pre]; [discriminate|].
  cbn [Lexer.tokenize_loop append].
  rewrite (tokenize_step_sep _ _ _ _ _ S).
  destruct (Lexer.tokenize_step d pre tokens) as [r' t|e']; [apply IH | auto].
Qed.

Lemma tokenize_step_acc c rest acc tokens :
  Lexer.tokenize_step c rest (acc ++ tokens)
  = match Lexer.tokenize_step c rest tokens with
    | Lexer.Continue r t => Lexer.Continue r (acc ++ t)
    | Lexer.Stop e => Lexer.Stop e
    end.
Proof.
  unfold Lexer.tokenize_step.
  destruct (PyStr.isspace c); [reflexivity|].
  destruct (PyStr.isalpha c).
  { destruct (PyStr.span Lexer.ident_char (String c rest)) as [w r].
    destruct (mem w Lexer.keywords); now rewrite app_assoc. }
  destruct (PyStr.isdigit c).
  { destruct (PyStr.span PyStr.isdigit (String c rest)) as [w r].
    now rewrite app_assoc. }
  destruct (Lexer.first_match _ _); [now rewrite app_assoc | reflexivity].
Qed.

Lemma tokenize_loop_acc fuel rest acc tokens :
  Lexer.tokenize_loop fuel rest (acc ++ tokens)
  = match Lexer.tokenize_loop fuel rest tokens with
    | Ok result => Ok (acc ++ result)
    | Raise e => Raise e
    | OutOfFuel => OutOfFuel
    end.
Proof.
  revert rest tokens. induction fuel as [|fuel IH]; intros rest tokens; [reflexivity|].
  destruct rest as [|c rest]; cbn [Lexer.tokenize_loop]; [reflexivity|].
  rewrite tokenize_step_acc.
  destruct (Lexer.tokenize_step c rest tokens) as [r t|e]; [apply IH | reflexivity].
Qed.

(** X4.  Whitespace separates: the tokens of two texts joined by a
    whitespace character are the tokens of the first followed by the tokens
    of the second, and if one of the two texts has a lexical error, the
    joined text has that error (the one of the first text if both have
    one). *)
Theorem X4_whitespace_separates :
  forall a c b,
    PyStr.isspace c = true ->
    Lexer.tokenize (a ++ String c b)%string = tokenize_both a b.
Proof.
  intros a c b Hs. unfold tokenize_both.
  pose proof (tokenize_terminates (a ++ String c b)%string) as T.
  pose proof (tokenize_terminates b) as Tb.
  unfold Lexer.tokenize in *.
  assert (L : String.length (a ++ String c b)%string
              = String.length a + S (String.length b))
    by now rewrite length_app.
  destruct (Lexer.tokenize_loop (S (String.length a)) a []) as [ta|e|] eqn:A.
  - rewrite L in *.
    assert (F : S (String.length a + S (String.length b))
                <= S (String.length a) + S (S (String.length b))) by lia.
    rewrite <- (tokenize_loop_more _ _ _ _ F T).
    apply (tokenize_loop_then _ _ _ ta _ _ _ _ Hs A).
    + assert (One : forall f t, Lexer.tokenize_loop (S f) (String c b) t
                                = Lexer.tokenize_loop f b t).
      { intros f t. cbn [Lexer.tokenize_loop]. unfold Lexer.tokenize_step.
        now rewrite Hs. }
      rewrite One.
      rewrite <- (app_nil_r ta) at 1. apply tokenize_loop_acc.
    + destruct (Lexer.tokenize_loop (S (String.length b)) b []);
        [discriminate | discriminate | now elim Tb].
  - rewrite L in *. rewrite (tokenize_loop_more (S (String.length a))); [|lia|].
    + now apply tokenize_loop_raise_sep.
    + now rewrite (tokenize_loop_raise_sep _ _ _ _ c b Hs A).
  - now elim (tokenize_terminates a).
Qed.

Lemma X4_witness :
  Lexer.tokenize ("x=1" ++ String "010" "y=2")%string
  = Ok [(IDENTIFIER, "x"); (SYMBOL, "="); (NUMBER, "1");
        (IDENTIFIER, "y"); (SYMBOL, "="); (NUMBER, "2")].
Proof.
  rewrite (X4_whitespace_separates "x=1" "010" "y=2"); reflexivity.
Defined.

(** ** Printing tokens and reading them back *)

Lemma skip_append w s : PyStr.skip (String.length w) (w ++ s)%string = s.
Proof. induction w as [|c w IH]; simpl; auto. Qed.

Lemma space_step f rest tokens :
  Lexer.tokenize_loop (S f) (String " " rest) tokens
  = Lexer.tokenize_loop f rest tokens.
Proof. reflexivity. Qed.

Lemma keyword_shape w :
  In w Lexer.keywords ->
  first_char_is PyStr.isalpha w = true
  /\ all_chars Lexer.ident_char w = true.
Proof.
  intros H. simpl in H.
  repeat (destruct H as [<-|H]; [split; vm_compute; reflexivity|]).
  contradiction.
Qed.

Lemma word_step c w rest tokens :
  PyStr.isalpha c = true ->
  all_chars Lexer.ident_char (String c w) = true ->
  Lexer.tokenize_step c (w ++ String " " rest)%string tokens
  = Lexer.Continue (String " " rest)
      (tokens ++ [(if mem (String c w) Lexer.keywords then KEYWORD else IDENTIFIER,
                   String c w)]).
Proof.
  intros Ha A. unfold Lexer.tokenize_step.
  destruct (char_classes c) as [C _]. rewrite Ha in C.
  destruct (PyStr.isspace c); [now rewrite !orb_true_r in C|].
  rewrite Ha.
  change (String c (w ++ String " " rest)%string)
    with (String c w ++ String " " rest)%string.
  rewrite (span_all Lexer.ident_char (String c w) " " rest A eq_refl).
  now destruct (mem (String c w) Lexer.keywords).
Qed.

Lemma number_step c w rest tokens :
  all_chars PyStr.isdigit (String c w) = true ->
  Lexer.tokenize_step c (w ++ String " " rest)%string tokens
  = Lexer.Continue (String " " rest) (tokens ++ [(NUMBER, String c w)]).
Proof.
  intros A. unfold Lexer.tokenize_step.
  assert (Hd : PyStr.isdigit c = true).
  { simpl in A. now apply andb_prop in A. }
  rewrite (ident_not_space c (digit_ident c Hd)), (digit_not_alpha c Hd), Hd.
  change (String c (w ++ String " " rest)%string)
    with (String c w ++ String " " rest)%string.
  now rewrite (span_all PyStr.isdigit (String c w) " " rest A eq_refl).
Qed.

Lemma symbol_step sym rest tokens :
  In sym Lexer.symbols ->
  exists c w,
    sym = String c w
    /\ Lexer.tokenize_step c (w ++ String " " rest)%string tokens
       = Lexer.Continue (String " " rest) (tokens ++ [(SYMBOL, sym)]).
Proof.
  intros H. simpl in H.
  repeat (destruct H as [<-|H];
          [eexists; eexists; split; [reflexivity|];
           unfold Lexer.tokenize_step;
           match goal with
           | |- context [Lexer.first_match ?l (String ?c (?w ++ ?r)%string)] =>
               change (PyStr.isspace c) with false;
               change (PyStr.isalpha c) with false;
               change (PyStr.isdigit c) with false;
               replace (Lexer.first_match l (String c (w ++ r)%string))
                 with (Some (String c w)) by (vm_compute; reflexivity)
           end;
           cbv iota; reflexivity|]).
  contradiction.
Qed.

Lemma token_step t rest tokens f :
  well_formed t ->
  Lexer.tokenize_loop (S (S f)) (snd t ++ String " " rest)%string tokens
  = Lexer.tokenize_loop f rest (tokens ++ [t]).
Proof.
  destruct t as [k w]. unfold well_formed. cbn [fst snd].
  assert (Word : first_char_is PyStr.isalpha w = true ->
                 all_chars Lexer.ident_char w = true ->
                 Lexer.tokenize_loop (S (S f)) (w ++ String " " rest)%string tokens
                 = Lexer.tokenize_loop f rest
                     (tokens ++ [(if mem w Lexer.keywords
                                  then KEYWORD else IDENTIFIER, w)])).
  { destruct w as [|c w]; [discriminate|]. intros Ha A.
    cbn [Lexer.tokenize_loop append]. now rewrite (word_step c w rest tokens Ha A). }
  destruct k.
  - intros I. destruct (keyword_shape w I) as [Ha A].
    rewrite (Word Ha A). apply mem_In in I. now rewrite I.
  - intros (Ha & A & N). rewrite (Word Ha A). now rewrite N.
  - intros [Hd A]. destruct w as [|c w]; [discriminate|].
    cbn [Lexer.tokenize_loop append]. now rewrite (number_step c w rest tokens A).
  - intros I. destruct (symbol_step w rest tokens I) as (c & w' & -> & E).
    cbn [Lexer.tokenize_loop append]. now rewrite E.
Qed.

Lemma tokenize_loop_unlex tokens acc :
  Forall well_formed tokens ->
  Lexer.tokenize_loop (S (2 * List.length tokens)) (unlex tokens) acc
  = Ok (acc ++ tokens).
Proof.
  intros W. revert acc. induction W as [|t tokens Wt W IH]; intros acc.
  - simpl. now rewrite app_nil_r.
  - cbn [unlex fold_right]. fold (unlex tokens).
    replace (S (2 * List.length (t :: tokens)))
      with (S (S (S (2 * List.length tokens)))) by (simpl; lia).
    rewrite (token_step t _ acc _ Wt), IH, <- app_assoc. reflexivity.
Qed.

Lemma tokenize_unlex tokens :
  Forall well_formed tokens -> Lexer.tokenize (unlex tokens) = Ok tokens.
Proof.
  intros W. pose proof (tokenize_loop_unlex tokens [] W) as R.
  pose proof (tokenize_terminates (unlex tokens)) as T.
  unfold Lexer.tokenize in *. cbn [app] in R.
  destruct (Nat.le_ge_cases (S (2 * List.length tokens))
                            (S (String.length (unlex tokens)))) as [L|L].
  - rewrite (tokenize_loop_more _ _ _ _ L); [exact R | now rewrite R].
  - rewrite <- (tokenize_loop_more _ _ _ _ L T). exact R.
Qed.

(** X5.  Printing and lexing are inverse on exactly the well-formed token
    lists: [tokenize] returns a token list from its lexemes written with a
    blank after each if and only if every token of the list is well
    formed for its kind.  Hence the token lists the lexer can produce are
    the lists of well-formed tokens. *)
Theorem X5_lex_unlex_round_trip :
  forall tokens,
    Lexer.tokenize (unlex tokens) = Ok tokens <-> Forall well_formed tokens.
Proof.
  intros tokens. split.
  - intros H. apply (tokenize_loop_well_formed _ _ [] tokens (Forall_nil _) H).
  - apply tokenize_unlex.
Qed.

(** ** The symbol at the cursor *)

(** X6.  Where the lexer looks for a symbol it takes the longest registered
    symbol with which the rest of the input starts, and it fails only if
    no registered symbol starts there; this holds for every order in
    which the symbol set may be iterated before the sort by decreasing
    length, so that [==] and [!=] are never split into two tokens. *)
Theorem X6_longest_symbol_any_set_order :
  forall l rest,
    (forall sym, In sym l <-> In sym Lexer.symbols) ->
    StronglySorted (fun a b => String.length b <= String.length a) l ->
    (forall sym, Lexer.first_match l rest = Some sym <-> longest_symbol sym rest)
    /\ (Lexer.first_match l rest = None
        <-> forall sym, In sym Lexer.symbols -> String.prefix sym rest = false).
Proof.
  intros l rest Same Sorted. split.
  - intros sym. split.
    + intros M. destruct (first_match_Some _ _ _ M) as [I P].
      split; [now apply Same|]. split; [exact P|].
      intros sym' I' P'. apply (first_match_longest l rest sym Sorted M);
        [now apply Same | exact P'].
    + intros (I & P & Longest).
      destruct (Lexer.first_match l rest) as [m|] eqn:M.
      * destruct (first_match_Some _ _ _ M) as [Im Pm]. f_equal.
        apply (prefix_same_length m sym rest Pm P). apply Nat.le_antisymm.
        -- apply Longest; [now apply Same | exact Pm].
        -- apply (first_match_longest l rest m Sorted M); [now apply Same | exact P].
      * apply Same in I. rewrite (first_match_None _ _ M _ I) in P. discriminate P.
  - split.
    + intros M sym I. apply (first_match_None _ _ M). now apply Same.
    + intros N. destruct (Lexer.first_match l rest) as [m|] eqn:M; [|reflexivity].
      destruct (first_match_Some _ _ _ M) as [Im Pm].
      apply Same in Im. rewrite (N _ Im) in Pm. discriminate Pm.
Qed.

Lemma X6_witness :
  Lexer.first_match
    ["!="; "=="; ">"; "<"; "/"; "*"; "-"; "+"; "}"; "{"; ")"; "("; ";"; "="]
    "==1"
  = Some "==".
Proof.
  apply (proj1 (X6_longest_symbol_any_set_order
                  ["!="; "=="; ">"; "<"; "/"; "*"; "-"; "+"; "}"; "{"; ")"; "(";
                   ";"; "="] "==1"
                  ltac:(intros sym; simpl; tauto)
                  ltac:(repeat (constructor; [|repeat constructor; simpl; lia]);
                        constructor))).
  split; [simpl; tauto|]. split; [reflexivity|].
  intros sym' I _. simpl in I.
  repeat (destruct I as [<-|I]; [simpl; lia|]). contradiction.
Defined.

(* ================================================================== *)
(** * Printing an expression and parsing it back *)

Lemma int_str value : (0 <= value)%Z -> PyStr.int (PyStr.str value) = Some value.
Proof.
  intros H. unfold PyStr.int, PyStr.str.
  destruct value as [|p|p]; [reflexivity| |lia].
  cbn [Z.to_int NilZero.string_of_int].
  rewrite NilZero.usu by apply DecimalPos.Unsigned.to_uint_nonnil.
  cbn [option_map]. unfold Z.of_uint.
  now rewrite DecimalPos.Unsigned.of_to.
Qed.

Lemma op_level_le op : op_level op <= 2.
Proof.
  unfold op_level. destruct (mem op Parser.multiplication_ops); [lia|].
  destruct (mem op Parser.addition_ops); lia.
Qed.

Lemma op_tier_level op : tier_level (op_tier op) = op_level op.
Proof.
  unfold op_tier, op_level. destruct (mem op Parser.multiplication_ops); [reflexivity|].
  now destruct (mem op Parser.addition_ops).
Qed.

Lemma op_in_tier op : mem op all_ops = true -> mem op (tier_ops (op_tier op)) = true.
Proof.
  unfold all_ops, op_tier, mem. rewrite !existsb_app.
  fold (mem op Parser.multiplication_ops) (mem op Parser.addition_ops)
       (mem op Parser.comparison_ops).
  destruct (mem op Parser.multiplication_ops) eqn:M; [now intros _|].
  destruct (mem op Parser.addition_ops) eqn:A; [now intros _|].
  now intros H.
Qed.

Lemma op_not_above op t :
  op_level op < tier_level t -> mem op (tier_ops t) = false.
Proof.
  unfold op_level.
  destruct (mem op Parser.multiplication_ops) eqn:M;
    [destruct t; simpl; lia|].
  destruct (mem op Parser.addition_ops) eqn:A; destruct t; simpl; auto; lia.
Qed.

Lemma stops_above_le k k' l : k <= k' -> stops_above k l -> stops_above k' l.
Proof. intros L H t Ht. apply H. lia. Qed.

Lemma stops_above_op op l : stops_above (op_level op) ((SYMBOL, op) :: l).
Proof. intros t Ht. simpl. now apply op_not_above. Qed.

Lemma stops_all_rparen l : stops_all ((SYMBOL, ")") :: l).
Proof. intros []; reflexivity. Qed.

Lemma size_pos e : 1 <= size e.
Proof. destruct e; simpl; lia. Qed.

Lemma size_le_tokens e : size e <= List.length (expr_tokens e).
Proof.
  induction e as [v|x|op l IHl r IHr]; simpl; [lia|lia|].
  rewrite List.length_app. cbn [List.length].
  assert (W : forall b ts, List.length ts <= List.length (wrap b ts)).
  { intros [] ts; simpl; [rewrite List.length_app; lia | lia]. }
  pose proof (W (level l <? op_level op)%nat (expr_tokens l)).
  pose proof (W (level r <=? op_level op)%nat (expr_tokens r)). lia.
Qed.

Section ExpressionRoundTrip.

Variable tokens : list token.

Lemma skipn_app_at pos (a b : list token) :
  skipn pos tokens = a ++ b -> skipn (pos + List.length a) tokens = b.
Proof.
  intros H. rewrite Nat.add_comm, <- skipn_skipn, H.
  rewrite skipn_app, skipn_all, Nat.sub_diag. reflexivity.
Qed.

Lemma loop_stop ops operand fuel e pos :
  1 <= fuel -> stops ops (skipn pos tokens) ->
  Parser.binary_loop tokens ops operand fuel e pos = Ok (e, pos).
Proof.
  intros F H. destruct fuel as [|fuel]; [lia|]. now apply binary_loop_stops.
Qed.

Lemma tier_parser_unfold rec fuel t :
  tier_parser tokens rec fuel t
  = Parser.bind (tier_operand tokens rec fuel t)
      (Parser.binary_loop tokens (tier_ops t) (tier_operand tokens rec fuel t) fuel).
Proof. now destruct t. Qed.

Lemma atom_primary rec e pos post :
  level e = 3 -> wf_expr e ->
  skipn pos tokens = expr_tokens e ++ post ->
  Parser.parse_primary tokens rec pos = Ok (e, pos + List.length (expr_tokens e)).
Proof.
  intros L W H. destruct e as [v|x|op l r].
  - destruct (skipn_cons_nth _ _ _ _ H) as [N _].
    apply (parse_primary_atom tokens rec pos _ _ N).
    unfold atom_expr. cbn [fst snd]. simpl in W. now rewrite (int_str v W).
  - destruct (skipn_cons_nth _ _ _ _ H) as [N _].
    apply (parse_primary_atom tokens rec pos _ _ N). reflexivity.
  - simpl in L. pose proof (op_level_le op). lia.
Qed.

Lemma parens_primary rec pos ts x post :
  skipn pos tokens = parens ts ++ post ->
  rec (pos + 1) = Ok (x, pos + 1 + List.length ts) ->
  Parser.parse_primary tokens rec pos = Ok (x, pos + List.length (parens ts)).
Proof.
  intros H R. unfold parens in H. cbn [app] in H.
  destruct (skipn_cons_nth _ _ _ _ H) as [N H1].
  rewrite <- app_assoc in H1. apply skipn_app_at in H1. cbn [app] in H1.
  destruct (skipn_cons_nth _ _ _ _ H1) as [N2 _].
  unfold Parser.parse_primary.
  unfold Parser.bind at 1. unfold Parser.current_token. rewrite N.
  cbn [fst snd String.eqb Ascii.eqb Bool.eqb].
  rewrite (bind_ok _ _ _ _ _ (eat_ok tokens pos _ SYMBOL (Some "(") N eq_refl)).
  rewrite (bind_ok _ _ _ _ _ R).
  rewrite (bind_ok _ _ _ _ _ (eat_ok tokens _ _ SYMBOL (Some ")") N2 eq_refl)).
  unfold Parser.ret, parens. cbn [List.length]. rewrite List.length_app. cbn [List.length].
  do 2 f_equal. lia.
Qed.

Lemma lift_tier rec fuel t t' pos e fuel' pos' :
  tier_operand tokens rec fuel t' = tier_parser tokens rec fuel t ->
  tier_parser tokens rec fuel t pos
  = Parser.binary_loop tokens (tier_ops t) (tier_operand tokens rec fuel t)
      fuel' e pos' ->
  1 <= fuel' -> stops (tier_ops t) (skipn pos' tokens) ->
  tier_parser tokens rec fuel t' pos
  = Parser.binary_loop tokens (tier_ops t') (tier_operand tokens rec fuel t')
      fuel e pos'.
Proof.
  intros O H F S1. rewrite (tier_parser_unfold rec fuel t').
  apply bind_ok. rewrite O, H. now apply loop_stop.
Qed.

Lemma descend rec f e pos pos' t0 fuel0 :
  tier_parser tokens rec (S f) t0 pos
  = Parser.binary_loop tokens (tier_ops t0) (tier_operand tokens rec (S f) t0)
      fuel0 e pos' ->
  1 <= fuel0 ->
  forall t, tier_level t <= tier_level t0 ->
    stops_above (tier_level t) (skipn pos' tokens) ->
    exists fuel',
      (fuel' = fuel0 \/ fuel' = S f)
      /\ tier_parser tokens rec (S f) t pos
         = Parser.binary_loop tokens (tier_ops t) (tier_operand tokens rec (S f) t)
             fuel' e pos'.
Proof.
  intros H F t L S1.
  assert (Add : tier_level t < 2 ->
                tier_parser tokens rec (S f) Multiplication pos
                = Parser.binary_loop tokens (tier_ops Multiplication)
                    (tier_operand tokens rec (S f) Multiplication) fuel0 e pos' ->
                tier_parser tokens rec (S f) Addition pos
                = Parser.binary_loop tokens (tier_ops Addition)
                    (tier_operand tokens rec (S f) Addition) (S f) e pos').
  { intros Lt H2. apply (lift_tier rec (S f) Multiplication Addition _ _ fuel0);
      [reflexivity | exact H2 | exact F | now apply S1]. }
  destruct t0, t; simpl in L; try lia;
    try (exists fuel0; split; [now left | exact H]);
    exists (S f); (split; [now right|]).
  - apply Add; [simpl; lia | exact H].
  - apply (lift_tier rec (S f) Addition Comparison _ _ (S f));
      [reflexivity | | lia | apply S1; simpl; lia].
    apply Add; [simpl; lia | exact H].
  - apply (lift_tier rec (S f) Addition Comparison _ _ fuel0);
      [reflexivity | exact H | exact F | apply S1; simpl; lia].
Qed.

Lemma closed_of_open e :
  parses_open tokens e ->
  forall f pos post,
    size e <= f ->
    skipn pos tokens = expr_tokens e ++ post ->
    stops_all post ->
    Parser.parse_expression tokens (S f) pos
    = Ok (e, pos + List.length (expr_tokens e)).
Proof.
  intros O f pos post Sz H St.
  destruct (O Comparison f pos post (Nat.le_0_l _) Sz H) as (fuel' & F & E).
  { intros t _. apply St. }
  cbn [Parser.parse_expression].
  change (Parser.parse_comparison tokens (Parser.parse_expression tokens f) (S f))
    with (tier_parser tokens (Parser.parse_expression tokens f) (S f) Comparison).
  rewrite E. apply loop_stop; [lia|].
  rewrite (skipn_app_at _ _ _ H). apply (St Comparison).
Qed.

Lemma operand_ok x t f pos b rest :
  parses_open tokens x -> wf_expr x ->
  S (size x) <= f ->
  skipn pos tokens = wrap b (expr_tokens x) ++ rest ->
  (b = false -> tier_level t < level x) ->
  stops_above (tier_level t) rest ->
  tier_operand tokens (Parser.parse_expression tokens f) (S f) t pos
  = Ok (x, pos + List.length (wrap b (expr_tokens x))).
Proof.
  intros O W Sz H Lv St.
  pose proof (skipn_app_at _ _ _ H) as After.
  destruct b; cbn [wrap] in *.
  - assert (P : Parser.parse_primary tokens (Parser.parse_expression tokens f) pos
                = Ok (x, pos + List.length (parens (expr_tokens x)))).
    { apply (parens_primary _ _ _ _ rest H).
      destruct f as [|f']; [lia|].
      unfold parens in H. cbn [app] in H.
      destruct (skipn_cons_nth _ _ _ _ H) as [_ H1]. rewrite <- app_assoc in H1.
      apply (closed_of_open x O f' (pos + 1) _ ltac:(lia) H1).
      apply stops_all_rparen. }
    assert (M : tier_level t < 2 ->
                Parser.parse_multiplication tokens
                  (Parser.parse_expression tokens f) (S f) pos
                = Ok (x, pos + List.length (parens (expr_tokens x)))).
    { intros Lt. unfold Parser.parse_multiplication. rewrite (bind_ok _ _ _ _ _ P).
      apply loop_stop; [lia|]. rewrite After. now apply (St Multiplication). }
    destruct t; cbn [tier_operand].
    + exact P.
    + apply M. simpl; lia.
    + unfold Parser.parse_addition.
      rewrite (bind_ok _ _ _ _ _ (M ltac:(simpl; lia))).
      apply loop_stop; [lia|]. rewrite After. apply (St Addition). simpl; lia.
  - specialize (Lv eq_refl). destruct t; cbn [tier_operand tier_level] in *.
    + apply (atom_primary _ _ _ rest); [|exact W|exact H].
      destruct x; simpl in *; [reflexivity|reflexivity|].
      pose proof (op_level_le op). lia.
    + destruct (O Multiplication f pos rest) as (fuel' & F & E);
        [simpl; lia | lia | exact H | intros t Ht; destruct t; simpl in Ht; lia |].
      cbn [tier_parser] in E. rewrite E.
      apply loop_stop; [lia|]. rewrite After. apply (St Multiplication). simpl; lia.
    + destruct (O Addition f pos rest) as (fuel' & F & E);
        [simpl; lia | lia | exact H
         | intros t Ht; apply St; simpl in *; lia |].
      cbn [tier_parser] in E. rewrite E.
      apply loop_stop; [lia|]. rewrite After. apply (St Addition). simpl; lia.
Qed.

Lemma parses_open_all e : wf_expr e -> parses_open tokens e.
Proof.
  induction e as [v|x|op l IHl r IHr]; intros W.
  - intros t f pos post L Sz H St.
    pose proof (atom_primary (Parser.parse_expression tokens f) (Number v) pos post
                  eq_refl W H) as P.
    destruct (descend (Parser.parse_expression tokens f) f (Number v) pos
                (pos + List.length (expr_tokens (Number v))) Multiplication (S f))
      with (t := t) as (fuel' & [->| ->] & E).
    + rewrite tier_parser_unfold. now apply bind_ok.
    + lia.
    + destruct t; simpl; lia.
    + now rewrite (skipn_app_at _ _ _ H).
    + exists (S f). split; [lia | exact E].
    + exists (S f). split; [lia | exact E].
  - intros t f pos post L Sz H St.
    pose proof (atom_primary (Parser.parse_expression tokens f) (Var x) pos post
                  eq_refl W H) as P.
    destruct (descend (Parser.parse_expression tokens f) f (Var x) pos
                (pos + List.length (expr_tokens (Var x))) Multiplication (S f))
      with (t := t) as (fuel' & [->| ->] & E).
    + rewrite tier_parser_unfold. now apply bind_ok.
    + lia.
    + destruct t; simpl; lia.
    + now rewrite (skipn_app_at _ _ _ H).
    + exists (S f). split; [lia | exact E].
    + exists (S f). split; [lia | exact E].
  - destruct W as (Wop & Wl & Wr).
    specialize (IHl Wl). specialize (IHr Wr).
    intros t f pos post L Sz H St.
    cbn [level] in L. cbn [size] in Sz. cbn [expr_tokens] in H.
    set (bl := (level l <? op_level op)%nat) in *.
    set (br := (level r <=? op_level op)%nat) in *.
    set (t0 := op_tier op).
    assert (T0 : tier_level t0 = op_level op) by apply op_tier_level.
    rewrite <- app_assoc in H. cbn [app] in H.
    pose proof (skipn_app_at _ _ _ H) as H1.
    destruct (skipn_cons_nth _ _ _ _ H1) as [Nop H2].
    (* the left operand *)
    assert (Left : exists fuel1,
               S f <= fuel1 + size l
               /\ tier_parser tokens (Parser.parse_expression tokens f) (S f) t0 pos
                  = Parser.binary_loop tokens (tier_ops t0)
                      (tier_operand tokens (Parser.parse_expression tokens f) (S f) t0)
                      fuel1 l (pos + List.length (wrap bl (expr_tokens l)))).
    { destruct bl eqn:Bl.
      - exists (S f). split; [lia|]. rewrite tier_parser_unfold. apply bind_ok.
        apply (operand_ok l t0 f pos true _ IHl Wl ltac:(lia) H); [discriminate|].
        rewrite T0. apply stops_above_op.
      - apply Nat.ltb_ge in Bl. cbn [wrap] in *.
        apply (IHl t0 f pos _ ltac:(lia) ltac:(lia) H).
        rewrite T0. apply stops_above_op. }
    destruct Left as (fuel1 & F1 & E1).
    assert (Len : pos + List.length (expr_tokens (BinaryOp op l r))
                  = pos + List.length (wrap bl (expr_tokens l)) + 1
                    + List.length (wrap br (expr_tokens r))).
    { cbn [expr_tokens]. fold bl br. rewrite List.length_app. cbn [List.length]. lia. }
    (* one turn of the loop of the tier *)
    destruct fuel1 as [|fuel1]; [lia|].
    assert (Right : tier_operand tokens (Parser.parse_expression tokens f) (S f) t0
                      (pos + List.length (wrap bl (expr_tokens l)) + 1)
                    = Ok (r, pos + List.length (wrap bl (expr_tokens l)) + 1
                             + List.length (wrap br (expr_tokens r)))).
    { apply (operand_ok r t0 f _ br post IHr Wr ltac:(lia) H2).
      - intros Br. unfold br in Br. apply Nat.leb_gt in Br. lia.
      - apply (stops_above_le (tier_level t)); [lia | exact St]. }
    assert (Own : tier_parser tokens (Parser.parse_expression tokens f) (S f) t0 pos
                  = Parser.binary_loop tokens (tier_ops t0)
                      (tier_operand tokens (Parser.parse_expression tokens f) (S f) t0)
                      fuel1 (BinaryOp op l r)
                      (pos + List.length (expr_tokens (BinaryOp op l r)))).
    { rewrite Len, E1. cbn [Parser.binary_loop].
      rewrite (bind_ok _ _ _ _ _ (at_lexeme_some tokens _ _ _ Nop)). cbn [snd].
      unfold t0 at 1. rewrite (op_in_tier op Wop).
      rewrite (bind_ok _ _ _ _ _ (eat_ok tokens _ (SYMBOL, op) SYMBOL None Nop eq_refl)).
      rewrite (bind_ok _ _ _ _ _ Right). reflexivity. }
    destruct (descend _ f _ pos _ t0 fuel1 Own) with (t := t)
      as (fuel' & Hfuel & E).
    + lia.
    + lia.
    + rewrite Len. now rewrite (skipn_app_at _ _ _ H2).
    + exists fuel'. split; [|exact E]. cbn [size]. destruct Hfuel; lia.
Qed.

End ExpressionRoundTrip.

Lemma parse_expression_print pre e post :
  wf_expr e -> stops_all post ->
  Parser.parse_expression (pre ++ expr_tokens e ++ post)
    (Parser.enough (pre ++ expr_tokens e ++ post)) (List.length pre)
  = Ok (e, List.length pre + List.length (expr_tokens e)).
Proof.
  intros W St. unfold Parser.enough.
  apply (closed_of_open _ e (parses_open_all _ e W) _ _ post); [| |exact St].
  - rewrite !List.length_app. pose proof (size_le_tokens e). lia.
  - rewrite skipn_app, skipn_all, Nat.sub_diag. reflexivity.
Qed.

(** X7.  Parsing undoes printing.  Every expression tree over the
    operators of the grammar and non-negative number literals, written
    with the parentheses that precedence and left association require and
    no others, is parsed back to that tree by [parse_expression], wherever
    it stands in the token list; the cursor stops right behind the
    expression, so what follows is left unread, provided it does not
    start with an operator. *)
Theorem X7_parse_print_expression :
  forall pre e post,
    wf_expr e -> stops_all post ->
    Parser.parse_expression (pre ++ expr_tokens e ++ post)
      (Parser.enough (pre ++ expr_tokens e ++ post)) (List.length pre)
    = Ok (e, List.length pre + List.length (expr_tokens e))
    /\ Parser.parse_expression_of (expr_tokens e ++ post) = Ok e.
Proof.
  intros pre e post W St. split; [now apply parse_expression_print|].
  unfold Parser.parse_expression_of, Parser.run.
  pose proof (parse_expression_print [] e post W St) as P.
  cbn [app List.length] in P. now rewrite P.
Qed.

Lemma X7_witness :
  expr_tokens
    (BinaryOp "<" (BinaryOp "-" (BinaryOp "-" (Var "a") (Number 1))
                               (BinaryOp "*" (BinaryOp "+" (Var "b") (Number 2))
                                             (Var "c")))
                  (BinaryOp "-" (Number 3) (BinaryOp "-" (Var "d") (Number 4))))
  = [(IDENTIFIER, "a"); (SYMBOL, "-"); (NUMBER, "1"); (SYMBOL, "-");
     (SYMBOL, "("); (IDENTIFIER, "b"); (SYMBOL, "+"); (NUMBER, "2");
     (SYMBOL, ")"); (SYMBOL, "*"); (IDENTIFIER, "c"); (SYMBOL, "<");
     (NUMBER, "3"); (SYMBOL, "-"); (SYMBOL, "("); (IDENTIFIER, "d");
     (SYMBOL, "-"); (NUMBER, "4"); (SYMBOL, ")")]
  /\ Parser.parse_expression
       ([(IDENTIFIER, "x"); (SYMBOL, "=")]
        ++ expr_tokens
             (BinaryOp "<" (BinaryOp "-" (BinaryOp "-" (Var "a") (Number 1))
                                        (BinaryOp "*" (BinaryOp "+" (Var "b") (Number 2))
                                                      (Var "c")))
                           (BinaryOp "-" (Number 3) (BinaryOp "-" (Var "d") (Number 4))))
        ++ [(SYMBOL, ";"); (KEYWORD, "return")])
       (Parser.enough
          ([(IDENTIFIER, "x"); (SYMBOL, "=")]
           ++ expr_tokens
                (BinaryOp "<" (BinaryOp "-" (BinaryOp "-" (Var "a") (Number 1))
                                           (BinaryOp "*" (BinaryOp "+" (Var "b") (Number 2))
                                                         (Var "c")))
                              (BinaryOp "-" (Number 3) (BinaryOp "-" (Var "d") (Number 4))))
           ++ [(SYMBOL, ";"); (KEYWORD, "return")]))
       2
     = Ok (BinaryOp "<" (BinaryOp "-" (BinaryOp "-" (Var "a") (Number 1))
                                     (BinaryOp "*" (BinaryOp "+" (Var "b") (Number 2))
                                                   (Var "c")))
                        (BinaryOp "-" (Number 3) (BinaryOp "-" (Var "d") (Number 4))),
           21).
Proof.
  split; [vm_compute; reflexivity|].
  apply (proj1 (X7_parse_print_expression
                  [(IDENTIFIER, "x"); (SYMBOL, "=")]
                  (BinaryOp "<" (BinaryOp "-" (BinaryOp "-" (Var "a") (Number 1))
                                             (BinaryOp "*" (BinaryOp "+" (Var "b") (Number 2))
                                                           (Var "c")))
                                (BinaryOp "-" (Number 3) (BinaryOp "-" (Var "d") (Number 4))))
                  [(SYMBOL, ";"); (KEYWORD, "return")]
                  ltac:(simpl; repeat split; lia)
                  ltac:(intros []; reflexivity))).
Defined.

(* ================================================================== *)
(** * Printing a program and parsing it back *)

Lemma all_of_Forall {A} (P : A -> Prop) l : all_of P l <-> Forall P l.
Proof.
  induction l as [|a l IH]; simpl; split; auto.
  - intros [Ha Hl]. constructor; [exact Ha | now apply IH].
  - intros H. inversion H; subst. split; [assumption | now apply IH].
Qed.

Lemma stops_all_symbol v l :
  mem v all_ops = false -> stops_all (symbol v :: l).
Proof.
  unfold all_ops, mem. rewrite !existsb_app. intros H.
  apply orb_false_elim in H. destruct H as [M H].
  apply orb_false_elim in H. destruct H as [A C].
  intros []; assumption.
Qed.

(** The first token of a well-formed statement is neither a closing brace
    nor [else]. *)
Lemma stmt_tokens_first s :
  wf_stmt s ->
  exists t ts, stmt_tokens s = t :: ts /\ mem (snd t) ["}"; "else"] = false.
Proof.
  destruct s; simpl; intros W; eexists; eexists; (split; [reflexivity|]);
    try reflexivity.
  now destruct W.
Qed.

Lemma stmt_tokens_length_in s l :
  In s l -> List.length (stmt_tokens s) <= List.length (flat_map stmt_tokens l).
Proof.
  induction l as [|s' l IH]; simpl; [contradiction|].
  rewrite List.length_app. intros [->|H]; [lia|]. specialize (IH H). lia.
Qed.

Lemma block_length_le l :
  List.length l <= List.length (flat_map stmt_tokens l).
Proof.
  induction l as [|s l IH]; simpl; [lia|]. rewrite List.length_app.
  assert (1 <= List.length (stmt_tokens s)) by (destruct s; simpl; lia). lia.
Qed.

Section StatementRoundTrip.

Variable tokens : list token.

Ltac eat_next H H' :=
  lazymatch goal with
  | |- Parser.bind (Parser.eat ?toks ?ty ?v) ?k ?p = _ =>
      let N := fresh "N" in
      destruct (skipn_cons_nth toks p _ _ H) as [N H'];
      rewrite (bind_ok _ _ _ _ _ (eat_ok toks p _ ty v N eq_refl));
      cbv beta
  end.

Lemma expression_at e f pos post :
  wf_expr e -> size e <= f ->
  skipn pos tokens = expr_tokens e ++ post -> stops_all post ->
  Parser.parse_expression tokens (S f) pos
  = Ok (e, pos + List.length (expr_tokens e)).
Proof.
  intros W. apply closed_of_open. now apply parses_open_all.
Qed.

Lemma dispatch_return rec fuel pos :
  nth_error tokens pos = Some (keyword "return") ->
  Parser.parse_statement_body tokens rec fuel pos
  = Parser.parse_return tokens fuel pos.
Proof.
  intros N. unfold Parser.parse_statement_body.
  unfold Parser.bind at 1. unfold Parser.current_token. now rewrite N.
Qed.

Lemma dispatch_declaration rec fuel pos :
  nth_error tokens pos = Some (keyword "int") ->
  Parser.parse_statement_body tokens rec fuel pos
  = Parser.parse_declaration tokens pos.
Proof.
  intros N. unfold Parser.parse_statement_body.
  unfold Parser.bind at 1. unfold Parser.current_token. now rewrite N.
Qed.

Lemma dispatch_assignment rec fuel pos x :
  nth_error tokens pos = Some (IDENTIFIER, x) ->
  nth_error tokens (pos + 1) = Some (symbol "=") ->
  Parser.parse_statement_body tokens rec fuel pos
  = Parser.parse_assignment tokens fuel pos.
Proof.
  intros N N1. unfold Parser.parse_statement_body.
  unfold Parser.bind at 1. unfold Parser.current_token. rewrite N.
  cbn [Parser.is_keyword fst snd token_kind_eqb andb].
  unfold Parser.is_assignment. cbn [fst token_kind_eqb].
  unfold Parser.bind, Parser.next_token, Parser.ret. now rewrite N1.
Qed.

Lemma dispatch_if rec fuel pos :
  nth_error tokens pos = Some (keyword "if") ->
  Parser.parse_statement_body tokens rec fuel pos
  = Parser.parse_if tokens rec fuel pos.
Proof.
  intros N. unfold Parser.parse_statement_body.
  unfold Parser.bind at 1. unfold Parser.current_token. now rewrite N.
Qed.

Lemma dispatch_while rec fuel pos :
  nth_error tokens pos = Some (keyword "while") ->
  Parser.parse_statement_body tokens rec fuel pos
  = Parser.parse_while tokens rec fuel pos.
Proof.
  intros N. unfold Parser.parse_statement_body.
  unfold Parser.bind at 1. unfold Parser.current_token. now rewrite N.
Qed.

Lemma stops_else_of (t : token) l :
  mem (snd t) ["}"; "else"] = false -> stops ["else"] (t :: l).
Proof.
  simpl. intros H. apply orb_false_elim in H. destruct H as [_ H]. exact H.
Qed.

Lemma closes_not (p : string -> bool) pos rest :
  skipn pos tokens = rest -> closes rest ->
  Parser.at_lexeme tokens (fun v => negb (Parser.is_rbrace v)) pos
  = Ok (false, pos).
Proof.
  intros H C. destruct rest as [|t rest].
  - apply at_lexeme_none. now apply skipn_nil_nth.
  - destruct (skipn_cons_nth _ _ _ _ H) as [N _].
    rewrite (at_lexeme_some tokens _ _ _ N). simpl in C. now rewrite C.
Qed.

Lemma closes_stops_else rest : closes rest -> stops ["else"] rest.
Proof.
  destruct rest as [|t rest]; [auto|]. simpl. unfold Parser.is_rbrace.
  intros C. apply String.eqb_eq in C. now rewrite C.
Qed.

Lemma parse_block_print rec l :
  Forall (reads tokens rec) l -> Forall wf_stmt l ->
  forall n acc pos rest,
    List.length l < n ->
    skipn pos tokens = flat_map stmt_tokens l ++ rest ->
    closes rest ->
    Parser.parse_block tokens rec n acc pos
    = Ok (acc ++ l, pos + List.length (flat_map stmt_tokens l)).
Proof.
  induction 1 as [|s l R Rl IH]; intros W n acc pos rest L H C;
    (destruct n as [|n]; [simpl in L; lia|]); cbn [Parser.parse_block].
  - cbn [flat_map app] in H.
    rewrite (bind_ok _ _ _ _ _ (closes_not (fun _ => true) pos rest H C)).
    cbn. now rewrite app_nil_r, Nat.add_0_r.
  - inversion W as [|? ? Ws Wl]; subst.
    destruct (stmt_tokens_first s Ws) as (t & ts & E & F).
    cbn [flat_map] in H. rewrite <- app_assoc in H.
    pose proof H as H0. rewrite E in H0. cbn [app] in H0.
    destruct (skipn_cons_nth _ _ _ _ H0) as [N _].
    rewrite (bind_ok _ _ _ _ _ (at_lexeme_some tokens _ _ _ N)).
    assert (B : negb (Parser.is_rbrace (snd t)) = true).
    { unfold Parser.is_rbrace. simpl in F. apply orb_false_elim in F.
      destruct F as [F _]. now rewrite F. }
    rewrite B.
    assert (Rs : rec pos = Ok (s, pos + List.length (stmt_tokens s))).
    { apply (R pos _ H). destruct l as [|s' l'].
      - cbn [flat_map app]. now apply closes_stops_else.
      - inversion Wl as [|? ? Ws' _]; subst.
        destruct (stmt_tokens_first s' Ws') as (t' & ts' & E' & F').
        cbn [flat_map]. rewrite E'. cbn [app]. now apply stops_else_of. }
    rewrite (bind_ok _ _ _ _ _ Rs).
    rewrite (IH Wl n (acc ++ [s]) _ rest); [|simpl in L; lia| |exact C].
    + rewrite <- app_assoc. cbn [app flat_map]. rewrite List.length_app.
      do 2 f_equal. lia.
    + now apply skipn_app_at.
Qed.

Lemma parse_return_print e f pos rest :
  wf_expr e -> List.length (stmt_tokens (Return e)) <= f ->
  skipn pos tokens = stmt_tokens (Return e) ++ rest ->
  Parser.parse_return tokens (S f) pos
  = Ok (Return e, pos + List.length (stmt_tokens (Return e))).
Proof.
  intros W L H. cbn [stmt_tokens app List.length] in *.
  rewrite List.length_app in *. cbn [List.length] in *.
  pose proof (size_le_tokens e) as Sz.
  rewrite <- app_assoc in H. cbn [app] in H.
  unfold Parser.parse_return.
  eat_next H H1.
  rewrite (bind_ok _ _ _ _ _
             (expression_at e f _ _ W ltac:(lia) H1
                (stops_all_symbol ";" _ eq_refl))).
  apply skipn_app_at in H1.
  eat_next H1 H2.
  unfold Parser.ret. do 2 f_equal. lia.
Qed.

Lemma parse_declaration_print x pos rest :
  skipn pos tokens = stmt_tokens (Declaration x) ++ rest ->
  Parser.parse_declaration tokens pos
  = Ok (Declaration x, pos + List.length (stmt_tokens (Declaration x))).
Proof.
  intros H. cbn [stmt_tokens app List.length] in *.
  unfold Parser.parse_declaration.
  eat_next H H1. eat_next H1 H2. eat_next H2 H3.
  unfold Parser.ret. cbn [snd]. do 2 f_equal. lia.
Qed.

Lemma parse_assignment_print x e f pos rest :
  wf_expr e -> List.length (stmt_tokens (Assignment x e)) <= f ->
  skipn pos tokens = stmt_tokens (Assignment x e) ++ rest ->
  Parser.parse_assignment tokens (S f) pos
  = Ok (Assignment x e, pos + List.length (stmt_tokens (Assignment x e))).
Proof.
  intros W L H. cbn [stmt_tokens app List.length] in *.
  rewrite List.length_app in *. cbn [List.length] in *.
  pose proof (size_le_tokens e) as Sz.
  rewrite <- app_assoc in H. cbn [app] in H.
  unfold Parser.parse_assignment.
  eat_next H H1. eat_next H1 H2.
  rewrite (bind_ok _ _ _ _ _
             (expression_at e f _ _ W ltac:(lia) H2
                (stops_all_symbol ";" _ eq_refl))).
  apply skipn_app_at in H2.
  eat_next H2 H3.
  unfold Parser.ret. cbn [snd]. do 2 f_equal. lia.
Qed.

Lemma parse_while_print rec c b f pos rest :
  wf_expr c -> Forall (reads tokens rec) b -> Forall wf_stmt b ->
  List.length (stmt_tokens (While c b)) <= f ->
  skipn pos tokens = stmt_tokens (While c b) ++ rest ->
  Parser.parse_while tokens rec (S f) pos
  = Ok (While c b, pos + List.length (stmt_tokens (While c b))).
Proof.
  intros W R Wb L H. cbn [stmt_tokens app List.length] in *.
  rewrite !List.length_app in *. cbn [List.length] in *.
  rewrite !List.length_app in *. cbn [List.length] in *.
  pose proof (size_le_tokens c) as Sz.
  pose proof (block_length_le b) as Lb.
  rewrite <- app_assoc in H. cbn [app] in H.
  unfold Parser.parse_while.
  eat_next H H1. eat_next H1 H2.
  rewrite (bind_ok _ _ _ _ _
             (expression_at c f _ _ W ltac:(lia) H2
                (stops_all_symbol ")" _ eq_refl))).
  apply skipn_app_at in H2.
  eat_next H2 H3. eat_next H3 H4.
  rewrite <- app_assoc in H4. cbn [app] in H4.
  rewrite (bind_ok _ _ _ _ _
             (parse_block_print rec b R Wb (S f) [] _ _ ltac:(lia) H4 eq_refl)).
  apply skipn_app_at in H4.
  eat_next H4 H5.
  unfold Parser.ret. cbn [app]. do 2 f_equal. lia.
Qed.

Lemma parse_if_print rec c t e f pos rest :
  wf_expr c ->
  Forall (reads tokens rec) t -> Forall wf_stmt t ->
  Forall (reads tokens rec) e -> Forall wf_stmt e ->
  List.length (stmt_tokens (If c t e)) <= f ->
  skipn pos tokens = stmt_tokens (If c t e) ++ rest ->
  stops ["else"] rest ->
  Parser.parse_if tokens rec (S f) pos
  = Ok (If c t e, pos + List.length (stmt_tokens (If c t e))).
Proof.
  intros W Rt Wt Re We L H St. cbn [stmt_tokens app List.length] in *.
  rewrite !List.length_app in *. cbn [List.length] in *.
  rewrite !List.length_app in *. cbn [List.length] in *.
  pose proof (size_le_tokens c) as Sz.
  pose proof (block_length_le t) as Lt.
  rewrite <- app_assoc in H. cbn [app] in H.
  unfold Parser.parse_if.
  eat_next H H1. eat_next H1 H2.
  rewrite (bind_ok _ _ _ _ _
             (expression_at c f _ _ W ltac:(lia) H2
                (stops_all_symbol ")" _ eq_refl))).
  apply skipn_app_at in H2.
  eat_next H2 H3. eat_next H3 H4.
  rewrite <- app_assoc in H4. cbn [app] in H4.
  rewrite (bind_ok _ _ _ _ _
             (parse_block_print rec t Rt Wt (S f) [] _ _ ltac:(lia) H4 eq_refl)).
  apply skipn_app_at in H4.
  eat_next H4 H5.
  destruct e as [|s e]; cbn [CodeGenerator.nonempty app List.length] in *.
  - assert (A : Parser.at_lexeme tokens (fun v => String.eqb v "else")
                  (pos + 1 + 1 + List.length (expr_tokens c) + 1 + 1
                   + List.length (flat_map stmt_tokens t) + 1)
                = Ok (false, pos + 1 + 1 + List.length (expr_tokens c) + 1 + 1
                             + List.length (flat_map stmt_tokens t) + 1)).
    { destruct rest as [|r rest].
      - apply at_lexeme_none. now apply skipn_nil_nth.
      - destruct (skipn_cons_nth _ _ _ _ H5) as [Nr _].
        rewrite (at_lexeme_some tokens _ _ _ Nr). simpl in St.
        now rewrite orb_false_r in St; rewrite St. }
    rewrite (bind_ok _ _ _ _ _ A).
    unfold Parser.ret. cbn [app]. do 2 f_equal. lia.
  - pose proof (block_length_le (s :: e)) as Le.
    rewrite List.length_app in L. cbn [List.length] in L.
    destruct (skipn_cons_nth _ _ _ _ H5) as [Ne _].
    rewrite (bind_ok _ _ _ _ _ (at_lexeme_some tokens _ _ _ Ne)).
    cbn [snd keyword String.eqb Ascii.eqb Bool.eqb andb].
    eat_next H5 H6. eat_next H6 H7.
    rewrite <- app_assoc in H7. cbn [app] in H7.
    rewrite (bind_ok _ _ _ _ _
               (parse_block_print rec (s :: e) Re We (S f) [] _ _ ltac:(lia) H7 eq_refl)).
    apply skipn_app_at in H7.
    eat_next H7 H8.
    unfold Parser.ret. cbn [app]. rewrite List.length_app. cbn [List.length].
    do 2 f_equal. lia.
Qed.

Lemma reads_weaken (P : stmt -> Prop) f l :
  Forall (fun s => P s -> forall f', List.length (stmt_tokens s) <= f' ->
                   reads tokens (Parser.parse_statement tokens (S f')) s) l ->
  Forall P l ->
  S (List.length (flat_map stmt_tokens l)) <= f ->
  Forall (reads tokens (Parser.parse_statement tokens f)) l.
Proof.
  intros IH W L. rewrite Forall_forall in *. intros s I.
  destruct f as [|f']; [lia|].
  apply (IH s I (W s I)). pose proof (stmt_tokens_length_in s l I). lia.
Qed.

Lemma parse_statement_print s :
  wf_stmt s ->
  forall f, List.length (stmt_tokens s) <= f ->
    reads tokens (Parser.parse_statement tokens (S f)) s.
Proof.
  induction s as [e|x|x e|c t e IHt IHe|c b IHb] using stmt_ind;
    intros W f L pos rest H St; cbn [Parser.parse_statement].
  - pose proof H as H0. cbn [stmt_tokens app] in H0.
    destruct (skipn_cons_nth _ _ _ _ H0) as [N _].
    rewrite (dispatch_return _ _ _ N).
    now apply (parse_return_print e f pos rest).
  - pose proof H as H0. cbn [stmt_tokens app] in H0.
    destruct (skipn_cons_nth _ _ _ _ H0) as [N _].
    rewrite (dispatch_declaration _ _ _ N).
    now apply (parse_declaration_print x pos rest).
  - pose proof H as H0. cbn [stmt_tokens app] in H0.
    destruct (skipn_cons_nth _ _ _ _ H0) as [N H1].
    destruct (skipn_cons_nth _ _ _ _ H1) as [N1 _].
    rewrite (dispatch_assignment _ _ _ x N N1).
    destruct W as [_ W].
    now apply (parse_assignment_print x e f pos rest).
  - pose proof H as H0. cbn [stmt_tokens app] in H0.
    destruct (skipn_cons_nth _ _ _ _ H0) as [N _].
    rewrite (dispatch_if _ _ _ N).
    destruct W as (Wc & Wt & We). apply all_of_Forall in Wt, We.
    assert (Lt : S (List.length (flat_map stmt_tokens t)) <= f
                 /\ S (List.length (flat_map stmt_tokens e)) <= f).
    { cbn [stmt_tokens List.length] in L.
      rewrite !List.length_app in L. cbn [List.length] in L.
      rewrite !List.length_app in L. cbn [List.length] in L.
      destruct e as [|s e]; [cbn [flat_map List.length]; lia|].
      cbn [CodeGenerator.nonempty List.length] in L.
      rewrite List.length_app in L. lia. }
    apply (parse_if_print _ c t e f pos rest Wc); auto.
    + now apply (reads_weaken wf_stmt f t IHt Wt).
    + now apply (reads_weaken wf_stmt f e IHe We).
  - pose proof H as H0. cbn [stmt_tokens app] in H0.
    destruct (skipn_cons_nth _ _ _ _ H0) as [N _].
    rewrite (dispatch_while _ _ _ N).
    destruct W as (Wc & Wb). apply all_of_Forall in Wb.
    assert (Lb : S (List.length (flat_map stmt_tokens b)) <= f).
    { cbn [stmt_tokens List.length] in L.
      rewrite !List.length_app in L. cbn [List.length] in L.
      rewrite !List.length_app in L. lia. }
    apply (parse_while_print _ c b f pos rest Wc); auto.
    now apply (reads_weaken wf_stmt f b IHb Wb).
Qed.

Lemma parse_function_print fn f pos rest :
  wf_func fn -> List.length (func_tokens fn) <= f ->
  skipn pos tokens = func_tokens fn ++ rest ->
  Parser.parse_function tokens (S f) pos
  = Ok (fn, pos + List.length (func_tokens fn)).
Proof.
  destruct fn as [name body]. intros W L H.
  cbn [wf_func] in W. apply all_of_Forall in W.
  cbn [func_tokens app List.length] in *.
  rewrite List.length_app in *. cbn [List.length] in *.
  pose proof (block_length_le body) as Lb.
  unfold Parser.parse_function.
  eat_next H H1. eat_next H1 H2. eat_next H2 H3. eat_next H3 H4. eat_next H4 H5.
  rewrite <- app_assoc in H5. cbn [app] in H5.
  assert (R : Forall (reads tokens (Parser.parse_statement tokens (S f))) body).
  { rewrite Forall_forall in *. intros s I.
    apply (parse_statement_print s (W s I)).
    pose proof (stmt_tokens_length_in s body I). lia. }
  rewrite (bind_ok _ _ _ _ _
             (parse_block_print _ body R W (S f) [] _ _ ltac:(lia) H5 eq_refl)).
  apply skipn_app_at in H5.
  eat_next H5 H6.
  unfold Parser.ret. cbn [app snd]. do 2 f_equal. lia.
Qed.

(** A function whose closing brace is missing at the end of the input. *)
Lemma parse_function_unclosed name body f pos :
  all_of wf_stmt body ->
  List.length (unclosed_tokens name body) <= f ->
  skipn pos tokens = unclosed_tokens name body ->
  Parser.parse_function tokens (S f) pos = Raise UnexpectedEOF.
Proof.
  intros W L H. apply all_of_Forall in W.
  unfold unclosed_tokens in *. cbn [app List.length] in *.
  pose proof (block_length_le body) as Lb.
  unfold Parser.parse_function.
  eat_next H H1. eat_next H1 H2. eat_next H2 H3. eat_next H3 H4. eat_next H4 H5.
  rewrite <- (app_nil_r (flat_map stmt_tokens body)) in H5.
  assert (R : Forall (reads tokens (Parser.parse_statement tokens (S f))) body).
  { rewrite Forall_forall in *. intros s I.
    apply (parse_statement_print s (W s I)).
    pose proof (stmt_tokens_length_in s body I). lia. }
  rewrite (bind_ok _ _ _ _ _
             (parse_block_print _ body R W (S f) [] _ _ ltac:(lia) H5 I)).
  apply skipn_app_at in H5.
  apply bind_raise, eat_eof. now apply skipn_nil_nth.
Qed.

Lemma parse_functions_print f fs :
  Forall wf_func fs ->
  forall n acc pos rest,
    List.length (flat_map func_tokens fs) <= f ->
    skipn pos tokens = flat_map func_tokens fs ++ rest ->
    Parser.parse_functions tokens (S f) (List.length fs + n) acc pos
    = Parser.parse_functions tokens (S f) n (acc ++ fs)
        (pos + List.length (flat_map func_tokens fs)).
Proof.
  induction 1 as [|fn fs W Wl IH]; intros n acc pos rest L H.
  - cbn. now rewrite app_nil_r, Nat.add_0_r.
  - cbn [List.length Nat.add Parser.parse_functions].
    cbn [flat_map] in *. rewrite List.length_app in L.
    rewrite <- app_assoc in H.
    assert (N : nth_error tokens pos = Some (keyword "int")).
    { destruct fn as [name body]. cbn [func_tokens app] in H.
      now destruct (skipn_cons_nth _ _ _ _ H). }
    rewrite (bind_ok _ _ _ _ _ (at_lexeme_some tokens _ _ _ N)).
    cbn [snd keyword String.eqb Ascii.eqb Bool.eqb andb].
    rewrite (bind_ok _ _ _ _ _
               (parse_function_print fn f pos _ W ltac:(lia) H)).
    apply skipn_app_at in H.
    rewrite (IH n (acc ++ [fn]) _ rest ltac:(lia) H).
    rewrite <- app_assoc, List.length_app, Nat.add_assoc. reflexivity.
Qed.

Lemma parse_functions_stop f n acc pos post :
  skipn pos tokens = post -> stops ["int"] post ->
  Parser.parse_functions tokens f (S n) acc pos = Ok (acc, pos).
Proof.
  intros H St. cbn [Parser.parse_functions].
  assert (A : Parser.at_lexeme tokens (fun v => String.eqb v "int") pos
              = Ok (false, pos)).
  { destruct post as [|r post].
    - apply at_lexeme_none. now apply skipn_nil_nth.
    - destruct (skipn_cons_nth _ _ _ _ H) as [N _].
      rewrite (at_lexeme_some tokens _ _ _ N). simpl in St.
      now rewrite orb_false_r in St; rewrite St. }
  now rewrite (bind_ok _ _ _ _ _ A).
Qed.

End StatementRoundTrip.

Lemma func_tokens_length fs :
  List.length fs <= List.length (flat_map func_tokens fs).
Proof.
  induction fs as [|[name body] fs IH]; simpl; [lia|].
  rewrite !List.length_app. lia.
Qed.

Lemma parse_program_print p post :
  wf_program p -> stops ["int"] post ->
  Parser.parse (program_tokens p ++ post) = Ok p.
Proof.
  destruct p as [fs]. intros W St. cbn [wf_program] in W. apply all_of_Forall in W.
  unfold Parser.parse, Parser.run, Parser.parse_program, Parser.enough.
  cbn [program_tokens].
  pose proof (func_tokens_length fs) as Lf.
  set (tokens := flat_map func_tokens fs ++ post).
  assert (L : List.length (flat_map func_tokens fs) <= List.length tokens)
    by (unfold tokens; rewrite List.length_app; lia).
  replace (S (List.length tokens))
    with (List.length fs + S (List.length tokens - List.length fs)) at 2 by lia.
  unfold Parser.bind.
  rewrite (parse_functions_print tokens _ fs W _ [] 0 post L eq_refl).
  rewrite (parse_functions_stop tokens _ _ _ _ post); [reflexivity| |exact St].
  unfold tokens. now apply (skipn_app_at _ 0).
Qed.

Lemma parse_program_unclosed fs name body :
  all_of wf_func fs -> all_of wf_stmt body ->
  Parser.parse (program_tokens (Program fs) ++ unclosed_tokens name body)
  = Raise UnexpectedEOF.
Proof.
  intros W Wb. apply all_of_Forall in W.
  unfold Parser.parse, Parser.run, Parser.parse_program, Parser.enough.
  cbn [program_tokens].
  pose proof (func_tokens_length fs) as Lf.
  set (tokens := flat_map func_tokens fs ++ unclosed_tokens name body).
  assert (Lt : List.length tokens
               = List.length (flat_map func_tokens fs)
                 + List.length (unclosed_tokens name body))
    by (unfold tokens; now rewrite List.length_app).
  replace (S (List.length tokens))
    with (List.length fs + S (List.length tokens - List.length fs)) at 2 by lia.
  unfold Parser.bind at 1.
  assert (L : List.length (flat_map func_tokens fs) <= List.length tokens) by lia.
  rewrite (parse_functions_print tokens _ fs W _ [] 0
             (unclosed_tokens name body) L eq_refl).
  assert (H : skipn (0 + List.length (flat_map func_tokens fs)) tokens
              = unclosed_tokens name body)
    by (unfold tokens; now apply (skipn_app_at _ 0)).
  cbn [Parser.parse_functions].
  assert (N : nth_error tokens (0 + List.length (flat_map func_tokens fs))
              = Some (keyword "int")).
  { unfold unclosed_tokens in H. cbn [app] in H.
    now destruct (skipn_cons_nth _ _ _ _ H). }
  rewrite (bind_ok _ _ _ _ _ (at_lexeme_some tokens _ _ _ N)).
  cbn [snd keyword String.eqb Ascii.eqb Bool.eqb andb].
  assert (Lu : List.length (unclosed_tokens name body) <= List.length tokens) by lia.
  now rewrite (bind_raise _ _ _ _
                 (parse_function_unclosed tokens name body _ _ Wb Lu H)).
Qed.

(** X8.  Parsing undoes printing, for whole programs.  A program whose
    expressions are well formed and whose assigned names are neither the
    closing brace nor [else], written as tokens in the concrete syntax
    (expressions with the necessary parentheses only, an empty [else]
    block omitted), is parsed back to the same tree; tokens that follow
    the last function are ignored, provided the first of them does not
    read [int]. *)
Theorem X8_parse_print_program :
  forall p post,
    wf_program p -> stops ["int"] post ->
    Parser.parse (program_tokens p ++ post) = Ok p.
Proof. exact parse_program_print. Qed.

Lemma X8_witness :
  Parser.parse
    (program_tokens
       (Program
          [Func "f" [Declaration "x";
                     Assignment "x" (BinaryOp "*" (BinaryOp "+" (Number 1) (Var "y"))
                                                  (Number 3));
                     If (BinaryOp "<" (Var "x") (Number 10))
                        [While (Var "x")
                               [Assignment "x" (BinaryOp "-" (Var "x") (Number 1))]]
                        [Return (Number 0)];
                     If (Var "x") [] [];
                     Return (Var "x")];
           Func "main" []])
     ++ [(SYMBOL, "}"); (KEYWORD, "int")])
  = Ok (Program
          [Func "f" [Declaration "x";
                     Assignment "x" (BinaryOp "*" (BinaryOp "+" (Number 1) (Var "y"))
                                                  (Number 3));
                     If (BinaryOp "<" (Var "x") (Number 10))
                        [While (Var "x")
                               [Assignment "x" (BinaryOp "-" (Var "x") (Number 1))]]
                        [Return (Number 0)];
                     If (Var "x") [] [];
                     Return (Var "x")];
           Func "main" []]).
Proof.
  apply X8_parse_print_program.
  - simpl. repeat split; lia.
  - reflexivity.
Defined.

(** X9.  A missing closing brace at the end of the input is reported as
    the end-of-file error whenever everything before it is whole: after
    any number of complete functions, a function header followed by
    complete well-formed statements and then the end of the input makes
    [parse] raise the end-of-file exception. *)
Theorem X9_missing_brace_is_end_of_file :
  forall fs name body,
    wf_program (Program fs) -> all_of wf_stmt body ->
    Parser.parse (program_tokens (Program fs) ++ unclosed_tokens name body)
    = Raise UnexpectedEOF.
Proof. exact parse_program_unclosed. Qed.

Lemma X9_witness :
  Parser.parse
    (program_tokens (Program [Func "f" [Return (Number 1)]])
     ++ unclosed_tokens "main"
          [Declaration "a"; If (Var "a") [Assignment "a" (Number 2)] []])
  = Raise UnexpectedEOF.
Proof.
  apply X9_missing_brace_is_end_of_file; simpl; repeat split; lia.
Defined.

Lemma parse_program_stop tokens :
  stops ["int"] tokens ->
  Parser.parse_program tokens (Parser.enough tokens) 0 = Ok (Program [], 0).
Proof.
  intros St. unfold Parser.parse_program, Parser.enough.
  now rewrite (bind_ok _ _ _ _ _
                 (parse_functions_stop tokens _ _ [] 0 tokens eq_refl St)).
Qed.

(** X10.  Input that does not start with the lexeme [int] is accepted as
    the empty program: [parse_program] returns a program without
    functions with the cursor still at the first token, so it has read
    nothing; [parse] raises nothing and returns that program, and the
    compiler's output for it is the three header lines alone. *)
Theorem X10_no_leading_int_is_empty_program :
  forall tokens,
    stops ["int"] tokens ->
    Parser.parse_program tokens (Parser.enough tokens) 0 = Ok (Program [], 0)
    /\ Parser.parse tokens = Ok (Program [])
    /\ CodeGenerator.generate_lines (Program [])
       = [".section .text"; ".globl _start"; ""].
Proof.
  intros tokens St. split; [now apply parse_program_stop|].
  split; [|reflexivity].
  unfold Parser.parse, Parser.run. now rewrite (parse_program_stop tokens St).
Qed.

Lemma X10_witness :
  Lexer.tokenize "return 1; }"
  = Ok [(KEYWORD, "return"); (NUMBER, "1"); (SYMBOL, ";"); (SYMBOL, "}")]
  /\ Parser.parse_program
       [(KEYWORD, "return"); (NUMBER, "1"); (SYMBOL, ";"); (SYMBOL, "}")]
       (Parser.enough
          [(KEYWORD, "return"); (NUMBER, "1"); (SYMBOL, ";"); (SYMBOL, "}")])
       0
     = Ok (Program [], 0).
Proof.
  split; [vm_compute; reflexivity|].
  apply (proj1 (X10_no_leading_int_is_empty_program
                  [(KEYWORD, "return"); (NUMBER, "1"); (SYMBOL, ";"); (SYMBOL, "}")]
                  eq_refl)).
Defined.

(* ================================================================== *)
(** * From the source text to the assembly *)

(** X11.  The front end reads back every program it can be given in
    writing: when the tokens of a well-formed program are all tokens the
    lexer can produce (its names are identifiers that are no keywords,
    its operators registered symbols), the source text made of these
    tokens is tokenized and parsed to that very program, and the compiler
    emits for it the code of that program. *)
Theorem X11_source_round_trip :
  forall p,
    wf_program p -> Forall well_formed (program_tokens p) ->
    parse_source (unlex (program_tokens p)) = Ok p
    /\ compile_lines (unlex (program_tokens p))
       = Ok (CodeGenerator.generate_lines p).
Proof.
  intros p W L.
  assert (P : parse_source (unlex (program_tokens p)) = Ok p).
  { unfold parse_source. rewrite (tokenize_unlex _ L).
    rewrite <- (app_nil_r (program_tokens p)).
    now apply parse_program_print. }
  split; [exact P|]. unfold compile_lines. now rewrite P.
Qed.

Lemma X11_witness :
  unlex (program_tokens
           (Program [Func "main" [Declaration "a";
                                  Assignment "a" (BinaryOp "*" (BinaryOp "+" (Number 10) (Var "a")) (Number 5));
                                  Return (Var "a")]]))
  = "int main ( ) { int a ; a = ( 10 + a ) * 5 ; return a ; } "
  /\ parse_source "int main ( ) { int a ; a = ( 10 + a ) * 5 ; return a ; } "
     = Ok (Program [Func "main" [Declaration "a";
                                 Assignment "a" (BinaryOp "*" (BinaryOp "+" (Number 10) (Var "a")) (Number 5));
                                 Return (Var "a")]]).
Proof.
  split; [vm_compute; reflexivity|].
  apply (proj1 (X11_source_round_trip
                  (Program [Func "main" [Declaration "a";
                                         Assignment "a" (BinaryOp "*" (BinaryOp "+" (Number 10) (Var "a")) (Number 5));
                                         Return (Var "a")]])
                  ltac:(simpl; repeat split; lia)
                  ltac:(repeat (constructor;
                                [unfold well_formed; simpl;
                                 intuition (auto; discriminate)|]);
                        constructor))).
Defined.

(** X12.  The compiler stops on every source text: the lexer and the
    parser always return or raise, whatever the input, because every turn
    of their loops and every recursive call comes after the cursor has
    moved forward. *)
Theorem X12_compiler_always_stops :
  forall source,
    (exists lines, compile_lines source = Ok lines)
    \/ (exists e, compile_lines source = Raise e).
Proof.
  intros source. unfold compile_lines, parse_source.
  pose proof (tokenize_terminates source) as T.
  destruct (Lexer.tokenize source) as [tokens|e|]; [|right; now exists e|now elim T].
  destruct (parse_program_terminates tokens) as [P _].
  destruct (Parser.parse tokens) as [ast|e|]; [left|right|now elim P]; eauto.
Qed.

(* ================================================================== *)
(** * More on the code generator *)

Lemma generate_function_lines f g :
  generate_function f g
  = mk (variables g) (label_counter g + function_labels_used f)
       (code g ++ function_lines f (label_counter g)).
Proof.
  destruct f as [name body]. unfold generate_function.
  rewrite (generate_statements_lines body)
    by (apply Forall_forall; intros s _; apply generate_statement_lines).
  unfold function_lines, frame_lines, function_label, function_labels_used.
  destruct (local_vars body) as [|v vars]; cbn [nonempty];
    destruct (String.eqb name "main"); unfold emit;
    cbn [variables label_counter code]; rewrite <- !app_assoc; reflexivity.
Qed.

Lemma generate_functions_lines fs g :
  fold_left (fun g f => generate_function f g) fs g
  = mk (variables g) (label_counter g + list_sum (map function_labels_used fs))
       (code g ++ functions_lines fs (label_counter g)).
Proof.
  revert g. induction fs as [|f fs IH]; intros g;
    cbn [fold_left map list_sum fold_right functions_lines].
  - rewrite Nat.add_0_r, app_nil_r. now destruct g.
  - rewrite IH, generate_function_lines. cbn [variables label_counter code].
    fold (list_sum (map function_labels_used fs)).
    now rewrite Nat.add_assoc, <- app_assoc.
Qed.

Lemma generate_program_lines p g :
  generate_program p g
  = mk (variables g) (label_counter g + program_labels_used p)
       (code g ++ program_lines p (label_counter g)).
Proof.
  destruct p as [fs]. unfold generate_program.
  rewrite generate_functions_lines. unfold emit.
  cbn [variables label_counter code program_lines program_labels_used].
  now rewrite <- !app_assoc.
Qed.

(** X13.  The generator only appends, and what it appends is a function of
    the program and of the label counter alone.  Run on a generator in any
    state, [generate] leaves the lines already there in place (a generator
    used twice returns the first program's code followed by the
    second's), adds the three header lines and then, function by
    function, the label, the prologue, the frame reservation, the code of
    the body and the epilogue; it advances the label counter by the number
    of labels used and never writes the field [variables]. *)
Theorem X13_generator_appends_program_lines :
  forall p g,
    generate_program p g
    = mk (variables g) (label_counter g + program_labels_used p)
         (code g ++ program_lines p (label_counter g))
    /\ generate_lines p = program_lines p 0.
Proof.
  intros p g. split; [apply generate_program_lines|].
  unfold generate_lines. now rewrite generate_program_lines.
Qed.

(** ** The frame of a function *)

Lemma top_declared_In x body : In x (top_declared body) <-> In (Declaration x) body.
Proof.
  unfold top_declared. rewrite in_flat_map. split.
  - intros (s & I & H). destruct s; simpl in H; try contradiction.
    destruct H as [->|[]]. exact I.
  - intros I. exists (Declaration x). split; [exact I | now left].
Qed.

Lemma local_vars_length body :
  List.length (local_vars body)
  = List.length (nodup string_dec (top_declared body)).
Proof.
  destruct (local_vars_spec body) as [N I].
  apply Permutation_length, NoDup_Permutation; [exact N | apply NoDup_nodup |].
  intros x. rewrite nodup_In, top_declared_In. apply I.
Qed.

Lemma frame_lines_reserve body :
  frame_lines body
  = reserve (List.length (nodup string_dec (top_declared body))).
Proof.
  unfold frame_lines. rewrite <- local_vars_length.
  now destruct (local_vars body).
Qed.

(** X14.  The frame of a function has one word of four bytes for each
    distinct name declared by a statement of the body itself: a name
    declared twice is counted once, and when there is no such declaration
    no [sub] line is emitted at all.  The code of the function is its
    label, the two prologue lines, this reservation, the code of the body
    and the four epilogue lines. *)
Theorem X14_frame_counts_distinct_declarations :
  forall name body g,
    code (generate_function (Func name body) g)
    = code g
      ++ [function_label name; "push %ebp"; "mov %esp, %ebp"]
      ++ reserve (List.length (nodup string_dec (top_declared body)))
      ++ block_lines statement_lines body (label_counter g)
      ++ ["mov %ebp, %esp"; "pop %ebp"; "ret"; ""].
Proof.
  intros name body g. rewrite generate_function_lines.
  cbn [code function_lines]. now rewrite frame_lines_reserve.
Qed.

(** ** The stack is left as it was found *)

Lemma stack_after_app a b d :
  stack_after (a ++ b) d
  = match stack_after a d with
    | Some d' => stack_after b d'
    | None => None
    end.
Proof.
  revert d. induction a as [|line a IH]; intros d; cbn [app stack_after];
    [reflexivity|].
  destruct (ends_with_colon line); [apply IH|].
  destruct (String.prefix "push " line); [apply IH|].
  destruct (String.prefix "pop " line); [|apply IH].
  destruct d; [reflexivity | apply IH].
Qed.

Lemma stack_skip line rest d :
  (String.prefix "push " line || String.prefix "pop " line) = false ->
  stack_after (line :: rest) d = stack_after rest d.
Proof.
  intros H. apply orb_false_elim in H. destruct H as [H1 H2].
  cbn [stack_after]. rewrite H1, H2. now destruct (ends_with_colon line).
Qed.

Lemma stack_skip_all lines d :
  Forall (fun line =>
            (String.prefix "push " line || String.prefix "pop " line) = false)
         lines ->
  stack_after lines d = Some d.
Proof.
  induction 1 as [|line lines H _ IH]; [reflexivity|].
  now rewrite stack_skip.
Qed.

Lemma stack_operator_lines op d : stack_after (operator_lines op) d = Some d.
Proof.
  apply stack_skip_all. pose proof (operator_lines_cases op) as C. simpl in C.
  repeat (destruct C as [C|C]; [rewrite <- C; repeat constructor|]).
  contradiction.
Qed.

Lemma stack_expression_lines e d : stack_after (expression_lines e) d = Some d.
Proof.
  revert d. induction e as [v|x|op lhs IHl rhs IHr]; intros d;
    cbn [expression_lines].
  - now rewrite stack_skip.
  - now rewrite stack_skip.
  - rewrite stack_after_app, IHr.
    change (stack_after (["push %eax"] ++ ?l) d)
      with (stack_after l (S d)).
    rewrite stack_after_app, IHl.
    change (stack_after (["pop %ecx"] ++ ?l) (S d))
      with (stack_after l d).
    apply stack_operator_lines.
Qed.

Lemma stack_app_same a b d :
  stack_after a d = Some d -> stack_after (a ++ b) d = stack_after b d.
Proof. intros H. now rewrite stack_after_app, H. Qed.

Lemma stack_block_lines l :
  Forall (fun s => forall c d, stack_after (statement_lines s c) d = Some d) l ->
  forall c d, stack_after (block_lines statement_lines l c) d = Some d.
Proof.
  induction 1 as [|s l H _ IH]; intros c d; cbn [block_lines]; [reflexivity|].
  now rewrite stack_app_same by apply H.
Qed.

Lemma stack_statement_lines s :
  forall c d, stack_after (statement_lines s c) d = Some d.
Proof.
  induction s as [e|x|x e|cond th el IHt IHe|cond b IHb] using stmt_ind;
    intros c d; cbn [statement_lines].
  - now rewrite stack_app_same by apply stack_expression_lines.
  - reflexivity.
  - rewrite stack_app_same by apply stack_expression_lines.
    now rewrite stack_skip.
  - rewrite stack_app_same by apply stack_expression_lines.
    cbn [app]. rewrite stack_skip by reflexivity.
    rewrite stack_skip by (destruct el; reflexivity).
    rewrite stack_app_same by apply (stack_block_lines th IHt).
    destruct el as [|s el]; cbn [nonempty app].
    + now rewrite stack_skip.
    + rewrite stack_skip by reflexivity. rewrite stack_skip by reflexivity.
      rewrite stack_app_same by apply (stack_block_lines (s :: el) IHe).
      now rewrite stack_skip.
  - cbn [app]. rewrite stack_skip by reflexivity.
    rewrite stack_app_same by apply stack_expression_lines.
    cbn [app]. rewrite stack_skip by reflexivity.
    rewrite stack_skip by reflexivity.
    rewrite stack_app_same by apply (stack_block_lines b IHb).
    rewrite stack_skip by reflexivity. now rewrite stack_skip.
Qed.

Lemma function_label_colon name : ends_with_colon (function_label name) = true.
Proof.
  unfold function_label. destruct (String.eqb name "main"); [reflexivity|].
  now rewrite ends_with_colon_app by discriminate.
Qed.

Lemma stack_function_lines f c d : stack_after (function_lines f c) d = Some d.
Proof.
  destruct f as [name body]. cbn [function_lines app].
  assert (Label : forall rest k,
             stack_after (function_label name :: rest) k = stack_after rest k).
  { intros rest k. cbn [stack_after]. now rewrite function_label_colon. }
  rewrite Label.
  change (stack_after ("push %ebp" :: ?l) d) with (stack_after l (S d)).
  rewrite stack_skip by reflexivity.
  assert (F : stack_after (frame_lines body) (S d) = Some (S d)).
  { unfold frame_lines. destruct (local_vars body); [reflexivity|].
    now rewrite stack_skip. }
  rewrite (stack_app_same _ _ _ F).
  rewrite stack_app_same
    by (apply stack_block_lines, Forall_forall; intros s _;
        apply stack_statement_lines).
  reflexivity.
Qed.

Lemma stack_functions_lines fs c d : stack_after (functions_lines fs c) d = Some d.
Proof.
  revert c. induction fs as [|f fs IH]; intros c; cbn [functions_lines];
    [reflexivity|].
  now rewrite stack_app_same by apply stack_function_lines.
Qed.

(** X15.  The generated code leaves the stack as it found it and never
    pops a word it did not push: read from top to bottom, the code of an
    expression, of a statement and of a whole program has as many [pop]
    as [push] lines, each [pop] after its [push]. *)
Theorem X15_push_pop_balanced :
  (forall e depth, stack_after (expression_lines e) depth = Some depth)
  /\ (forall s c depth, stack_after (statement_lines s c) depth = Some depth)
  /\ (forall p, stack_after (generate_lines p) 0 = Some 0).
Proof.
  split; [exact stack_expression_lines|].
  split; [exact stack_statement_lines|].
  intros [fs]. unfold generate_lines. rewrite generate_program_lines.
  cbn [code init app program_lines].
  do 3 (rewrite stack_skip by reflexivity). apply stack_functions_lines.
Qed.

(** ** Every jump has its label *)

Lemma targets_in_app a b whole :
  targets_in a whole -> targets_in b whole -> targets_in (a ++ b) whole.
Proof.
  intros Ha Hb line target I J. apply in_app_or in I.
  destruct I as [I|I]; [now apply (Ha line) | now apply (Hb line)].
Qed.

Lemma targets_in_none lines whole :
  Forall (fun line => jump_target line = None) lines -> targets_in lines whole.
Proof.
  intros F line target I J. rewrite Forall_forall in F.
  rewrite (F line I) in J. discriminate J.
Qed.

Lemma targets_in_incl lines whole whole' :
  targets_in lines whole -> incl whole whole' -> targets_in lines whole'.
Proof. intros H I line target Hl J. apply I. now apply (H line). Qed.

Lemma jump_target_label_line (s : string) :
  ends_with_colon s = true -> jump_target s = None.
Proof. intros H. unfold jump_target. now rewrite H. Qed.

Lemma jump_target_je k : jump_target ("je " ++ label k)%string = Some (label k).
Proof. unfold jump_target. now rewrite jump_no_colon. Qed.

Lemma jump_target_jmp k : jump_target ("jmp " ++ label k)%string = Some (label k).
Proof. unfold jump_target. now rewrite jump_no_colon. Qed.

Lemma targets_in_je k whole :
  In (label_line k) whole -> targets_in [("je " ++ label k)%string] whole.
Proof.
  intros H line target [<-|[]] J. rewrite jump_target_je in J.
  injection J as <-. exact H.
Qed.

Lemma targets_in_jmp k whole :
  In (label_line k) whole -> targets_in [("jmp " ++ label k)%string] whole.
Proof.
  intros H line target [<-|[]] J. rewrite jump_target_jmp in J.
  injection J as <-. exact H.
Qed.

Lemma no_jump_not_j (line : string) :
  (String.prefix "j" line) = false -> jump_target line = None.
Proof.
  intros H. unfold jump_target. destruct (ends_with_colon line); [reflexivity|].
  destruct line as [|c line]; [reflexivity|].
  cbn [String.prefix] in *. destruct (ascii_dec "j" c); [|reflexivity].
  destruct line; discriminate H.
Qed.

Lemma operator_lines_no_jump op :
  Forall (fun line => jump_target line = None) (operator_lines op).
Proof.
  pose proof (operator_lines_cases op) as C. simpl in C.
  repeat (destruct C as [C|C]; [rewrite <- C; repeat constructor|]).
  contradiction.
Qed.

Lemma expression_lines_no_jump e :
  Forall (fun line => jump_target line = None) (expression_lines e).
Proof.
  induction e as [v|x|op lhs IHl rhs IHr]; cbn [expression_lines].
  - constructor; [now apply no_jump_not_j | constructor].
  - constructor; [now apply no_jump_not_j | constructor].
  - repeat (apply Forall_app; split); auto;
      try (constructor; [reflexivity | constructor]).
    apply operator_lines_no_jump.
Qed.

Lemma targets_in_block l :
  Forall (fun s => forall c,
              targets_in (statement_lines s c) (statement_lines s c)) l ->
  forall c,
    targets_in (block_lines statement_lines l c)
               (block_lines statement_lines l c).
Proof.
  induction 1 as [|s l H _ IH]; intros c; cbn [block_lines].
  - intros line target [].
  - apply targets_in_app.
    + apply (targets_in_incl _ _ _ (H c)). apply incl_appl, incl_refl.
    + apply (targets_in_incl _ _ _ (IH _)). apply incl_appr, incl_refl.
Qed.

Lemma targets_in_cons line next rest whole :
  targets_in [line] whole -> targets_in (next :: rest) whole ->
  targets_in (line :: next :: rest) whole.
Proof. intros H1 H2. now apply (targets_in_app [line] (next :: rest)). Qed.

Ltac in_lines :=
  repeat (rewrite in_app_iff || cbn [In]); tauto.

Ltac plain_targets :=
  first
    [ apply targets_in_none, expression_lines_no_jump
    | apply targets_in_je; in_lines
    | apply targets_in_jmp; in_lines
    | apply targets_in_none; constructor;
      [apply jump_target_label_line, label_line_colon | constructor]
    | apply targets_in_none; constructor; [reflexivity | constructor]
    | intros ? ? [] ].

Lemma targets_in_statement s :
  forall c, targets_in (statement_lines s c) (statement_lines s c).
Proof.
  induction s as [e|x|x e|cond th el IHt IHe|cond b IHb] using stmt_ind;
    intros c; cbn [statement_lines].
  - apply targets_in_none, Forall_app. split;
      [apply expression_lines_no_jump | repeat constructor].
  - intros line target [].
  - apply targets_in_none, Forall_app. split;
      [apply expression_lines_no_jump|].
    constructor; [now apply no_jump_not_j | constructor].
  - fold (label_line (c + 1)) (label_line (c + 1 + 1)).
    pose proof (targets_in_block th IHt) as Bt.
    pose proof (targets_in_block el IHe) as Be.
    destruct (nonempty el);
      repeat (apply targets_in_app || apply targets_in_cons);
      try plain_targets;
      [ apply (targets_in_incl _ _ _ (Bt _))
      | apply (targets_in_incl _ _ _ (Be _))
      | apply (targets_in_incl _ _ _ (Bt _)) ];
      intros line I; in_lines.
  - fold (label_line (c + 1)) (label_line (c + 1 + 1)).
    pose proof (targets_in_block b IHb) as Bb.
    repeat (apply targets_in_app || apply targets_in_cons);
      try plain_targets.
    apply (targets_in_incl _ _ _ (Bb _)). intros line I. in_lines.
Qed.

Lemma targets_in_function f c :
  targets_in (function_lines f c) (function_lines f c).
Proof.
  destruct f as [name body]. cbn [function_lines].
  assert (B : targets_in (block_lines statement_lines body c)
                         (block_lines statement_lines body c)).
  { apply targets_in_block, Forall_forall. intros s _.
    apply targets_in_statement. }
  assert (F : targets_in (frame_lines body)
                ([function_label name; "push %ebp"; "mov %esp, %ebp"]
                 ++ frame_lines body ++ block_lines statement_lines body c
                 ++ ["mov %ebp, %esp"; "pop %ebp"; "ret"; ""])).
  { apply targets_in_none. unfold frame_lines.
    destruct (local_vars body); constructor; [|constructor].
    now apply no_jump_not_j. }
  repeat (apply targets_in_app || apply targets_in_cons);
    try exact F;
    try (apply targets_in_none; constructor;
         [apply jump_target_label_line, function_label_colon | constructor]);
    try plain_targets.
  apply (targets_in_incl _ _ _ B). intros line I. in_lines.
Qed.

Lemma targets_in_functions fs :
  forall c, targets_in (functions_lines fs c) (functions_lines fs c).
Proof.
  induction fs as [|f fs IH]; intros c; cbn [functions_lines].
  - intros line target [].
  - apply targets_in_app.
    + apply (targets_in_incl _ _ _ (targets_in_function f c)).
      apply incl_appl, incl_refl.
    + apply (targets_in_incl _ _ _ (IH _)). apply incl_appr, incl_refl.
Qed.

(** X16.  No jump of the generated code is left without its label: for
    every [je] or [jmp] line in the assembly of a program, the line that
    defines the label it names is in that assembly too. *)
Theorem X16_every_jump_has_its_label :
  forall p line target,
    In line (generate_lines p) ->
    jump_target line = Some target ->
    In (target ++ ":")%string (generate_lines p).
Proof.
  intros [fs]. unfold generate_lines.
  rewrite generate_program_lines. cbn [code init app program_lines].
  change (targets_in
            (".section .text" :: ".globl _start" :: "" :: functions_lines fs 0)
            (".section .text" :: ".globl _start" :: "" :: functions_lines fs 0)
            ).
  apply (targets_in_app [".section .text"; ".globl _start"; ""]).
  - apply targets_in_none. repeat constructor.
  - apply (targets_in_incl _ _ _ (targets_in_functions fs 0)).
    intros l I. in_lines.
Qed.

Lemma X16_witness :
  In "L2:"
     (generate_lines
        (Program [Func "main" [While (Var "a") [Assignment "a" (Number 0)]]])).
Proof.
  apply (X16_every_jump_has_its_label
           (Program [Func "main" [While (Var "a") [Assignment "a" (Number 0)]]])
           "je L2" "L2").
  - vm_compute. tauto.
  - reflexivity.
Defined.

(** ** The labels of a whole program *)

Lemma label_definitions_app a b :
  label_definitions (a ++ b) = label_definitions a ++ label_definitions b.
Proof. apply filter_app. Qed.

Lemma frame_lines_no_label body : label_definitions (frame_lines body) = [].
Proof.
  unfold frame_lines, label_definitions.
  destruct (local_vars body); [reflexivity|]. cbn [filter].
  now rewrite !ends_with_colon_app by (try apply append_nonempty; discriminate).
Qed.

Lemma function_lines_labels name body c :
  label_definitions (function_lines (Func name body) c)
  = function_label name
    :: label_definitions (block_lines statement_lines body c).
Proof.
  cbn [function_lines]. rewrite !label_definitions_app, frame_lines_no_label.
  unfold label_definitions at 1. cbn [filter].
  rewrite function_label_colon. cbn [ends_with_colon Ascii.eqb Bool.eqb app].
  unfold label_definitions at 2. cbn. now rewrite app_nil_r.
Qed.

Lemma block_labels_in_range body c :
  NoDup (label_definitions (block_lines statement_lines body c))
  /\ forall line,
       In line (label_definitions (block_lines statement_lines body c)) ->
       exists k, line = label_line k
                 /\ c < k <= c + list_sum (map labels_used body).
Proof.
  apply defines_labels_distinct, block_lines_labels, Forall_forall.
  intros s _. apply statement_lines_labels.
Qed.

Lemma functions_labels fs :
  NoDup (map (fun f => function_label (func_name f)) fs) ->
  (forall f k, In f fs -> function_label (func_name f) <> label_line k) ->
  forall c,
    NoDup (label_definitions (functions_lines fs c))
    /\ forall line,
         In line (label_definitions (functions_lines fs c)) ->
         In line (map (fun f => function_label (func_name f)) fs)
         \/ exists k, line = label_line k /\ c < k.
Proof.
  induction fs as [|[name body] fs IH]; intros N D c; cbn [functions_lines].
  - split; [constructor | intros line []].
  - cbn [map func_name] in N. inversion N as [|? ? Nf Nfs]; subst.
    destruct (IH Nfs (fun f k I => D f k (or_intror I))
                 (c + function_labels_used (Func name body))) as [NR CR].
    destruct (block_labels_in_range body c) as [NB CB].
    cbn [function_labels_used] in *.
    assert (Dn : forall k, function_label name <> label_line k)
      by (intros k; apply (D (Func name body) k (or_introl eq_refl))).
    rewrite label_definitions_app, function_lines_labels. cbn [app map func_name].
    split.
    + constructor.
      * intros I. apply in_app_or in I. destruct I as [I|I].
        -- destruct (CB _ I) as (k & E & _). now apply (Dn k).
        -- destruct (CR _ I) as [I'|(k & E & _)]; [now apply Nf | now apply (Dn k)].
      * apply NoDup_app; [exact NB | exact NR |].
        intros line Ib Ir. destruct (CB _ Ib) as (k & -> & Rk).
        destruct (CR _ Ir) as [I'|(k' & E & Rk')].
        -- apply in_map_iff in I'. destruct I' as (f & E & If).
           apply (D f k (or_intror If) E).
        -- apply label_line_inj in E. lia.
    + intros line [<-|I]; [now left; left|].
      apply in_app_or in I. destruct I as [I|I].
      * destruct (CB _ I) as (k & E & Rk). right. exists k. split; [exact E | lia].
      * destruct (CR _ I) as [I'|(k & E & Rk)]; [now left; right|].
        right. exists k. split; [exact E | lia].
Qed.




(** X17.  The label definitions of a whole program are pairwise distinct
    as soon as its function labels are: when no two functions get the same
    label and no function label has the form of a generated label [Lk:],
    no label is defined twice in the assembly, across all functions (the
    label counter is not reset between functions). *)
Theorem X17_program_labels_distinct :
  forall fs,
    NoDup (map (fun f => function_label (func_name f)) fs) ->
    (forall f k, In f fs -> function_label (func_name f) <> label_line k) ->
    NoDup (label_definitions (generate_lines (Program fs))).
Proof.
  intros fs N D. unfold generate_lines. rewrite generate_program_lines.
  cbn [code init app program_lines].
  change (label_definitions
            (".section .text" :: ".globl _start" :: "" :: functions_lines fs 0))
    with (label_definitions (functions_lines fs 0)).
  apply (functions_labels fs N D 0).
Qed.

Lemma X17_witness :
  NoDup (label_definitions
           (generate_lines
              (Program [Func "f" [If (Var "a") [Return (Number 1)]
                                     [Return (Number 2)]];
                        Func "main" [While (Var "a") []]]))).
Proof.
  apply X17_program_labels_distinct.
  - repeat constructor; simpl; intuition discriminate.
  - intros f k [<-|[<-|[]]]; discriminate.
Defined.

(** X18.  The generator does not keep the names of functions apart from
    the labels it generates.  A function named [L2] whose body starts with
    an [if] or a [while] gets the label [L2:] twice in the assembly: once
    as the label of the function and once as the end label of that first
    statement. *)
Theorem X18_function_name_can_collide_with_label :
  forall s body,
    0 < labels_used s ->
    ~ NoDup (label_definitions (generate_lines (Program [Func "L2" (s :: body)]))).
Proof.
  intros s body U. unfold generate_lines. rewrite generate_program_lines.
  cbn [code label_counter init app program_lines functions_lines].
  change (label_definitions
            (".section .text" :: ".globl _start" :: ""
             :: function_lines (Func "L2" (s :: body)) 0 ++ []))
    with (label_definitions (function_lines (Func "L2" (s :: body)) 0 ++ [])).
  rewrite app_nil_r, function_lines_labels. cbn [block_lines].
  rewrite label_definitions_app.
  change (function_label "L2") with (label_line 2).
  intros N. inversion N as [|? ? Nin _]; subst. apply Nin.
  apply in_or_app. left. unfold label_definitions. apply filter_In.
  split; [|apply label_line_colon].
  destruct s as [e|x|x e|c t e|c b]; cbn [labels_used] in U; try lia;
    cbn [statement_lines]; fold (label_line (0 + 1)) (label_line (0 + 1 + 1));
    in_lines.
Qed.

Lemma X18_witness :
  label_definitions
    (generate_lines (Program [Func "L2" [While (Var "a") []; Return (Var "a")]]))
  = ["L2:"; "L1:"; "L2:"]
  /\ ~ NoDup (label_definitions
                (generate_lines
                   (Program [Func "L2" [While (Var "a") []; Return (Var "a")]]))).
Proof.
  split; [vm_compute; reflexivity|].
  apply (X18_function_name_can_collide_with_label (While (Var "a") [])
           [Return (Var "a")]).
  simpl. lia.
Defined.

(* ================================================================== *)
(** * The trees the front end returns *)

Lemma yields_ret {A} (P : A -> Prop) a : P a -> yields P (Parser.ret a).
Proof. intros H pos a' pos' [= <- _]. exact H. Qed.

Lemma yields_raise {A} (P : A -> Prop) e : yields P (Parser.raise e).
Proof. intros pos a pos' H. discriminate H. Qed.

Lemma yields_out_of_fuel {A} (P : A -> Prop) : yields P Parser.out_of_fuel.
Proof. intros pos a pos' H. discriminate H. Qed.

Lemma yields_bind {A B} (Q : A -> Prop) (P : B -> Prop) m k :
  yields Q m -> (forall a, Q a -> yields P (k a)) ->
  yields P (Parser.bind m k).
Proof.
  intros Hm Hk pos b pos'. unfold Parser.bind.
  destruct (m pos) as [[a p]| |] eqn:E; try discriminate.
  apply (Hk a (Hm _ _ _ E)).
Qed.

Lemma yields_then {A B} (P : B -> Prop) (m : Parser.parser A) k :
  (forall a, yields P (k a)) -> yields P (Parser.bind m k).
Proof.
  intros Hk. apply (yields_bind (fun _ => True)); [now intros ? ? ? _ | auto].
Qed.

Section FrontEnd.

Variable tokens : list token.
Hypothesis tokens_well_formed : Forall well_formed tokens.

Lemma eat_member ty v pos t pos' :
  Parser.eat tokens ty v pos = Ok (t, pos') ->
  nth_error tokens pos = Some t /\ fst t = ty /\ well_formed t.
Proof.
  unfold Parser.eat, Parser.bind, Parser.current_token.
  destruct (nth_error tokens pos) as [t0|] eqn:N; [|discriminate].
  destruct (Parser.mismatch t0 ty v) eqn:M; [discriminate|].
  intros [= <- _]. split; [reflexivity|]. split.
  - unfold Parser.mismatch in M. apply orb_false_elim in M. destruct M as [M _].
    apply negb_false_iff, token_kind_eqb_eq in M. exact M.
  - rewrite Forall_forall in tokens_well_formed.
    apply tokens_well_formed. now apply (nth_error_In _ pos).
Qed.

Lemma yields_eat ty v :
  yields (fun t => fst t = ty /\ well_formed t) (Parser.eat tokens ty v).
Proof. intros pos t pos' H. now apply eat_member in H. Qed.

Lemma identifier_eaten (t : token) :
  fst t = IDENTIFIER /\ well_formed t -> well_formed (IDENTIFIER, snd t).
Proof. destruct t as [k x]. cbn [fst snd]. now intros [-> W]. Qed.

Lemma int_nonneg lexeme value : PyStr.int lexeme = Some value -> (0 <= value)%Z.
Proof.
  unfold PyStr.int. destruct (NilZero.uint_of_string lexeme); [|discriminate].
  intros [= <-]. unfold Z.of_uint. apply N2Z.is_nonneg.
Qed.

Lemma tier_ops_generated t v :
  mem v (tier_ops t) = true -> In v Lexer.symbols -> In v generated_ops.
Proof.
  intros M S. apply mem_In in M. destruct t; simpl in M;
    repeat (destruct M as [<-|M]; [simpl; tauto|]); try contradiction.
  - destruct M as [<-|M]; [|destruct M as [<-|[]]];
      simpl in S; intuition discriminate.
Qed.

Lemma binary_loop_yields t operand :
  yields source_expr operand ->
  forall fuel e,
    source_expr e ->
    yields source_expr (Parser.binary_loop tokens (tier_ops t) operand fuel e).
Proof.
  intros Ho. induction fuel as [|fuel IH]; intros e He;
    cbn [Parser.binary_loop]; [apply yields_out_of_fuel|].
  intros pos a pos'.
  unfold Parser.bind at 1. unfold Parser.at_lexeme, Parser.bind at 1.
  unfold Parser.current_token.
  destruct (nth_error tokens pos) as [t0|] eqn:N; unfold Parser.ret.
  - destruct (mem (snd t0) (tier_ops t)) eqn:M.
    + unfold Parser.bind at 1.
      destruct (Parser.eat tokens SYMBOL None pos) as [[op p1]| |] eqn:E;
        try discriminate.
      destruct (eat_member _ _ _ _ _ E) as (N' & K & W).
      rewrite N in N'. injection N' as <-.
      apply (yields_bind source_expr); [exact Ho|].
      intros r Hr. apply IH. cbn [source_expr]. split; [|auto].
      apply (tier_ops_generated t _ M).
      destruct t0 as [k v]. cbn [fst snd] in *. subst k. exact W.
    + intros [= <- _]. exact He.
  - intros [= <- _]. exact He.
Qed.

Lemma parse_primary_yields rec :
  yields source_expr rec ->
  yields source_expr (Parser.parse_primary tokens rec).
Proof.
  intros Hr pos e pos'. unfold Parser.parse_primary.
  unfold Parser.bind at 1. unfold Parser.current_token.
  destruct (nth_error tokens pos) as [[k v]|] eqn:N; [|discriminate].
  assert (W : well_formed (k, v)).
  { rewrite Forall_forall in tokens_well_formed.
    apply tokens_well_formed. now apply (nth_error_In _ pos). }
  assert (Paren : yields source_expr
                    (if String.eqb v "(" then
                       Parser.bind (Parser.eat tokens SYMBOL (Some "("))
                         (fun _ => Parser.bind rec
                            (fun e => Parser.bind
                                        (Parser.eat tokens SYMBOL (Some ")"))
                                        (fun _ => Parser.ret e)))
                     else Parser.raise (UnexpectedToken v))).
  { destruct (String.eqb v "("); [|apply yields_raise].
    apply yields_then. intros _. apply (yields_bind source_expr); [exact Hr|].
    intros e0 He0. apply yields_then. intros _. now apply yields_ret. }
  destruct k; cbn [fst snd].
  - apply Paren.
  - apply (fun Y : yields source_expr _ => Y pos e pos').
    apply yields_then. intros _. now apply yields_ret.
  - apply (fun Y : yields source_expr _ => Y pos e pos').
    apply yields_then. intros _.
    destruct (PyStr.int v) as [value|] eqn:I; [|apply yields_raise].
    apply yields_ret. now apply (int_nonneg v).
  - apply Paren.
Qed.

Lemma tier_parser_yields rec fuel t :
  yields source_expr rec ->
  yields source_expr (tier_parser tokens rec fuel t)
  /\ yields source_expr (tier_operand tokens rec fuel t).
Proof.
  intros Hr.
  pose proof (parse_primary_yields rec Hr) as P.
  assert (M : yields source_expr (Parser.parse_multiplication tokens rec fuel)).
  { apply (yields_bind source_expr); [exact P|]. intros e He.
    now apply (binary_loop_yields Multiplication). }
  assert (A : yields source_expr (Parser.parse_addition tokens rec fuel)).
  { apply (yields_bind source_expr); [exact M|]. intros e He.
    now apply (binary_loop_yields Addition). }
  assert (C : yields source_expr (Parser.parse_comparison tokens rec fuel)).
  { apply (yields_bind source_expr); [exact A|]. intros e He.
    now apply (binary_loop_yields Comparison). }
  destruct t; split; assumption.
Qed.

Lemma parse_expression_yields fuel :
  yields source_expr (Parser.parse_expression tokens fuel).
Proof.
  induction fuel as [|fuel IH]; cbn [Parser.parse_expression];
    [apply yields_out_of_fuel|].
  apply (tier_parser_yields _ (S fuel) Comparison IH).
Qed.

Lemma parse_block_yields rec :
  yields source_stmt rec ->
  forall n statements,
    Forall source_stmt statements ->
    yields (Forall source_stmt) (Parser.parse_block tokens rec n statements).
Proof.
  intros Hr. induction n as [|n IH]; intros statements Hs;
    cbn [Parser.parse_block]; [apply yields_out_of_fuel|].
  apply yields_then. intros [|]; [|now apply yields_ret].
  apply (yields_bind source_stmt); [exact Hr|]. intros s H.
  apply IH. apply Forall_app. split; [exact Hs | now constructor].
Qed.

Lemma parse_statement_body_yields rec fuel :
  yields source_stmt rec ->
  yields source_stmt (Parser.parse_statement_body tokens rec fuel).
Proof.
  intros Hr.
  pose proof (parse_expression_yields fuel) as He.
  pose proof (fun n => parse_block_yields rec Hr n [] (Forall_nil _)) as Hb.
  assert (Return_ : yields source_stmt (Parser.parse_return tokens fuel)).
  { apply yields_then. intros _. apply (yields_bind source_expr); [exact He|].
    intros e H. apply yields_then. intros _. now apply yields_ret. }
  assert (Declaration_ : yields source_stmt (Parser.parse_declaration tokens)).
  { apply yields_then. intros _.
    apply (yields_bind _ _ _ _ (yields_eat IDENTIFIER None)). intros x Hx.
    apply yields_then. intros _. apply yields_ret.
    now apply identifier_eaten. }
  assert (Assignment_ : yields source_stmt (Parser.parse_assignment tokens fuel)).
  { apply (yields_bind _ _ _ _ (yields_eat IDENTIFIER None)). intros x Hx.
    apply yields_then. intros _. apply (yields_bind source_expr); [exact He|].
    intros e H. apply yields_then. intros _. apply yields_ret.
    split; [now apply identifier_eaten | exact H]. }
  assert (If_ : yields source_stmt (Parser.parse_if tokens rec fuel)).
  { apply yields_then. intros _. apply yields_then. intros _.
    apply (yields_bind source_expr); [exact He|]. intros c Hc.
    apply yields_then. intros _. apply yields_then. intros _.
    apply (yields_bind (Forall source_stmt)); [apply Hb|]. intros t Ht.
    apply yields_then. intros _. apply yields_then. intros [|].
    - apply yields_then. intros _. apply yields_then. intros _.
      apply (yields_bind (Forall source_stmt)); [apply Hb|]. intros e H'.
      apply yields_then. intros _. apply yields_ret.
      cbn [source_stmt]. now rewrite !all_of_Forall.
    - apply yields_ret. cbn [source_stmt]. rewrite !all_of_Forall. auto. }
  assert (While_ : yields source_stmt (Parser.parse_while tokens rec fuel)).
  { apply yields_then. intros _. apply yields_then. intros _.
    apply (yields_bind source_expr); [exact He|]. intros c Hc.
    apply yields_then. intros _. apply yields_then. intros _.
    apply (yields_bind (Forall source_stmt)); [apply Hb|]. intros b Hb'.
    apply yields_then. intros _. apply yields_ret.
    cbn [source_stmt]. now rewrite all_of_Forall. }
  unfold Parser.parse_statement_body.
  apply yields_then. intros [t|]; [|apply yields_raise].
  destruct (Parser.is_keyword t "return"); [exact Return_|].
  destruct (Parser.is_keyword t "int"); [exact Declaration_|].
  apply yields_then. intros [|]; [exact Assignment_|].
  destruct (Parser.is_keyword t "if"); [exact If_|].
  destruct (Parser.is_keyword t "while"); [exact While_|].
  apply yields_raise.
Qed.

Lemma parse_statement_yields fuel :
  yields source_stmt (Parser.parse_statement tokens fuel).
Proof.
  induction fuel as [|fuel IH]; cbn [Parser.parse_statement];
    [apply yields_out_of_fuel|].
  now apply parse_statement_body_yields.
Qed.

Lemma parse_function_yields fuel :
  yields source_func (Parser.parse_function tokens fuel).
Proof.
  unfold Parser.parse_function. apply yields_then. intros _.
  apply (yields_bind _ _ _ _ (yields_eat IDENTIFIER None)). intros x Hx.
  do 3 (apply yields_then; intros _).
  apply (yields_bind (Forall source_stmt)).
  - apply parse_block_yields; [apply parse_statement_yields | constructor].
  - intros body Hb. apply yields_then. intros _. apply yields_ret.
    split; [now apply identifier_eaten | now apply all_of_Forall].
Qed.

Lemma parse_functions_yields fuel n :
  forall functions,
    Forall source_func functions ->
    yields (Forall source_func) (Parser.parse_functions tokens fuel n functions).
Proof.
  induction n as [|n IH]; intros functions Hf;
    cbn [Parser.parse_functions]; [apply yields_out_of_fuel|].
  apply yields_then. intros [|]; [|now apply yields_ret].
  apply (yields_bind source_func); [apply parse_function_yields|]. intros f H.
  apply IH. apply Forall_app. split; [exact Hf | now constructor].
Qed.

Lemma parse_yields_source_program p :
  Parser.parse tokens = Ok p -> source_program p.
Proof.
  unfold Parser.parse, Parser.run.
  destruct (Parser.parse_program tokens (Parser.enough tokens) 0)
    as [[a pos]| |] eqn:E; try discriminate.
  intros [= <-]. revert E. unfold Parser.parse_program.
  apply (yields_bind (Forall source_func)).
  - apply parse_functions_yields. constructor.
  - intros fs Hf. apply yields_ret. now apply all_of_Forall.
Qed.

End FrontEnd.

Lemma generated_op op :
  In op generated_ops -> mem op all_ops = true /\ In op Lexer.symbols.
Proof.
  intros H. simpl in H.
  repeat (destruct H as [<-|H]; [split; [reflexivity | simpl; tauto]|]).
  contradiction.
Qed.

Lemma identifier_name x :
  well_formed (IDENTIFIER, x) -> mem x ["}"; "else"] = false.
Proof.
  unfold well_formed. cbn [fst snd]. intros (A & _ & K).
  cbn [mem existsb]. rewrite orb_false_r.
  destruct (String.eqb x "}") eqn:E1.
  { apply String.eqb_eq in E1. subst x. discriminate A. }
  destruct (String.eqb x "else") eqn:E2; [|reflexivity].
  apply String.eqb_eq in E2. subst x. discriminate K.
Qed.

Lemma source_expr_wf e : source_expr e -> wf_expr e.
Proof.
  induction e as [v|x|op l IHl r IHr]; cbn [source_expr wf_expr]; auto.
  intros (O & L & R). split; [now apply generated_op | auto].
Qed.

Lemma source_stmt_wf s : source_stmt s -> wf_stmt s.
Proof.
  induction s as [e|x|x e|c t e IHt IHe|c b IHb] using stmt_ind;
    cbn [source_stmt wf_stmt].
  - apply source_expr_wf.
  - auto.
  - intros [X E]. split; [now apply identifier_name | now apply source_expr_wf].
  - rewrite !all_of_Forall. intros (C & T & E).
    split; [now apply source_expr_wf|].
    rewrite !Forall_forall in *. split; intros s I; auto.
  - rewrite !all_of_Forall. intros (C & B).
    split; [now apply source_expr_wf|].
    rewrite Forall_forall in *. intros s I; auto.
Qed.

Lemma source_program_wf p : source_program p -> wf_program p.
Proof.
  destruct p as [fs]. cbn [source_program wf_program].
  rewrite !all_of_Forall, !Forall_forall. intros H [name body] I.
  destruct (H _ I) as [_ B]. cbn [wf_func]. apply all_of_Forall in B.
  apply all_of_Forall. rewrite Forall_forall in *.
  intros s Is. now apply source_stmt_wf, B.
Qed.

Lemma digits_all_digits d :
  all_chars PyStr.isdigit (NilEmpty.string_of_uint d) = true.
Proof.
  induction d; cbn [NilEmpty.string_of_uint all_chars]; [reflexivity|..];
    rewrite IHd; reflexivity.
Qed.

Lemma number_token value :
  (0 <= value)%Z -> well_formed (NUMBER, PyStr.str value).
Proof.
  intros H. unfold well_formed, PyStr.str. cbn [fst snd].
  destruct value as [|p|p]; [split; reflexivity| |lia].
  cbn [Z.to_int NilZero.string_of_int].
  pose proof (DecimalPos.Unsigned.to_uint_nonnil p) as N.
  pose proof (digits_all_digits (Pos.to_uint p)) as A.
  unfold NilZero.string_of_uint.
  destruct (Pos.to_uint p) eqn:E; [now elim N|..]; (split; [|exact A]);
    cbn [NilEmpty.string_of_uint first_char_is]; reflexivity.
Qed.

Lemma keyword_well_formed v : In v Lexer.keywords -> well_formed (keyword v).
Proof. intros H. exact H. Qed.

Lemma symbol_well_formed v : In v Lexer.symbols -> well_formed (symbol v).
Proof. intros H. exact H. Qed.

Lemma source_expr_tokens e :
  source_expr e -> Forall well_formed (expr_tokens e).
Proof.
  assert (W : forall b ts, Forall well_formed ts -> Forall well_formed (wrap b ts)).
  { intros [] ts H; cbn [wrap parens]; [|exact H].
    constructor; [apply symbol_well_formed; simpl; tauto|].
    apply Forall_app. split; [exact H|].
    constructor; [apply symbol_well_formed; simpl; tauto | constructor]. }
  induction e as [v|x|op l IHl r IHr]; cbn [source_expr expr_tokens].
  - intros H. constructor; [now apply number_token | constructor].
  - intros H. constructor; [exact H | constructor].
  - intros (O & L & R). apply Forall_app. split; [now apply W, IHl|].
    constructor; [now apply symbol_well_formed, generated_op | now apply W, IHr].
Qed.

Lemma block_tokens_well_formed l :
  Forall (fun s => source_stmt s -> Forall well_formed (stmt_tokens s)) l ->
  Forall source_stmt l ->
  Forall well_formed (flat_map stmt_tokens l).
Proof.
  intros IH H. apply Forall_flat_map. rewrite Forall_forall in *.
  intros s I. apply (IH s I), (H s I).
Qed.

Lemma source_stmt_tokens s :
  source_stmt s -> Forall well_formed (stmt_tokens s).
Proof.
  pose proof keyword_well_formed as K. pose proof symbol_well_formed as Y.
  induction s as [e|x|x e|c t e IHt IHe|c b IHb] using stmt_ind;
    cbn [source_stmt stmt_tokens].
  - intros H. constructor; [apply K; simpl; tauto|].
    apply Forall_app. split; [now apply source_expr_tokens|].
    constructor; [apply Y; simpl; tauto | constructor].
  - intros H. constructor; [apply K; simpl; tauto|].
    constructor; [exact H|].
    constructor; [apply Y; simpl; tauto | constructor].
  - intros [X E]. constructor; [exact X|].
    constructor; [apply Y; simpl; tauto|].
    apply Forall_app. split; [now apply source_expr_tokens|].
    constructor; [apply Y; simpl; tauto | constructor].
  - rewrite !all_of_Forall. intros (C & T & E).
    constructor; [apply K; simpl; tauto|].
    constructor; [apply Y; simpl; tauto|].
    apply Forall_app. split; [now apply source_expr_tokens|].
    constructor; [apply Y; simpl; tauto|].
    constructor; [apply Y; simpl; tauto|].
    apply Forall_app. split; [now apply block_tokens_well_formed|].
    constructor; [apply Y; simpl; tauto|].
    destruct (nonempty e); [|constructor].
    constructor; [apply K; simpl; tauto|].
    constructor; [apply Y; simpl; tauto|].
    apply Forall_app. split; [now apply block_tokens_well_formed|].
    constructor; [apply Y; simpl; tauto | constructor].
  - rewrite !all_of_Forall. intros (C & B).
    constructor; [apply K; simpl; tauto|].
    constructor; [apply Y; simpl; tauto|].
    apply Forall_app. split; [now apply source_expr_tokens|].
    constructor; [apply Y; simpl; tauto|].
    constructor; [apply Y; simpl; tauto|].
    apply Forall_app. split; [now apply block_tokens_well_formed|].
    constructor; [apply Y; simpl; tauto | constructor].
Qed.

Lemma source_program_tokens p :
  source_program p -> Forall well_formed (program_tokens p).
Proof.
  destruct p as [fs]. cbn [source_program program_tokens].
  rewrite all_of_Forall. intros H. apply Forall_flat_map.
  rewrite Forall_forall in *. intros [name body] I.
  destruct (H _ I) as [N B]. apply all_of_Forall in B. cbn [func_tokens].
  constructor; [apply keyword_well_formed; simpl; tauto|].
  constructor; [exact N|].
  do 3 (constructor; [apply symbol_well_formed; simpl; tauto|]).
  apply Forall_app. split.
  - apply Forall_flat_map. rewrite Forall_forall in *.
    intros s Is. now apply source_stmt_tokens, B.
  - constructor; [apply symbol_well_formed; simpl; tauto | constructor].
Qed.

Lemma parse_source_yields source p :
  parse_source source = Ok p -> source_program p.
Proof.
  unfold parse_source.
  destruct (Lexer.tokenize source) as [tokens| |] eqn:T; try discriminate.
  apply parse_yields_source_program.
  apply (tokenize_loop_well_formed _ _ [] tokens (Forall_nil _) T).
Qed.

(** X19.  Every tree the front end returns for a source text is a tree of
    the source language: its number literals are not negative, each of
    its operators is one of the eight for which the generator has a case
    (the comparisons [<=] and [>=], which the parser would accept, cannot
    come from source text), and the names of its functions and variables
    are identifiers that are no keywords. *)
Theorem X19_front_end_returns_source_trees :
  forall source p,
    parse_source source = Ok p -> source_program p.
Proof. exact parse_source_yields. Qed.

Lemma X19_witness :
  source_program
    (Program [Func "main" [Declaration "a";
                           Assignment "a" (BinaryOp "+" (Number 10) (Number 5));
                           Return (Var "a")]]).
Proof.
  apply (X19_front_end_returns_source_trees
           "int main() { int a; a = 10 + 5; return a; }").
  vm_compute. reflexivity.
Defined.

(** X20.  Printing the tree of a program and compiling the text again
    changes nothing: when a source text parses to a program, the text
    printed from that program (lexemes separated by blanks, the necessary
    parentheses only) parses to the same program and compiles to the same
    assembly. *)
Theorem X20_reprinted_source_compiles_alike :
  forall source p,
    parse_source source = Ok p ->
    parse_source (unlex (program_tokens p)) = Ok p
    /\ compile_lines (unlex (program_tokens p)) = compile_lines source.
Proof.
  intros source p H. pose proof (parse_source_yields source p H) as S.
  assert (P : parse_source (unlex (program_tokens p)) = Ok p).
  { unfold parse_source.
    rewrite (tokenize_unlex _ (source_program_tokens p S)).
    rewrite <- (app_nil_r (program_tokens p)).
    apply parse_program_print; [now apply source_program_wf | exact I]. }
  split; [exact P|]. unfold compile_lines. now rewrite P, H.
Qed.

Lemma X20_witness :
  parse_source "int main(){int a;a=(1+2)*3-4-5;if(a<2){return a;}return 0;}"
  = Ok (Program
          [Func "main"
             [Declaration "a";
              Assignment "a"
                (BinaryOp "-"
                   (BinaryOp "-"
                      (BinaryOp "*" (BinaryOp "+" (Number 1) (Number 2)) (Number 3))
                      (Number 4))
                   (Number 5));
              If (BinaryOp "<" (Var "a") (Number 2)) [Return (Var "a")] [];
              Return (Number 0)]])
  /\ parse_source
       "int main ( ) { int a ; a = ( 1 + 2 ) * 3 - 4 - 5 ; if ( a < 2 ) { return a ; } return 0 ; } "
     = Ok (Program
             [Func "main"
                [Declaration "a";
                 Assignment "a"
                   (BinaryOp "-"
                      (BinaryOp "-"
                         (BinaryOp "*" (BinaryOp "+" (Number 1) (Number 2)) (Number 3))
                         (Number 4))
                      (Number 5));
                 If (BinaryOp "<" (Var "a") (Number 2)) [Return (Var "a")] [];
                 Return (Number 0)]]).
Proof.
  split; [vm_compute; reflexivity|].
  apply (proj1 (X20_reprinted_source_compiles_alike
                  "int main(){int a;a=(1+2)*3-4-5;if(a<2){return a;}return 0;}"
                  _ ltac:(vm_compute; reflexivity))).
Defined.
